(** * Air liveness analysis (JavaScriptCore, b3/air/AirLiveness.h)

    A shallow embedding of [TmpLivenessAdapter], [StackSlotLivenessAdapter],
    [AbstractLiveness] and [AbstractLiveness::LocalCalc], and the properties
    of the backward fixed point they compute.

    C++ [unsigned] values are [N]; positions in a [Vector] (block indices,
    instruction indices) are [nat]; a [HashSet<unsigned>] is a [gset N];
    an [IndexMap<BasicBlock, V>] is the [list V] of its backing vector,
    read with [!!] and written with [<[ _ := _ ]>]. A [HashSet] is
    iterated in the order of [elements]. A [Vector] access out of bounds
    is the [None] of the option monad.

    After the engine come the update state of the compositing run loop
    and the frame completion of WebKit2's ThreadedCompositor.cpp, and
    the naming of the thread of WTF's glib/WorkQueueGLib.cpp. *)

From stdpp Require Import base option numbers list sets gmap fin_sets.
From Stdlib Require Import Ascii.

Set Warnings "-clear-no-such-hyp".

(** ** Operands *)

(** [Arg::Type]. The header that declares it is not part of the sources
    at hand; AirLiveness.h names its two register banks, [Arg::GP] and
    [Arg::FP], in the typedefs [GPLiveness] and [FPLiveness]. *)
Inductive ArgType := GP | FP.

Global Instance ArgType_eq_dec : EqDecision ArgType.
Proof. solve_decision. Defined.

(** [Arg::Role] with [Arg::isDef], [Arg::isEarlyUse] and [Arg::isLateUse].
    They are declared in AirArg.h, which is not part of the sources at
    hand, so the role type and its three classifiers are parameters. *)
Class ArgRoles (Role : Type) := {
  isDef : Role → bool;
  isEarlyUse : Role → bool;
  isLateUse : Role → bool
}.

(** An [Inst], as [Inst::forEach<Thing>] shows it to its functor: the
    sequence of (thing, role, type) occurrences, in visiting order. *)
Abbreviation Inst Role Thing := (list (Thing * Role * ArgType)).

(** [inst.forEach<Thing>(functor)] for a functor that updates a captured
    state [S]. *)
Definition forEach {Role Thing S : Type}
    (functor : Thing → Role → ArgType → S → S) (inst : Inst Role Thing) (s : S) : S :=
  foldl (λ acc '(thing, role, type), functor thing role type acc) s inst.

(** ** Blocks and code *)

(** A [BasicBlock]: its instructions and its predecessors. A
    [BasicBlock*] is the index of the block in the code. *)
Record BasicBlock (Role Thing : Type) := {
  insts : list (Inst Role Thing);
  predecessors : list nat
}.
Arguments insts {Role Thing} _.
Arguments predecessors {Role Thing} _.

(** [StackSlot]: only [index()] is used. *)
Record StackSlot := { index : N }.

Global Instance StackSlot_eq_dec : EqDecision StackSlot.
Proof. solve_decision. Defined.

(** [Code]: the vector of blocks ([code.at(i)] may be null),
    [code.numTmps(type)] and [code.stackSlots()]. *)
Record Code (Role Thing : Type) := {
  blocks : list (option (BasicBlock Role Thing));
  numTmps : ArgType → N;
  stackSlots : list StackSlot
}.
Arguments blocks {Role Thing} _.
Arguments numTmps {Role Thing} _.
Arguments stackSlots {Role Thing} _.

(** ** Machine arithmetic *)

(** Width of C++ [unsigned]. *)
Definition unsignedBits : Z := 32.

(** Reduction of an integer to a [w]-bit unsigned value. *)
Definition wrap (w : Z) (x : Z) : Z := x `mod` 2 ^ w.

(** ** Entity domain adapters *)

Class LivenessAdapter (Role Thing : Type) := {
  maxIndex : Code Role Thing → N;
  acceptsType : ArgType → bool;
  valueToIndex : Thing → N;
  indexToValue : Code Role Thing → N → option Thing
}.

(** [AbsoluteTmpMapper<adapterType>], declared in AirTmpInlines.h, which
    is not part of the sources at hand: its three static functions are
    parameters. [absoluteIndexOfCount] is the overload of [absoluteIndex]
    that takes an [unsigned]. *)
Class AbsoluteTmpMapper (Tmp : Type) := {
  absoluteIndex : ArgType → Tmp → N;
  absoluteIndexOfCount : ArgType → N → N;
  tmpFromAbsoluteIndex : ArgType → N → Tmp
}.

(** [TmpLivenessAdapter<adapterType>]. *)
Definition TmpLivenessAdapter {Role Tmp : Type} `{AbsoluteTmpMapper Tmp}
    (adapterType : ArgType) : LivenessAdapter Role Tmp := {|
  maxIndex code := absoluteIndexOfCount adapterType (numTmps code adapterType);
  acceptsType type := bool_decide (type = adapterType);
  valueToIndex tmp := absoluteIndex adapterType tmp;
  indexToValue _ index := Some (tmpFromAbsoluteIndex adapterType index)
|}.

(** [StackSlotLivenessAdapter::maxIndex]: [code.stackSlots().size() - 1].
    The subtraction is done on [size_t], [sizeBits] wide, and the result
    is returned as [unsigned]. *)
Definition StackSlotLivenessAdapter_maxIndex (sizeBits : Z) (numSlots : nat) : N :=
  Z.to_N (wrap unsignedBits (wrap sizeBits (Z.of_nat numSlots - 1))).

(** Width of [size_t] on the 64-bit targets of the B3 JIT. *)
Definition sizeBits : Z := 64.

(** [StackSlotLivenessAdapter]. *)
Global Instance StackSlotLivenessAdapter {Role : Type} : LivenessAdapter Role StackSlot := {|
  maxIndex code := StackSlotLivenessAdapter_maxIndex sizeBits (length (stackSlots code));
  acceptsType _ := true;
  valueToIndex stackSlot := index stackSlot;
  indexToValue code i := stackSlots code !! N.to_nat i
|}.

(** Modelled from the spec: the numbering of the stack slots
    ([Code::addStackSlot] and [StackSlot::index] are not part of the
    sources at hand). The code looks a slot up by its index: the slot at
    position [i] of [code.stackSlots()] has index [i]. *)
Definition slotsIndexed {Role Thing : Type} (code : Code Role Thing) : bool :=
  bool_decide (index <$> stackSlots code = N.of_nat <$> seq 0 (length (stackSlots code))).


(** ** The sparse workset *)

(** Modelled from the spec: [WTF::IndexSparseSet] (wtf/IndexSparseSet.h is
    not part of the sources at hand). A set of indices that is iterated in
    the insertion order of its current contents; [add] tells whether the
    index is new, [remove] whether it was present. [maxValue] is the
    argument of the constructor. *)
Module IndexSparseSet.

Record t := Make { maxValue : N; values : list N }.

Definition new (maxValue : N) : t := Make maxValue [].

Definition contains (value : N) (s : t) : bool := bool_decide (value ∈ values s).

Definition add (value : N) (s : t) : bool * t :=
  if contains value s then (false, s)
  else (true, Make (maxValue s) (values s ++ [value])).

Definition remove (value : N) (s : t) : bool * t :=
  if contains value s
  then (true, Make (maxValue s) (filter (λ v, v ≠ value) (values s)))
  else (false, s).

Definition clear (s : t) : t := Make (maxValue s) [].

Definition size (s : t) : nat := length (values s).

Definition isEmpty (s : t) : bool := bool_decide (values s = []).

End IndexSparseSet.

(** ** The dirty bits *)

(** [WTF::BitVector] (wtf/BitVector.h is not part of the sources at hand),
    as the set of the indices whose bit is set. [quickClear] clears the
    bit and returns the value it had: the driver skips a block whose bit
    was clear. [quickSet] sets the bit. In WTF it returns, like
    [quickClear], the value the bit had before the call; as the header is
    not at hand, the result is kept as a function [quickSetResult] of the
    old value of the bit, a parameter of the driver, and both readings of
    the test [if (dirtyBlocks.quickSet(...)) changed = true] are
    followed. *)
Module BitVector.

Definition t : Type := gset nat.

Definition empty : t := ∅.

Definition get (bit : nat) (v : t) : bool := bool_decide (bit ∈ v).

Definition set (bit : nat) (v : t) : t := {[bit]} ∪ v.

Definition quickClear (bit : nat) (v : t) : bool * t := (get bit v, v ∖ {[bit]}).

Definition quickSet (quickSetResult : bool → bool) (bit : nat) (v : t) : bool * t :=
  (quickSetResult (get bit v), {[bit]} ∪ v).

End BitVector.

(** The two conventions: [quickSet] returns the old value of the bit (as
    [quickClear] does), or it returns whether the bit went from clear to
    set. *)
Definition returnsOldValue : bool → bool := λ old, old.
Definition returnsTransition : bool → bool := negb.

(** ** Loops *)

(** [for (size_t i = n; i--;) body(i)], where the body may trap. *)
Fixpoint countDown {S : Type} (body : nat → S → option S) (n : nat) (s : S) : option S :=
  match n with
  | 0 => Some s
  | S i => s' ← body i s; countDown body i s'
  end.

(** Outcome of the constructor: the engine, a trapped [Vector] access,
    or a loop that was cut off. *)
Inductive Result (A : Type) :=
  | Ok (a : A)
  | Trap
  | OutOfFuel.
Arguments Ok {A} _.
Arguments Trap {A}.
Arguments OutOfFuel {A}.

(** ** The engine *)

(** The members of [AbstractLiveness]. *)
Record AbstractLiveness := {
  m_workset : IndexSparseSet.t;
  m_liveAtHead : list (list N);
  m_liveAtTail : list (gset N)
}.

Definition withWorkset (liveness : AbstractLiveness) (workset : IndexSparseSet.t)
    : AbstractLiveness :=
  {| m_workset := workset;
     m_liveAtHead := m_liveAtHead liveness;
     m_liveAtTail := m_liveAtTail liveness |}.

(** The locals of the constructor that live across the fixed-point loop. *)
Record LoopState := {
  engine : AbstractLiveness;
  dirtyBlocks : BitVector.t;
  changed : bool
}.

(** [HashSet::add]: the set with the index, and whether it is a new entry. *)
Definition IndexSet_add (index : N) (set : gset N) : bool * gset N :=
  (bool_decide (index ∉ set), {[index]} ∪ set).

(** The number of entries of all the tail sets together. *)
Definition totalLive (liveAtTails : list (gset N)) : nat := sum_list (size <$> liveAtTails).

Section Engine.
Context {Role Thing : Type} `{!ArgRoles Role} `{!LivenessAdapter Role Thing}.

(** The three functors of AirLiveness.h. *)
Definition addLateUse (thing : Thing) (role : Role) (type : ArgType) (set : gset N) : gset N :=
  if isLateUse role && acceptsType type then (IndexSet_add (valueToIndex thing) set).2 else set.

Definition removeDef (thing : Thing) (role : Role) (type : ArgType)
    (workset : IndexSparseSet.t) : IndexSparseSet.t :=
  if isDef role && acceptsType type
  then (IndexSparseSet.remove (valueToIndex thing) workset).2 else workset.

Definition addUse (isUse : Role → bool) (thing : Thing) (role : Role) (type : ArgType)
    (workset : IndexSparseSet.t) : IndexSparseSet.t :=
  if isUse role && acceptsType type
  then (IndexSparseSet.add (valueToIndex thing) workset).2 else workset.

(** The indices of the operands of an instruction that have a role of
    the given class and a type of this domain, in visiting order. *)
Definition indicesOf (isRole : Role → bool) (inst : Inst Role Thing) : list N :=
  omap (λ '(thing, role, type),
          if isRole role && acceptsType type then Some (valueToIndex thing) else None)
       inst.

(** The late uses that [execute(instIndex)] takes from the instruction
    before: none at the head of the block. *)
Definition lateUsesBefore (block : BasicBlock Role Thing) (instIndex : nat) : list N :=
  match instIndex with
  | 0 => []
  | S prev => default [] (indicesOf isLateUse <$> insts block !! prev)
  end.

(** *** LocalCalc *)

(** The constructor of [LocalCalc]: the workset is cleared and filled
    from [liveAtTail[block]]. *)
Definition fill (workset : IndexSparseSet.t) (liveAtTail : gset N) : IndexSparseSet.t :=
  foldl (λ workset index, (IndexSparseSet.add index workset).2)
        (IndexSparseSet.clear workset) (elements liveAtTail).

Definition LocalCalc_new (liveness : AbstractLiveness) (block : nat)
    : option AbstractLiveness :=
  liveAtTail ← m_liveAtTail liveness !! block;
  Some (withWorkset liveness (fill (m_workset liveness) liveAtTail)).

(** [LocalCalc::execute] on the workset. *)
Definition executeOn (m_block : BasicBlock Role Thing) (instIndex : nat)
    (workset : IndexSparseSet.t) : option IndexSparseSet.t :=
  inst ← insts m_block !! instIndex;
  let workset := forEach removeDef inst workset in
  let workset := forEach (addUse isEarlyUse) inst workset in
  if bool_decide (instIndex ≠ 0) then
    prevInst ← insts m_block !! (instIndex - 1);
    Some (forEach (addUse isLateUse) prevInst workset)
  else Some workset.

(** [LocalCalc::execute]. *)
Definition execute (m_block : BasicBlock Role Thing) (instIndex : nat)
    (liveness : AbstractLiveness) : option AbstractLiveness :=
  workset ← executeOn m_block instIndex (m_workset liveness);
  Some (withWorkset liveness workset).

(** [LocalCalc::live]: the things of the workset, in its order. *)
Definition live (code : Code Role Thing) (liveness : AbstractLiveness)
    : option (list Thing) :=
  mapM (indexToValue code) (IndexSparseSet.values (m_workset liveness)).

(** The Local Backward Scan of a whole block:
    a [LocalCalc] is constructed for the block, then
    [for (size_t instIndex = block->size(); instIndex--;) localCalc.execute(instIndex);] *)
Definition localScan (code : Code Role Thing) (blockIndex : nat)
    (liveness : AbstractLiveness) : option AbstractLiveness :=
  block ← blocks code !! blockIndex ≫= id;
  liveness ← LocalCalc_new liveness blockIndex;
  countDown (execute block) (length (insts block)) liveness.

(** The workset of a local scan, and the contents it has when the scan
    starts from a given tail set: they depend on nothing else of the
    engine, in particular not on [maxValue]. *)
Definition scanOn (block : BasicBlock Role Thing) (workset : IndexSparseSet.t)
    : option IndexSparseSet.t :=
  countDown (executeOn block) (length (insts block)) workset.

Definition liveBeforeFirst (block : BasicBlock Role Thing) (liveAtTail : gset N) : list N :=
  default [] (IndexSparseSet.values <$>
                scanOn block (fill (IndexSparseSet.new 0) liveAtTail)).

(** The indices live before the first instruction of a block, as a
    local scan computes them. *)
Definition liveAtHeadOf (code : Code Role Thing) (blockIndex : nat)
    (liveness : AbstractLiveness) : option (list N) :=
  IndexSparseSet.values ∘ m_workset <$> localScan code blockIndex liveness.

(** *** The constructor of AbstractLiveness *)

(** The member initialisers. *)
Definition initialLiveness (code : Code Role Thing) : AbstractLiveness :=
  {| m_workset := IndexSparseSet.new (maxIndex code);
     m_liveAtHead := replicate (length (blocks code)) [];
     m_liveAtTail := replicate (length (blocks code)) ∅ |}.

(** One round of [for (BasicBlock* block : code)], which skips the null
    entries: the late uses of the terminal go to [liveAtTail]. *)
Definition seedBlock (code : Code Role Thing) (blockIndex : nat)
    (liveAtTails : list (gset N)) : option (list (gset N)) :=
  match blocks code !! blockIndex with
  | Some (Some block) =>
      liveAtTail ← liveAtTails !! blockIndex;
      terminal ← last (insts block);
      Some (<[blockIndex := forEach addLateUse terminal liveAtTail]> liveAtTails)
  | _ => Some liveAtTails
  end.

Fixpoint seedFrom (code : Code Role Thing) (blockIndex count : nat)
    (liveAtTails : list (gset N)) : option (list (gset N)) :=
  match count with
  | 0 => Some liveAtTails
  | S count' =>
      liveAtTails ← seedBlock code blockIndex liveAtTails;
      seedFrom code (S blockIndex) count' liveAtTails
  end.

(** [for (size_t blockIndex = 0; blockIndex < code.size(); ++blockIndex)
      dirtyBlocks.set(blockIndex);] *)
Definition allDirty (code : Code Role Thing) : BitVector.t :=
  foldl (λ dirty blockIndex, BitVector.set blockIndex dirty) BitVector.empty
        (seq 0 (length (blocks code))).

(** The state on entry to the [do ... while (changed)] loop. *)
Definition initialState (code : Code Role Thing) : option LoopState :=
  liveAtTails ← seedFrom code 0 (length (blocks code))
                  (m_liveAtTail (initialLiveness code));
  Some {| engine := {| m_workset := m_workset (initialLiveness code);
                       m_liveAtHead := m_liveAtHead (initialLiveness code);
                       m_liveAtTail := liveAtTails |};
          dirtyBlocks := allDirty code;
          changed := false |}.

Variable quickSetResult : bool → bool.

(** The innermost loop: the new values go to the tail set of one
    predecessor, which is marked dirty at each successful insertion. *)
Definition propagateValue (predecessor : nat) (acc : gset N * BitVector.t * bool)
    (newValue : N) : gset N * BitVector.t * bool :=
  let '(liveAtTail, dirty, changed) := acc in
  let (added, liveAtTail) := IndexSet_add newValue liveAtTail in
  if added then
    let (result, dirty) := BitVector.quickSet quickSetResult predecessor dirty in
    (liveAtTail, dirty, if result then true else changed)
  else (liveAtTail, dirty, changed).

(** The body of [for (BasicBlock* predecessor : block->predecessors())]. *)
Definition propagateTo (newValues : list N) (s : LoopState) (predecessor : nat)
    : option LoopState :=
  liveAtTail ← m_liveAtTail (engine s) !! predecessor;
  let '(liveAtTail, dirty, changed) :=
    foldl (propagateValue predecessor) (liveAtTail, dirtyBlocks s, changed s) newValues in
  Some {| engine := {| m_workset := m_workset (engine s);
                       m_liveAtHead := m_liveAtHead (engine s);
                       m_liveAtTail := <[predecessor := liveAtTail]> (m_liveAtTail (engine s)) |};
          dirtyBlocks := dirty;
          changed := changed |}.

Fixpoint propagate (newValues : list N) (preds : list nat) (s : LoopState)
    : option LoopState :=
  match preds with
  | [] => Some s
  | predecessor :: preds =>
      s ← propagateTo newValues s predecessor;
      propagate newValues preds s
  end.

(** What is left in the workset once the values already in [liveAtHead]
    are taken out. *)
Definition removeKnown (liveAtHead : list N) (workset : IndexSparseSet.t)
    : IndexSparseSet.t :=
  if bool_decide (IndexSparseSet.size workset = length liveAtHead)
  then IndexSparseSet.clear workset
  else foldl (λ workset liveIndexAtHead,
                (IndexSparseSet.remove liveIndexAtHead workset).2)
             workset liveAtHead.

(** The state once the new values of the workset are appended to
    [liveAtHead], before they go to the predecessors. *)
Definition beforePropagate (s : LoopState) (blockIndex : nat) (liveAtHead : list N)
    (workset : IndexSparseSet.t) : LoopState :=
  {| engine := {| m_workset := workset;
                  m_liveAtHead :=
                    <[blockIndex := liveAtHead ++ IndexSparseSet.values workset]>
                      (m_liveAtHead (engine s));
                  m_liveAtTail := m_liveAtTail (engine s) |};
     dirtyBlocks := dirtyBlocks s;
     changed := changed s |}.

(** The body of [for (size_t blockIndex = code.size(); blockIndex--;)]. *)
Definition processBlock (code : Code Role Thing) (blockIndex : nat) (s : LoopState)
    : option LoopState :=
  block ← blocks code !! blockIndex;
  match block with
  | None => Some s
  | Some block =>
      let (wasDirty, dirty) := BitVector.quickClear blockIndex (dirtyBlocks s) in
      if negb wasDirty then
        Some {| engine := engine s; dirtyBlocks := dirty; changed := changed s |}
      else
        liveness ← LocalCalc_new (engine s) blockIndex;
        liveness ← countDown (execute block) (length (insts block)) liveness;
        liveAtHead ← m_liveAtHead liveness !! blockIndex;
        let workset := removeKnown liveAtHead (m_workset liveness) in
        let s := {| engine := withWorkset liveness workset;
                    dirtyBlocks := dirty; changed := changed s |} in
        if IndexSparseSet.isEmpty workset then Some s
        else
          propagate (IndexSparseSet.values workset) (predecessors block)
                    (beforePropagate s blockIndex liveAtHead workset)
  end.

(** One turn of the [do] body. *)
Definition pass (code : Code Role Thing) (s : LoopState) : option LoopState :=
  countDown (processBlock code) (length (blocks code))
    {| engine := engine s; dirtyBlocks := dirtyBlocks s; changed := false |}.

(** [do { ... } while (changed);] *)
Fixpoint fixedPoint (fuel : nat) (code : Code Role Thing) (s : LoopState)
    : Result LoopState :=
  match fuel with
  | 0 => OutOfFuel
  | S fuel =>
      match pass code s with
      | None => Trap
      | Some s => if changed s then fixedPoint fuel code s else Ok s
      end
  end.

(** The constructor: seeding, the loop, and [m_liveAtHead.clear()]. *)
Definition AbstractLiveness_new (fuel : nat) (code : Code Role Thing)
    : Result AbstractLiveness :=
  match initialState code with
  | None => Trap
  | Some s =>
      match fixedPoint fuel code s with
      | Ok s => Ok {| m_workset := m_workset (engine s);
                      m_liveAtHead := [];
                      m_liveAtTail := m_liveAtTail (engine s) |}
      | Trap => Trap
      | OutOfFuel => OutOfFuel
      end
  end.

(** [liveAtTail(block)] is not declared by this version of the class:
    the member is read by the friends of the class. *)
Definition liveAtTail (liveness : AbstractLiveness) (block : nat) : option (gset N) :=
  m_liveAtTail liveness !! block.

(** *** What the constructor expects of the code *)

(** Every block ends in a terminal: [block->last()] is in bounds. *)
Definition blocksTerminated (code : Code Role Thing) : bool :=
  forallb (λ slot, match slot with
                   | Some block => bool_decide (insts block ≠ [])
                   | None => true
                   end) (blocks code).

(** Every predecessor is a block index of the code: [m_liveAtTail[predecessor]]
    is in bounds. *)
Definition predecessorsInRange (code : Code Role Thing) : bool :=
  forallb (λ slot, match slot with
                   | Some block =>
                       forallb (λ p, bool_decide (p < length (blocks code)))
                               (predecessors block)
                   | None => true
                   end) (blocks code).

(** The index of every operand of the domain is at most [maxIndex(code)]. *)
Definition indicesInRange (code : Code Role Thing) : bool :=
  forallb (λ slot, match slot with
                   | Some block =>
                       forallb (forallb (λ '(thing, _, type),
                                  negb (acceptsType type)
                                  || bool_decide (valueToIndex thing ≤ maxIndex code)%N))
                               (insts block)
                   | None => true
                   end) (blocks code).

Definition wellFormed (code : Code Role Thing) : bool :=
  blocksTerminated code && predecessorsInRange code && indicesInRange code.

(** *** Invariants of the loop *)

(** Both maps have an entry per block index, and what [liveAtHead]
    records for a block is duplicate-free and is live before the first
    instruction of the block for the current tail set. *)
Definition headsSound (code : Code Role Thing) (s : LoopState) : Prop :=
  length (m_liveAtTail (engine s)) = length (blocks code)
  ∧ length (m_liveAtHead (engine s)) = length (blocks code)
  ∧ ∀ blockIndex block known T,
      blocks code !! blockIndex = Some (Some block) →
      m_liveAtHead (engine s) !! blockIndex = Some known →
      m_liveAtTail (engine s) !! blockIndex = Some T →
      NoDup known ∧ known ⊆ liveBeforeFirst block T.

(** Every index of every tail set is at most [maxIndex(code)]. *)
Definition tailsBounded (code : Code Role Thing) (s : LoopState) : Prop :=
  ∀ blockIndex T x,
    m_liveAtTail (engine s) !! blockIndex = Some T → x ∈ T → (x ≤ maxIndex code)%N.

(** The seeds of a tail set: the accepted late uses of the terminal. *)
Definition lateUsesOfTerminal (block : BasicBlock Role Thing) : list N :=
  default [] (indicesOf isLateUse <$> last (insts block)).

(** How the two maps and the dirty bits hang together between two
    blocks of a turn: the seeds are in place; what [liveAtHead] records
    for a block is in the tail set of each of its predecessors; a block
    whose bit is clear has all of its live-at-head indices recorded; and
    every entry of a tail set is a seed or is recorded at the head of a
    successor. *)
Definition propagated (code : Code Role Thing) (s : LoopState) : Prop :=
  (∀ blockIndex block T x,
      blocks code !! blockIndex = Some (Some block) →
      m_liveAtTail (engine s) !! blockIndex = Some T →
      x ∈ lateUsesOfTerminal block → x ∈ T)
  ∧ (∀ succIndex succ known p T x,
      blocks code !! succIndex = Some (Some succ) →
      m_liveAtHead (engine s) !! succIndex = Some known →
      p ∈ predecessors succ →
      m_liveAtTail (engine s) !! p = Some T →
      x ∈ known → x ∈ T)
  ∧ (∀ blockIndex block known T x,
      blocks code !! blockIndex = Some (Some block) →
      blockIndex ∉ dirtyBlocks s →
      m_liveAtHead (engine s) !! blockIndex = Some known →
      m_liveAtTail (engine s) !! blockIndex = Some T →
      x ∈ liveBeforeFirst block T → x ∈ known)
  ∧ (∀ blockIndex T x,
      m_liveAtTail (engine s) !! blockIndex = Some T → x ∈ T →
      (∃ block, blocks code !! blockIndex = Some (Some block)
                ∧ x ∈ lateUsesOfTerminal block)
      ∨ (∃ succIndex succ known,
            blocks code !! succIndex = Some (Some succ)
            ∧ blockIndex ∈ predecessors succ
            ∧ m_liveAtHead (engine s) !! succIndex = Some known
            ∧ x ∈ known)).

(** The states of the fixed-point loop at the boundaries of its body:
    the state on entry, and the states that follow by processing a
    block or by starting a new turn. *)
Inductive loopState (code : Code Role Thing) : LoopState → Prop :=
  | loopState_entry s :
      initialState code = Some s → loopState code s
  | loopState_block s blockIndex s' :
      loopState code s → processBlock code blockIndex s = Some s' → loopState code s'
  | loopState_turn s :
      loopState code s →
      loopState code {| engine := engine s; dirtyBlocks := dirtyBlocks s; changed := false |}.

End Engine.

(** ** A concrete instance *)

(** Modelled from the spec: the roles of [Arg::Role] (AirArg.h is not part
    of the sources at hand). The data model classifies an occurrence as an
    early use, a late use or a definition, and lets one occurrence be a
    use and a definition at once. *)
Inductive Role := EarlyUse | LateUse | Def | UseDef.

Global Instance Role_ArgRoles : ArgRoles Role := {|
  isDef role := match role with Def | UseDef => true | _ => false end;
  isEarlyUse role := match role with EarlyUse | UseDef => true | _ => false end;
  isLateUse role := match role with LateUse => true | _ => false end
|}.

(** [StackSlotLiveness], the engine over the stack slots, with these roles. *)
Definition StackSlotLiveness_new :=
  @AbstractLiveness_new Role StackSlot Role_ArgRoles StackSlotLivenessAdapter.

Definition slot (i : N) : StackSlot := {| index := i |}.

(** Three blocks, laid out 0, 1, 2, with edges 0 → 2, 2 → 1 and 1 → 2.
    Block 0 defines slot 0 and jumps, block 1 reads slot 0 and jumps
    back, block 2 branches. *)
Definition loopCode : Code Role StackSlot := {|
  blocks := [ Some {| insts := [[(slot 0, Def, GP)]; []]; predecessors := [] |};
              Some {| insts := [[(slot 0, EarlyUse, GP)]; []]; predecessors := [2] |};
              Some {| insts := [[]]; predecessors := [0; 1] |} ];
  numTmps := λ _, 0%N;
  stackSlots := [slot 0]
|}.

(** The cycle 0 → 1 → 2 → 1, laid out in that order: block 0 defines
    slot 0, the terminal of block 2 reads it late. *)
Definition cycleCode : Code Role StackSlot := {|
  blocks := [ Some {| insts := [[(slot 0, Def, GP)]; []]; predecessors := [] |};
              Some {| insts := [[]]; predecessors := [0; 2] |};
              Some {| insts := [[(slot 0, LateUse, GP)]]; predecessors := [1] |} ];
  numTmps := λ _, 0%N;
  stackSlots := [slot 0]
|}.

(** The state in which the constructor enters its loop on [loopCode]. *)
Definition loopEntry : LoopState :=
  {| engine := {| m_workset := IndexSparseSet.new 0;
                  m_liveAtHead := [[]; []; []];
                  m_liveAtTail := [∅; ∅; ∅] |};
     dirtyBlocks := {[0; 1; 2]};
     changed := false |}.

(** The state in which the first turn of the loop leaves [loopCode] when
    [quickSet] returns the old value of the bit. *)
Definition loopAfterTurn : LoopState :=
  {| engine := {| m_workset := IndexSparseSet.new 0;
                  m_liveAtHead := [[]; [0%N]; []];
                  m_liveAtTail := [∅; ∅; {[0%N]}] |};
     dirtyBlocks := {[2]};
     changed := false |}.

(** A block whose first instruction defines slot 0 and reads it late,
    followed by an instruction that reads slot 1. *)
Definition sampleBlock : BasicBlock Role StackSlot :=
  {| insts := [[(slot 0, Def, GP); (slot 0, LateUse, GP)]; [(slot 1, EarlyUse, GP)]];
     predecessors := [] |}.

Definition sampleCode : Code Role StackSlot :=
  {| blocks := [Some sampleBlock]; numTmps := λ _, 0%N; stackSlots := [slot 0; slot 1] |}.

Definition sampleLiveness : AbstractLiveness :=
  {| m_workset := IndexSparseSet.Make 1 [1%N];
     m_liveAtHead := [[]];
     m_liveAtTail := [{[0%N]}] |}.

(** A code without stack slots. *)
Definition noSlotsCode : Code Role StackSlot :=
  {| blocks := [Some {| insts := [[]]; predecessors := [] |}];
     numTmps := λ _, 0%N;
     stackSlots := [] |}.

(** Modelled from the spec: [AbsoluteTmpMapper] (AirTmpInlines.h and
    AirTmp.h are not part of the sources at hand). The spec has every
    entity of a domain mapped bijectively to a dense index, and the code
    a count of the temporaries of each bank: a temporary is the number
    it has in its bank, that number is its index, and
    [absoluteIndex(numTmps)] is the index of the temporary of that
    number. *)
Definition plainTmpMapper : AbsoluteTmpMapper N :=
  {| absoluteIndex := λ _ tmp, tmp;
     absoluteIndexOfCount := λ _ count, count;
     tmpFromAbsoluteIndex := λ _ i, i |}.

(** ** Views of the code *)

Section Views.
Context {Role Thing : Type} `{!ArgRoles Role} `{!LivenessAdapter Role Thing}.

(** A block, and a code, as the domain of the adapter sees them: every
    instruction keeps the operands whose type the adapter accepts. *)
Definition ownOperands (block : BasicBlock Role Thing) : BasicBlock Role Thing :=
  {| insts := filter (λ operand, acceptsType operand.2 = true) <$> insts block;
     predecessors := predecessors block |}.

Definition ownCode (code : Code Role Thing) : Code Role Thing :=
  {| blocks := (λ slot : option (BasicBlock Role Thing), ownOperands <$> slot) <$> blocks code;
     numTmps := numTmps code;
     stackSlots := stackSlots code |}.

(** Every edge of the code goes forward in the layout: each predecessor
    of a block has a smaller index than the block. *)
Definition forwardEdges (code : Code Role Thing) : bool :=
  forallb id
    (imap (λ blockIndex slot,
             match slot with
             | Some block => forallb (λ p, bool_decide (p < blockIndex)) (predecessors block)
             | None => true
             end) (blocks code)).

(** A client of a [LocalCalc]: [execute] is called at each of the given
    instruction indices in turn. *)
Definition executeEach (block : BasicBlock Role Thing) (instIndices : list nat)
    (liveness : AbstractLiveness) : option AbstractLiveness :=
  foldl (λ calc instIndex, calc ≫= execute block instIndex) (Some liveness) instIndices.

(** The constructor of [LocalCalc] when the iteration over the
    [HashSet] [liveAtTail] visits its indices in the given order. *)
Definition fillFrom (order : list N) (workset : IndexSparseSet.t) : IndexSparseSet.t :=
  foldl (λ workset index, (IndexSparseSet.add index workset).2)
        (IndexSparseSet.clear workset) order.

(** A solution of the liveness constraints of the code: a set for every
    block index that holds the accepted late uses of the terminal of the
    block and, for every edge, what a local scan of the successor from
    its own set finds live before the first instruction. *)
Definition solves (code : Code Role Thing) (solution : nat → gset N) : Prop :=
  (∀ blockIndex block x,
      blocks code !! blockIndex = Some (Some block) →
      x ∈ lateUsesOfTerminal block → x ∈ solution blockIndex)
  ∧ (∀ succIndex succ p x,
      blocks code !! succIndex = Some (Some succ) →
      p ∈ predecessors succ →
      x ∈ liveBeforeFirst succ (solution succIndex) → x ∈ solution p).

(** Every tail set of the state is part of the set that the solution
    has for its block index. *)
Definition below (s : LoopState) (solution : nat → gset N) : Prop :=
  ∀ blockIndex T, m_liveAtTail (engine s) !! blockIndex = Some T → T ⊆ solution blockIndex.

End Views.

(** Every operand of the code is one of its stack slots. *)
Definition operandsAreSlots {Role : Type} (code : Code Role StackSlot) : bool :=
  forallb (λ slot, match slot with
                   | Some block =>
                       forallb (forallb (λ operand : StackSlot * Role * ArgType,
                                  bool_decide (operand.1.1 ∈ stackSlots code)))
                               (insts block)
                   | None => true
                   end) (blocks code).

(** [GPLiveness], the engine over the general-purpose temporaries, with
    the roles and the mapper above. *)
Definition GPAdapter : LivenessAdapter Role N :=
  @TmpLivenessAdapter Role N plainTmpMapper GP.

Definition GPLiveness_new := @AbstractLiveness_new Role N Role_ArgRoles GPAdapter.

(** Two blocks with the edge 0 → 1: block 0 defines slot 0 and reads
    slot 1, block 1 reads slot 0 and its terminal reads slot 1 late. *)
Definition straightBlock : BasicBlock Role StackSlot :=
  {| insts := [[(slot 0, EarlyUse, GP)]; [(slot 1, LateUse, GP)]]; predecessors := [0] |}.

Definition straightCode : Code Role StackSlot := {|
  blocks := [ Some {| insts := [[(slot 0, Def, GP); (slot 1, EarlyUse, GP)]; []];
                      predecessors := [] |};
              Some straightBlock ];
  numTmps := λ _, 0%N;
  stackSlots := [slot 0; slot 1]
|}.

(** The engine that the constructor returns for [straightCode]. *)
Definition straightLiveness : AbstractLiveness :=
  {| m_workset := IndexSparseSet.Make 1 [1%N];
     m_liveAtHead := [];
     m_liveAtTail := [{[0%N; 1%N]}; {[1%N]}] |}.

(** A code with one block that has no instruction. *)
Definition emptyBlockCode : Code Role StackSlot :=
  {| blocks := [Some {| insts := []; predecessors := [] |}];
     numTmps := λ _, 0%N;
     stackSlots := [slot 0] |}.

(** One block over temporaries of both banks: it defines the
    general-purpose temporary 0 from the floating-point temporary 1, and
    its terminal reads the general-purpose temporary 2 late. *)
Definition mixedCode : Code Role N := {|
  blocks := [ Some {| insts := [[(0%N, Def, GP); (1%N, EarlyUse, FP)];
                                [(2%N, LateUse, GP); (1%N, LateUse, FP)]];
                      predecessors := [] |} ];
  numTmps := λ _, 3%N;
  stackSlots := []
|}.

(** * The threaded compositor (WebKit2, ThreadedCompositor.cpp)

    The member functions are taken one call at a time; a call is a
    function of the members it reads and writes, together with the list,
    in order, of the calls it makes on other objects. *)

(** ** The compositing run loop *)

(** [CompositingRunLoop::UpdateState]. *)
Inductive UpdateState := Completed | InProgress | PendingAfterCompletion.

Global Instance UpdateState_eq_dec : EqDecision UpdateState.
Proof. solve_decision. Defined.

(** [Atomic<T>::compareExchangeStrong(expected, desired)], on the value
    that the atomic holds: whether the exchange took place, and the
    value held afterwards. *)
Definition compareExchangeStrong {T : Type} `{EqDecision T} (expected desired : T)
    (value : T) : bool * T :=
  if decide (value = expected) then (true, desired) else (false, value).

(** What a member function of the run loop does besides updating
    [m_updateState]: [m_updateTimer.startOneShot(0)],
    [m_updateTimer.stop()], [ASSERT_NOT_REACHED()]. *)
Inductive TimerEffect :=
  | UpdateTimerStarted
  | UpdateTimerStopped
  | AssertNotReached.

Global Instance TimerEffect_eq_dec : EqDecision TimerEffect.
Proof. solve_decision. Defined.

Module CompositingRunLoop.

(** The constructor: [m_updateState.store(UpdateState::Completed)]. *)
Definition new : UpdateState := Completed.

(** The two exchanges of [scheduleUpdate]. *)
Definition scheduleUpdate_first : UpdateState → bool * UpdateState :=
  compareExchangeStrong Completed InProgress.

Definition scheduleUpdate_second : UpdateState → bool * UpdateState :=
  compareExchangeStrong InProgress PendingAfterCompletion.

Definition scheduleUpdate (m_updateState : UpdateState) : UpdateState * list TimerEffect :=
  let (exchanged, m_updateState) := scheduleUpdate_first m_updateState in
  if exchanged then (m_updateState, [UpdateTimerStarted])
  else
    let (exchanged, m_updateState) := scheduleUpdate_second m_updateState in
    (m_updateState, []).

Definition stopUpdates (m_updateState : UpdateState) : UpdateState * list TimerEffect :=
  (Completed, [UpdateTimerStopped]).

Definition updateCompleted (m_updateState : UpdateState) : UpdateState * list TimerEffect :=
  let (exchanged, m_updateState) :=
    compareExchangeStrong InProgress Completed m_updateState in
  if exchanged then (m_updateState, [])
  else
    let (exchanged, m_updateState) :=
      compareExchangeStrong PendingAfterCompletion InProgress m_updateState in
    if exchanged then (m_updateState, [UpdateTimerStarted])
    else (m_updateState, [AssertNotReached]).

(** A call of one of the three member functions. *)
Inductive Call := ScheduleUpdate | StopUpdates | UpdateCompleted.

Global Instance Call_eq_dec : EqDecision Call.
Proof. solve_decision. Defined.

Definition call (c : Call) : UpdateState → UpdateState * list TimerEffect :=
  match c with
  | ScheduleUpdate => scheduleUpdate
  | StopUpdates => stopUpdates
  | UpdateCompleted => updateCompleted
  end.

(** Calls made one after the other, with their effects in order. *)
Fixpoint calls (cs : list Call) (m_updateState : UpdateState)
    : UpdateState * list TimerEffect :=
  match cs with
  | [] => (m_updateState, [])
  | c :: cs =>
      let (m_updateState, effects) := call c m_updateState in
      let (m_updateState, effects') := calls cs m_updateState in
      (m_updateState, effects ++ effects')
  end.

(** [scheduleUpdate] on one thread, with a whole call made by another
    thread on the same run loop between its two exchanges. When the
    first exchange takes place there is no second one, and the call is
    [scheduleUpdate] itself. *)
Definition scheduleUpdate_around (other : UpdateState → UpdateState * list TimerEffect)
    (m_updateState : UpdateState) : UpdateState * list TimerEffect :=
  let (exchanged, m_updateState) := scheduleUpdate_first m_updateState in
  if exchanged then (m_updateState, [UpdateTimerStarted])
  else
    let (m_updateState, effects) := other m_updateState in
    let (exchanged, m_updateState) := scheduleUpdate_second m_updateState in
    (m_updateState, effects).

End CompositingRunLoop.

(** ** Frame completion *)

(** The two atomic flags of a [ThreadedCompositor] and, of its
    [DisplayRefreshMonitor], the two flags of the base class that the
    code reads and the back pointer [m_compositor]: set, or null once
    [invalidate] has run. *)
Record ThreadedCompositor := {
  m_clientRendersNextFrame : bool;
  m_coordinateUpdateCompletionWithClient : bool;
  isScheduled : bool;
  isPreviousFrameDone : bool;
  m_compositor : bool
}.

(** The calls that leave the two objects: [debugThreadedCompositorFPS()],
    [m_displayRefreshTimer.startOneShot(0)],
    [m_compositingRunLoop->updateCompleted()],
    [setMonotonicAnimationStartTime(...)],
    [handleDisplayRefreshedNotificationOnMainThread(this)],
    [scene->commitSceneState(state)] and [m_scene->renderNextFrame()]. *)
Inductive CompositorEffect :=
  | FPSReported
  | DisplayRefreshTimerStarted
  | UpdateCompletedCalled
  | AnimationStartTimeSet
  | DisplayRefreshedNotificationHandled
  | SceneStateCommitted
  | NextFrameRendered.

Global Instance CompositorEffect_eq_dec : EqDecision CompositorEffect.
Proof. solve_decision. Defined.

Section Compositor.

(** [WebCore::DisplayRefreshMonitor::handleDisplayRefreshedNotificationOnMainThread]
    belongs to the base class, which is not part of the sources at hand:
    what it makes of [isScheduled] and [isPreviousFrameDone] is a
    parameter. The two atomic flags are private members of
    [ThreadedCompositor], out of its reach. *)
Variable handleDisplayRefreshedNotificationOnMainThread : bool * bool → bool * bool.

(** The constructors of [ThreadedCompositor] and of its monitor. The
    initial values of the two flags of the base class are parameters. *)
Definition ThreadedCompositor_new (scheduled previousFrameDone : bool) : ThreadedCompositor :=
  {| m_clientRendersNextFrame := false;
     m_coordinateUpdateCompletionWithClient := false;
     isScheduled := scheduled;
     isPreviousFrameDone := previousFrameDone;
     m_compositor := true |}.

(** The update that [updateSceneState] appends to the scene, for a state
    whose [layersToUpdate] have the given [platformLayerChanged] flags. *)
Definition updateSceneState_update (layersToUpdate : list bool) (c : ThreadedCompositor)
    : ThreadedCompositor * list CompositorEffect :=
  let coordinateUpdate := existsb id layersToUpdate in
  ({| m_clientRendersNextFrame := true;
      m_coordinateUpdateCompletionWithClient := coordinateUpdate;
      isScheduled := isScheduled c;
      isPreviousFrameDone := isPreviousFrameDone c;
      m_compositor := m_compositor c |},
   [SceneStateCommitted]).

Definition requestRefreshCallback (c : ThreadedCompositor) : ThreadedCompositor * bool :=
  ({| m_clientRendersNextFrame := m_clientRendersNextFrame c;
      m_coordinateUpdateCompletionWithClient := m_coordinateUpdateCompletionWithClient c;
      isScheduled := true;
      isPreviousFrameDone := isPreviousFrameDone c;
      m_compositor := m_compositor c |}, true).

Definition requiresDisplayRefreshCallback (c : ThreadedCompositor) : bool :=
  isScheduled c && isPreviousFrameDone c.

Definition invalidate (c : ThreadedCompositor) : ThreadedCompositor :=
  {| m_clientRendersNextFrame := m_clientRendersNextFrame c;
     m_coordinateUpdateCompletionWithClient := m_coordinateUpdateCompletionWithClient c;
     isScheduled := isScheduled c;
     isPreviousFrameDone := isPreviousFrameDone c;
     m_compositor := false |}.

Definition displayRefreshCallback (c : ThreadedCompositor)
    : ThreadedCompositor * list CompositorEffect :=
  let shouldHandleDisplayRefreshNotification := isScheduled c && isPreviousFrameDone c in
  let '(scheduled, previousFrameDone, effects) :=
    if shouldHandleDisplayRefreshNotification
    then
      let '(scheduled, previousFrameDone) :=
        handleDisplayRefreshedNotificationOnMainThread (isScheduled c, false) in
      (scheduled, previousFrameDone,
       [AnimationStartTimeSet; DisplayRefreshedNotificationHandled])
    else (isScheduled c, isPreviousFrameDone c, []) in
  if m_compositor c then
    let (rendersNextFrame, clientRendersNextFrame) :=
      compareExchangeStrong true false (m_clientRendersNextFrame c) in
    let (coordinates, coordinateUpdateCompletionWithClient) :=
      compareExchangeStrong true false (m_coordinateUpdateCompletionWithClient c) in
    ({| m_clientRendersNextFrame := clientRendersNextFrame;
        m_coordinateUpdateCompletionWithClient := coordinateUpdateCompletionWithClient;
        isScheduled := scheduled;
        isPreviousFrameDone := previousFrameDone;
        m_compositor := true |},
     effects ++ (if rendersNextFrame then [NextFrameRendered] else [])
             ++ (if coordinates then [UpdateCompletedCalled] else []))
  else
    ({| m_clientRendersNextFrame := m_clientRendersNextFrame c;
        m_coordinateUpdateCompletionWithClient := m_coordinateUpdateCompletionWithClient c;
        isScheduled := scheduled;
        isPreviousFrameDone := previousFrameDone;
        m_compositor := false |},
     effects).

(** [frameComplete]. [reportFPS] is the static of that name: whether
    the environment has WPE_THREADED_COMPOSITOR_FPS. *)
Definition frameComplete (reportFPS : bool) (c : ThreadedCompositor)
    : ThreadedCompositor * list CompositorEffect :=
  let shouldDispatchDisplayRefreshCallback :=
    m_clientRendersNextFrame c || requiresDisplayRefreshCallback c in
  let shouldCoordinateUpdateCompletionWithClient := m_coordinateUpdateCompletionWithClient c in
  (c, (if reportFPS then [FPSReported] else [])
      ++ (if shouldDispatchDisplayRefreshCallback then [DisplayRefreshTimerStarted] else [])
      ++ (if negb shouldCoordinateUpdateCompletionWithClient
          then [UpdateCompletedCalled] else [])).

(** A call on the compositor or on its monitor. *)
Inductive CompositorCall :=
  | SceneUpdate (layersToUpdate : list bool)
  | RequestRefreshCallback
  | Invalidate
  | DisplayRefreshCallback
  | FrameComplete (reportFPS : bool).

Definition compositorCall (call : CompositorCall) (c : ThreadedCompositor)
    : ThreadedCompositor :=
  match call with
  | SceneUpdate layersToUpdate => (updateSceneState_update layersToUpdate c).1
  | RequestRefreshCallback => (requestRefreshCallback c).1
  | Invalidate => invalidate c
  | DisplayRefreshCallback => (displayRefreshCallback c).1
  | FrameComplete reportFPS => (frameComplete reportFPS c).1
  end.

(** The compositor after the given calls, made one after the other on a
    new compositor. *)
Definition compositorAfter (calls : list CompositorCall) (scheduled previousFrameDone : bool)
    : ThreadedCompositor :=
  foldl (λ c call, compositorCall call c)
        (ThreadedCompositor_new scheduled previousFrameDone) calls.

End Compositor.

(** * The work queue (WTF, glib/WorkQueueGLib.cpp) *)

(** A C string is the list of its characters before the terminating
    zero; a pointer into it is the rest of the string from there on. *)

Definition kVisualStudioThreadNameLimit : nat := 31.

(** GLib's [g_strrstr(haystack, needle)] for a needle of one character:
    the pointer to the last occurrence of the needle, or null. *)
Fixpoint g_strrstr (haystack : list ascii) (needle : ascii) : option (list ascii) :=
  match haystack with
  | [] => None
  | c :: rest =>
      match g_strrstr rest needle with
      | Some found => Some found
      | None => if decide (c = needle) then Some haystack else None
      end
  end.

(** The name that [WorkQueue::platformInitialize] passes to
    [createThread]. *)
Definition platformInitialize_threadName (name : list ascii) : list ascii :=
  let threadName :=
    match g_strrstr name "."%char with
    | Some found => drop 1 found
    | None => name
    end in
  if decide (kVisualStudioThreadNameLimit < length threadName)
  then drop (length threadName - kVisualStudioThreadNameLimit) threadName
  else threadName.

(** The name of a queue that the comment of [platformInitialize] gives. *)
Definition processLauncherName : list ascii :=
  ["c"; "o"; "m"; "."; "a"; "p"; "p"; "l"; "e"; "."; "W"; "e"; "b"; "K"; "i"; "t"; ".";
   "P"; "r"; "o"; "c"; "e"; "s"; "s"; "L"; "a"; "u"; "n"; "c"; "h"; "e"; "r"]%char.

(** * Properties *)

(** [set_solver] on the goal alone. *)
Ltac set_goal := repeat match goal with H : _ |- _ => clear H end; set_solver.

(** ** The workset *)

Module IndexSparseSetFacts.
Import IndexSparseSet.

Lemma values_add value s :
  values (add value s).2 = if decide (value ∈ values s) then values s else values s ++ [value].
Proof.
  unfold add, contains. destruct (decide (value ∈ values s)) as [Hin|Hin].
  - by rewrite bool_decide_eq_true_2.
  - by rewrite bool_decide_eq_false_2.
Qed.

Lemma values_remove value s :
  values (remove value s).2 = filter (λ v, v ≠ value) (values s).
Proof.
  unfold remove, contains. case_bool_decide as Hin; [done|]. simpl.
  symmetry. induction (values s) as [|v l IH]; [done|].
  rewrite filter_cons. rewrite not_elem_of_cons in Hin. destruct Hin as [Hne Hin].
  rewrite decide_True by done. f_equal. by apply IH.
Qed.

Lemma maxValue_add value s : maxValue (add value s).2 = maxValue s.
Proof. unfold add. by destruct (contains value s). Qed.

Lemma maxValue_remove value s : maxValue (remove value s).2 = maxValue s.
Proof. unfold remove. by destruct (contains value s). Qed.

Lemma elem_of_add x value s : x ∈ values (add value s).2 ↔ x = value ∨ x ∈ values s.
Proof.
  rewrite values_add. case_decide as Hin.
  - split; [tauto|]. by intros [->|?].
  - rewrite elem_of_app, list_elem_of_singleton. tauto.
Qed.

Lemma elem_of_remove x value s : x ∈ values (remove value s).2 ↔ x ∈ values s ∧ x ≠ value.
Proof. rewrite values_remove, list_elem_of_filter. tauto. Qed.

Lemma NoDup_add value s : NoDup (values s) → NoDup (values (add value s).2).
Proof.
  intros Hnd. rewrite values_add. case_decide; [done|].
  apply NoDup_app. split_and!; [done| |apply NoDup_singleton].
  intros x Hx ->%list_elem_of_singleton. done.
Qed.

Lemma NoDup_remove value s : NoDup (values s) → NoDup (values (remove value s).2).
Proof. intros Hnd. rewrite values_remove. by apply NoDup_filter. Qed.

End IndexSparseSetFacts.

(** ** The local scan *)

Section LocalScan.
Context {Role Thing : Type} `{!ArgRoles Role} `{!LivenessAdapter Role Thing}.
Import IndexSparseSet IndexSparseSetFacts.

Implicit Types (inst : Inst Role Thing) (workset : IndexSparseSet.t)
  (block : BasicBlock Role Thing) (liveness : AbstractLiveness).

Lemma indicesOf_cons isRole thing role type inst :
  indicesOf isRole ((thing, role, type) :: inst) =
    if isRole role && acceptsType type
    then valueToIndex thing :: indicesOf isRole inst
    else indicesOf isRole inst.
Proof.
  unfold indicesOf. simpl. by destruct (isRole role && acceptsType type).
Qed.

(** *** The three visits of [execute] *)

Lemma forEach_removeDef_elem inst workset x :
  x ∈ values (forEach removeDef inst workset) ↔
    x ∈ values workset ∧ x ∉ indicesOf isDef inst.
Proof.
  revert workset. induction inst as [|[[thing role] type] inst IH]; intros workset.
  - simpl. unfold indicesOf. simpl. rewrite elem_of_nil. tauto.
  - unfold forEach in *. cbn [foldl]. rewrite IH, indicesOf_cons. unfold removeDef.
    destruct (isDef role && acceptsType type).
    + rewrite elem_of_remove, not_elem_of_cons. tauto.
    + tauto.
Qed.

Lemma forEach_addUse_elem isUse inst workset x :
  x ∈ values (forEach (addUse isUse) inst workset) ↔
    x ∈ values workset ∨ x ∈ indicesOf isUse inst.
Proof.
  revert workset. induction inst as [|[[thing role] type] inst IH]; intros workset.
  - simpl. unfold indicesOf. simpl. rewrite elem_of_nil. tauto.
  - unfold forEach in *. cbn [foldl]. rewrite IH, indicesOf_cons. unfold addUse.
    destruct (isUse role && acceptsType type).
    + rewrite elem_of_add, elem_of_cons. tauto.
    + tauto.
Qed.

Lemma forEach_removeDef_NoDup inst workset :
  NoDup (values workset) → NoDup (values (forEach removeDef inst workset)).
Proof.
  revert workset. induction inst as [|[[thing role] type] inst IH]; intros workset Hnd;
    [done|].
  unfold forEach in *. simpl. apply IH. unfold removeDef.
  destruct (isDef role && acceptsType type); [by apply NoDup_remove|done].
Qed.

Lemma forEach_addUse_NoDup isUse inst workset :
  NoDup (values workset) → NoDup (values (forEach (addUse isUse) inst workset)).
Proof.
  revert workset. induction inst as [|[[thing role] type] inst IH]; intros workset Hnd;
    [done|].
  unfold forEach in *. simpl. apply IH. unfold addUse.
  destruct (isUse role && acceptsType type); [by apply NoDup_add|done].
Qed.

Lemma forEach_removeDef_maxValue inst workset :
  maxValue (forEach removeDef inst workset) = maxValue workset.
Proof.
  revert workset. induction inst as [|[[thing role] type] inst IH]; intros workset;
    [done|].
  unfold forEach in *. simpl. rewrite IH. unfold removeDef.
  destruct (isDef role && acceptsType type); [apply maxValue_remove|done].
Qed.

Lemma forEach_addUse_maxValue isUse inst workset :
  maxValue (forEach (addUse isUse) inst workset) = maxValue workset.
Proof.
  revert workset. induction inst as [|[[thing role] type] inst IH]; intros workset;
    [done|].
  unfold forEach in *. simpl. rewrite IH. unfold addUse.
  destruct (isUse role && acceptsType type); [apply maxValue_add|done].
Qed.

(** *** [execute] *)

Lemma executeOn_is_Some block instIndex workset :
  instIndex < length (insts block) → is_Some (executeOn block instIndex workset).
Proof.
  intros Hlt. unfold executeOn.
  destruct (lookup_lt_is_Some_2 (insts block) instIndex Hlt) as [inst ->]. simpl.
  case_bool_decide; [|done].
  destruct (lookup_lt_is_Some_2 (insts block) (instIndex - 1)) as [prev ->]; [lia|done].
Qed.

Lemma executeOn_elem block instIndex inst workset workset' x :
  insts block !! instIndex = Some inst →
  executeOn block instIndex workset = Some workset' →
  x ∈ values workset' ↔
    (x ∈ values workset ∧ x ∉ indicesOf isDef inst)
    ∨ x ∈ indicesOf isEarlyUse inst
    ∨ x ∈ lateUsesBefore block instIndex.
Proof.
  intros Hinst. unfold executeOn. rewrite Hinst. simpl.
  case_bool_decide as Hi.
  - destruct instIndex as [|prev]; [done|]. simpl.
    replace (prev - 0) with prev by lia.
    destruct (insts block !! prev) as [prevInst|]; [|done]. simpl.
    intros [= <-].
    rewrite forEach_addUse_elem, forEach_addUse_elem, forEach_removeDef_elem. tauto.
  - intros [= <-]. assert (instIndex = 0) as -> by (destruct instIndex; [done|lia]).
    simpl. rewrite forEach_addUse_elem, forEach_removeDef_elem, elem_of_nil. tauto.
Qed.

Lemma executeOn_NoDup block instIndex workset workset' :
  executeOn block instIndex workset = Some workset' →
  NoDup (values workset) → NoDup (values workset').
Proof.
  unfold executeOn. destruct (insts block !! instIndex) as [inst|]; [|done]. simpl.
  case_bool_decide.
  - destruct (insts block !! (instIndex - 1)) as [prev|]; [|done]. simpl.
    intros [= <-] Hnd.
    by apply forEach_addUse_NoDup, forEach_addUse_NoDup, forEach_removeDef_NoDup.
  - intros [= <-] Hnd. by apply forEach_addUse_NoDup, forEach_removeDef_NoDup.
Qed.

Lemma executeOn_maxValue block instIndex workset workset' :
  executeOn block instIndex workset = Some workset' →
  maxValue workset' = maxValue workset.
Proof.
  unfold executeOn. destruct (insts block !! instIndex) as [inst|]; [|done]. simpl.
  case_bool_decide.
  - destruct (insts block !! (instIndex - 1)) as [prev|]; [|done]. simpl.
    intros [= <-].
    by rewrite !forEach_addUse_maxValue, forEach_removeDef_maxValue.
  - intros [= <-]. by rewrite forEach_addUse_maxValue, forEach_removeDef_maxValue.
Qed.

End LocalScan.

Section ScanFacts.
Context {Role Thing : Type} `{!ArgRoles Role} `{!LivenessAdapter Role Thing}.
Import IndexSparseSet IndexSparseSetFacts.

Implicit Types (workset : IndexSparseSet.t) (block : BasicBlock Role Thing)
  (liveness : AbstractLiveness) (code : Code Role Thing).

(** *** The contents of the workset do not depend on [maxValue] *)

Lemma removeDef_values thing role type workset1 workset2 :
  values workset1 = values workset2 →
  values (removeDef thing role type workset1) = values (removeDef thing role type workset2).
Proof.
  intros Heq. unfold removeDef. destruct (isDef role && acceptsType type); [|done].
  by rewrite !values_remove, Heq.
Qed.

Lemma addUse_values isUse thing role type workset1 workset2 :
  values workset1 = values workset2 →
  values (addUse isUse thing role type workset1) =
    values (addUse isUse thing role type workset2).
Proof.
  intros Heq. unfold addUse. destruct (isUse role && acceptsType type); [|done].
  by rewrite !values_add, Heq.
Qed.

Lemma forEach_values_eq (f : Thing → Role → ArgType → t → t) (inst : Inst Role Thing)
    workset1 workset2 :
  (∀ thing role type w1 w2,
      values w1 = values w2 → values (f thing role type w1) = values (f thing role type w2)) →
  values workset1 = values workset2 →
  values (forEach f inst workset1) = values (forEach f inst workset2).
Proof.
  intros Hf. revert workset1 workset2.
  induction inst as [|[[thing role] type] inst IH]; intros w1 w2 Heq; [done|].
  unfold forEach in *. cbn [foldl]. by apply IH, Hf.
Qed.

Lemma executeOn_values block instIndex workset1 workset2 :
  values workset1 = values workset2 →
  values <$> executeOn block instIndex workset1 =
    values <$> executeOn block instIndex workset2.
Proof.
  intros Heq. unfold executeOn.
  destruct (insts block !! instIndex) as [inst|]; [|done]. simpl.
  assert (values (forEach (addUse isEarlyUse) inst (forEach removeDef inst workset1)) =
          values (forEach (addUse isEarlyUse) inst (forEach removeDef inst workset2)))
    as Hmid.
  { apply forEach_values_eq; [apply addUse_values|].
    apply forEach_values_eq; [apply removeDef_values|done]. }
  case_bool_decide; [|by simpl; rewrite Hmid].
  destruct (insts block !! (instIndex - 1)) as [prev|]; [|done]. simpl. f_equal.
  apply forEach_values_eq; [apply addUse_values|done].
Qed.

Lemma countDown_executeOn_values block n workset1 workset2 :
  values workset1 = values workset2 →
  values <$> countDown (executeOn block) n workset1 =
    values <$> countDown (executeOn block) n workset2.
Proof.
  revert workset1 workset2. induction n as [|n IH]; intros w1 w2 Heq.
  - simpl. by rewrite Heq.
  - simpl. pose proof (executeOn_values block n w1 w2 Heq) as Hstep.
    destruct (executeOn block n w1) as [w1'|], (executeOn block n w2) as [w2'|];
      simplify_eq/=; [|done].
    by apply IH.
Qed.

(** *** Filling the workset from a tail set *)

Lemma foldl_add_fresh (l : list N) workset :
  NoDup l → (∀ x, x ∈ l → x ∉ values workset) →
  values (foldl (λ w index, (add index w).2) workset l) = values workset ++ l.
Proof.
  revert workset. induction l as [|x l IH]; intros workset Hnd Hfresh.
  - simpl. by rewrite app_nil_r.
  - apply NoDup_cons in Hnd as [Hx Hnd]. simpl. rewrite IH; [|done|].
    + rewrite values_add, decide_False by (apply Hfresh; left).
      by rewrite <- app_assoc.
    + intros y Hy. rewrite elem_of_add. intros [->|Hin]; [done|].
      by apply (Hfresh y); [right|].
Qed.

Lemma values_fill workset (liveAtTail : gset N) :
  values (fill workset liveAtTail) = elements liveAtTail.
Proof.
  unfold fill. rewrite foldl_add_fresh; [done|apply NoDup_elements|].
  intros x _. simpl. apply not_elem_of_nil.
Qed.

Lemma foldl_add_maxValue (l : list N) workset :
  maxValue (foldl (λ w index, (add index w).2) workset l) = maxValue workset.
Proof.
  revert workset. induction l as [|x l IH]; intros workset; [done|].
  simpl. by rewrite IH, maxValue_add.
Qed.

Lemma maxValue_fill workset (liveAtTail : gset N) :
  maxValue (fill workset liveAtTail) = maxValue workset.
Proof. unfold fill. by rewrite foldl_add_maxValue. Qed.

(** *** The countdown of [execute] *)

Lemma countDown_executeOn_is_Some block n workset :
  n ≤ length (insts block) → is_Some (countDown (executeOn block) n workset).
Proof.
  revert workset. induction n as [|n IH]; intros workset Hn; [by eexists|].
  simpl. destruct (executeOn_is_Some block n workset) as [w' ->]; [lia|].
  simpl. apply IH. lia.
Qed.

Lemma countDown_executeOn_NoDup block n workset workset' :
  countDown (executeOn block) n workset = Some workset' →
  NoDup (values workset) → NoDup (values workset').
Proof.
  revert workset. induction n as [|n IH]; intros workset; simpl.
  - by intros [= <-].
  - destruct (executeOn block n workset) as [w1|] eqn:E; [|done]. simpl.
    intros Hrest Hnd. eapply IH; [done|]. by eapply executeOn_NoDup.
Qed.

Lemma countDown_executeOn_maxValue block n workset workset' :
  countDown (executeOn block) n workset = Some workset' →
  maxValue workset' = maxValue workset.
Proof.
  revert workset. induction n as [|n IH]; intros workset; simpl.
  - by intros [= <-].
  - destruct (executeOn block n workset) as [w1|] eqn:E; [|done]. simpl.
    intros Hrest. rewrite (IH _ Hrest). by eapply executeOn_maxValue.
Qed.

Lemma execute_eq block instIndex liveness :
  execute block instIndex liveness =
    withWorkset liveness <$> executeOn block instIndex (m_workset liveness).
Proof. unfold execute. by destruct (executeOn block instIndex (m_workset liveness)). Qed.

Lemma countDown_execute block n liveness :
  countDown (execute block) n liveness =
    withWorkset liveness <$> countDown (executeOn block) n (m_workset liveness).
Proof.
  revert liveness. induction n as [|n IH]; intros liveness.
  - simpl. by destruct liveness.
  - cbn [countDown]. rewrite execute_eq.
    destruct (executeOn block n (m_workset liveness)) as [w1|]; [|done]. simpl.
    by rewrite IH.
Qed.

(** *** The scan of a block *)

Lemma scanOn_liveBeforeFirst block workset (T : gset N) :
  ∃ workset', scanOn block (fill workset T) = Some workset'
    ∧ values workset' = liveBeforeFirst block T
    ∧ maxValue workset' = maxValue workset.
Proof.
  unfold liveBeforeFirst, scanOn.
  destruct (countDown_executeOn_is_Some block (length (insts block)) (fill workset T))
    as [w' Hw']; [done|].
  exists w'. split_and!; [done| |].
  - pose proof (countDown_executeOn_values block (length (insts block))
                  (fill workset T) (fill (new 0) T)) as Heq.
    rewrite Hw' in Heq. rewrite <- Heq by (by rewrite !values_fill). done.
  - rewrite (countDown_executeOn_maxValue _ _ _ _ Hw'). apply maxValue_fill.
Qed.

Lemma localScan_spec code blockIndex block liveness (T : gset N) :
  blocks code !! blockIndex = Some (Some block) →
  m_liveAtTail liveness !! blockIndex = Some T →
  ∃ workset', localScan code blockIndex liveness = Some (withWorkset liveness workset')
    ∧ values workset' = liveBeforeFirst block T
    ∧ maxValue workset' = maxValue (m_workset liveness).
Proof.
  intros Hblock HT. unfold localScan, LocalCalc_new. rewrite Hblock, HT. simpl.
  rewrite countDown_execute. simpl.
  destruct (scanOn_liveBeforeFirst block (m_workset liveness) T) as (w' & Hw' & Hv & Hm).
  unfold scanOn in Hw'. rewrite Hw'. simpl. by exists w'.
Qed.

Lemma liveAtHeadOf_spec code blockIndex block liveness (T : gset N) :
  blocks code !! blockIndex = Some (Some block) →
  m_liveAtTail liveness !! blockIndex = Some T →
  liveAtHeadOf code blockIndex liveness = Some (liveBeforeFirst block T).
Proof.
  intros Hblock HT. unfold liveAtHeadOf.
  destruct (localScan_spec code blockIndex block liveness T Hblock HT)
    as (w' & -> & Hv & _).
  simpl. by rewrite Hv.
Qed.

Lemma NoDup_liveBeforeFirst block (T : gset N) : NoDup (liveBeforeFirst block T).
Proof.
  destruct (scanOn_liveBeforeFirst block (new 0) T) as (w' & Hw' & <- & _).
  eapply countDown_executeOn_NoDup; [done|].
  rewrite values_fill. apply NoDup_elements.
Qed.

End ScanFacts.

(** ** What a local scan computes *)

Section LocalScanProperties.
Context {Role Thing : Type} `{!ArgRoles Role} `{!LivenessAdapter Role Thing}.
Import IndexSparseSet IndexSparseSetFacts.

Implicit Types (workset : IndexSparseSet.t) (block : BasicBlock Role Thing)
  (liveness : AbstractLiveness) (code : Code Role Thing).

(** C2. [execute(i)] on a workset that holds the live set after
    instruction [i]: an index is in the workset afterwards exactly when
    it was there and is no accepted Def of [i], or is an accepted
    EarlyUse of [i], or [i > 0] and it is an accepted LateUse of
    instruction [i - 1]. So the removals come first, the early uses of
    [i] second and the late uses of [i - 1] last. Consequently the late
    uses of [i] enter at [execute(i + 1)], before the definitions of [i]
    are looked at: an index that [i] both defines and uses late is live
    at the boundary before [i + 1]. *)
Theorem execute_step_semantics block instIndex inst liveness :
  insts block !! instIndex = Some inst →
  ∃ liveness', execute block instIndex liveness = Some liveness'
    ∧ (∀ x, x ∈ values (m_workset liveness') ↔
            (x ∈ values (m_workset liveness) ∧ x ∉ indicesOf isDef inst)
          ∨ x ∈ indicesOf isEarlyUse inst
          ∨ (0 < instIndex ∧ ∃ prev, insts block !! (instIndex - 1) = Some prev
                                    ∧ x ∈ indicesOf isLateUse prev))
    ∧ (∀ after, instIndex + 1 < length (insts block) →
          ∃ after', execute block (instIndex + 1) after = Some after'
            ∧ ∀ x, x ∈ indicesOf isDef inst → x ∈ indicesOf isLateUse inst →
                   x ∈ values (m_workset after')).
Proof.
  intros Hinst.
  assert (instIndex < length (insts block)) as Hlt by (by eapply lookup_lt_Some).
  destruct (executeOn_is_Some block instIndex (m_workset liveness) Hlt) as [w' Hw'].
  exists (withWorkset liveness w'). split_and!.
  - by rewrite execute_eq, Hw'.
  - intros x. simpl. rewrite (executeOn_elem _ _ _ _ _ _ Hinst Hw').
    destruct instIndex as [|prev]; simpl.
    + rewrite elem_of_nil. split; [tauto|]. intros [?|[?|[? _]]]; [tauto|tauto|lia].
    + replace (prev - 0) with prev by lia.
      destruct (insts block !! prev) as [prevInst|] eqn:Hprev; simpl.
      * split.
        -- intros [?|[?|?]]; [tauto|tauto|]. right; right. split; [lia|by exists prevInst].
        -- intros [?|[?|[_ (p & [= <-] & ?)]]]; tauto.
      * rewrite elem_of_nil. split; [tauto|].
        intros [?|[?|[_ (p & [=] & _)]]]; tauto.
  - intros after Hnext.
    destruct (executeOn_is_Some block (instIndex + 1) (m_workset after) Hnext)
      as [w'' Hw''].
    exists (withWorkset after w''). split; [by rewrite execute_eq, Hw''|].
    intros x _ Hlate. simpl.
    destruct (lookup_lt_is_Some_2 (insts block) (instIndex + 1) Hnext) as [next Hn].
    rewrite (executeOn_elem _ _ _ _ _ _ Hn Hw''). right; right.
    replace (instIndex + 1) with (S instIndex) by lia. simpl. by rewrite Hinst.
Qed.

Lemma scanOn_insts block1 block2 workset :
  insts block1 = insts block2 → scanOn block1 workset = scanOn block2 workset.
Proof.
  intros Heq. unfold scanOn. rewrite Heq.
  generalize (length (insts block2)). intros n. revert workset.
  induction n as [|n IH]; intros workset; [done|].
  simpl. assert (executeOn block1 n workset = executeOn block2 n workset) as ->.
  { unfold executeOn. by rewrite Heq. }
  destruct (executeOn block2 n workset); [apply IH|done].
Qed.

(** C6. The live-before-first-instruction list of a local scan is a
    function of [liveAtTail[block]] and of the instructions of the
    block: two engines that agree on the tail set, over two codes that
    agree on the instructions, get the same list. A second scan, started
    from the engine that the first one left, computes the same list
    again and leaves the engine as it found it. *)
Theorem localScan_idempotent code1 code2 blockIndex block1 block2
    liveness1 liveness2 (T : gset N) :
  blocks code1 !! blockIndex = Some (Some block1) →
  blocks code2 !! blockIndex = Some (Some block2) →
  insts block1 = insts block2 →
  m_liveAtTail liveness1 !! blockIndex = Some T →
  m_liveAtTail liveness2 !! blockIndex = Some T →
  ∃ live scanned,
    liveAtHeadOf code1 blockIndex liveness1 = Some live
    ∧ liveAtHeadOf code2 blockIndex liveness2 = Some live
    ∧ localScan code1 blockIndex liveness1 = Some scanned
    ∧ liveAtHeadOf code1 blockIndex scanned = Some live
    ∧ localScan code1 blockIndex scanned = Some scanned.
Proof.
  intros Hb1 Hb2 Hinsts HT1 HT2.
  destruct (localScan_spec code1 blockIndex block1 liveness1 T Hb1 HT1)
    as (w1 & Hscan & Hv1 & Hm1).
  exists (liveBeforeFirst block1 T), (withWorkset liveness1 w1).
  assert (m_liveAtTail (withWorkset liveness1 w1) !! blockIndex = Some T) as HT' by done.
  split_and!.
  - by apply liveAtHeadOf_spec.
  - assert (liveBeforeFirst block1 T = liveBeforeFirst block2 T) as ->.
    { unfold liveBeforeFirst. by rewrite (scanOn_insts block1 block2). }
    by apply liveAtHeadOf_spec.
  - done.
  - by apply liveAtHeadOf_spec.
  - destruct (localScan_spec code1 blockIndex block1 (withWorkset liveness1 w1) T Hb1 HT')
      as (w2 & -> & Hv2 & Hm2).
    f_equal. simpl in Hm2. destruct w1 as [m1 v1], w2 as [m2 v2]. simpl in *.
    unfold withWorkset. simpl. by rewrite Hv1, Hv2, Hm2.
Qed.

(** C8. No operation that the class offers after construction writes
    to a tail set: the constructor of [LocalCalc], [execute] and a whole
    local scan leave [m_liveAtTail] as it is, whatever the block and the
    instruction index. ([live] only reads the workset.) *)
Theorem liveAtTail_stable liveness liveness' :
  (∀ blockIndex, LocalCalc_new liveness blockIndex = Some liveness' →
      m_liveAtTail liveness' = m_liveAtTail liveness)
  ∧ (∀ block instIndex, execute block instIndex liveness = Some liveness' →
      m_liveAtTail liveness' = m_liveAtTail liveness)
  ∧ (∀ code blockIndex, localScan code blockIndex liveness = Some liveness' →
      m_liveAtTail liveness' = m_liveAtTail liveness).
Proof.
  split_and!.
  - intros b. unfold LocalCalc_new.
    destruct (m_liveAtTail liveness !! b); [|done]. by intros [= <-].
  - intros block i. rewrite execute_eq.
    destruct (executeOn block i (m_workset liveness)); [|done]. by intros [= <-].
  - intros code b. unfold localScan.
    destruct (blocks code !! b) as [[block|]|]; [|done..]. simpl.
    unfold LocalCalc_new. destruct (m_liveAtTail liveness !! b); [|done]. simpl.
    rewrite countDown_execute.
    destruct (countDown _ _ _); [|done]. by intros [= <-].
Qed.

End LocalScanProperties.

(** ** The state on entry to the loop *)

Section Seeding.
Context {Role Thing : Type} `{!ArgRoles Role} `{!LivenessAdapter Role Thing}.

Implicit Types (block : BasicBlock Role Thing) (code : Code Role Thing)
  (liveAtTails : list (gset N)).

Lemma forallb_lookup {A : Type} (f : A → bool) (l : list A) i x :
  forallb f l = true → l !! i = Some x → f x = true.
Proof.
  intros Hall Hx. rewrite forallb_forall in Hall. apply Hall.
  apply list_elem_of_In. by eapply list_elem_of_lookup_2.
Qed.

Lemma blocksTerminated_lookup code blockIndex block :
  blocksTerminated code = true → blocks code !! blockIndex = Some (Some block) →
  ∃ terminal, last (insts block) = Some terminal.
Proof.
  intros Hall Hb. pose proof (forallb_lookup _ _ _ _ Hall Hb) as Hne. simpl in Hne.
  apply bool_decide_eq_true in Hne.
  destruct (last (insts block)) as [terminal|] eqn:Hlast; [by eexists|].
  by apply last_None in Hlast.
Qed.

Lemma forEach_addLateUse (inst : Inst Role Thing) (T : gset N) :
  forEach addLateUse inst T = T ∪ list_to_set (indicesOf isLateUse inst).
Proof.
  revert T. induction inst as [|[[thing role] type] inst IH]; intros T.
  - unfold forEach, indicesOf. simpl. set_solver.
  - unfold forEach in *. cbn [foldl]. rewrite IH, indicesOf_cons. unfold addLateUse.
    destruct (isLateUse role && acceptsType type); simpl; set_solver.
Qed.

Lemma seedBlock_length code blockIndex liveAtTails liveAtTails' :
  seedBlock code blockIndex liveAtTails = Some liveAtTails' →
  length liveAtTails' = length liveAtTails.
Proof.
  unfold seedBlock. destruct (blocks code !! blockIndex) as [[block|]|];
    [|by intros [= <-]..].
  destruct (liveAtTails !! blockIndex); [|done]. simpl.
  destruct (last (insts block)); [|done]. simpl.
  intros [= <-]. apply length_insert.
Qed.

Lemma seedFrom_length code blockIndex count liveAtTails liveAtTails' :
  seedFrom code blockIndex count liveAtTails = Some liveAtTails' →
  length liveAtTails' = length liveAtTails.
Proof.
  revert blockIndex liveAtTails. induction count as [|count IH];
    intros blockIndex liveAtTails; simpl; [by intros [= <-]|].
  destruct (seedBlock code blockIndex liveAtTails) as [tails1|] eqn:Hstep; [|done].
  simpl. intros Hrest. rewrite (IH _ _ Hrest). by eapply seedBlock_length.
Qed.

Lemma seedFrom_outside code blockIndex count liveAtTails liveAtTails' j :
  seedFrom code blockIndex count liveAtTails = Some liveAtTails' →
  ¬ (blockIndex ≤ j < blockIndex + count) ∨ (∀ block, blocks code !! j ≠ Some (Some block)) →
  liveAtTails' !! j = liveAtTails !! j.
Proof.
  revert blockIndex liveAtTails. induction count as [|count IH];
    intros blockIndex liveAtTails; simpl; [by intros [= <-]|].
  destruct (seedBlock code blockIndex liveAtTails) as [tails1|] eqn:Hstep; [|done].
  simpl. intros Hrest Hj. rewrite (IH _ _ Hrest) by (destruct Hj; [left; lia|by right]).
  unfold seedBlock in Hstep.
  destruct (blocks code !! blockIndex) as [[block|]|] eqn:Hb; [|by simplify_eq..].
  destruct (liveAtTails !! blockIndex); [|done]. simpl in Hstep.
  destruct (last (insts block)); [|done]. simpl in Hstep. simplify_eq.
  apply list_lookup_insert_ne. intros <-. destruct Hj as [Hj|Hj]; [lia|]. by eapply Hj.
Qed.

Lemma seedFrom_inside code blockIndex count liveAtTails liveAtTails' j block T :
  seedFrom code blockIndex count liveAtTails = Some liveAtTails' →
  blockIndex ≤ j < blockIndex + count →
  blocks code !! j = Some (Some block) →
  liveAtTails !! j = Some T →
  ∃ terminal, last (insts block) = Some terminal
    ∧ liveAtTails' !! j = Some (T ∪ list_to_set (indicesOf isLateUse terminal)).
Proof.
  revert blockIndex liveAtTails. induction count as [|count IH];
    intros blockIndex liveAtTails; simpl; [lia|].
  destruct (seedBlock code blockIndex liveAtTails) as [tails1|] eqn:Hstep; [|done].
  simpl. intros Hrest Hj Hb HT.
  destruct (decide (j = blockIndex)) as [->|Hne].
  - rewrite (seedFrom_outside _ _ _ _ _ blockIndex Hrest) by (left; lia).
    unfold seedBlock in Hstep. rewrite Hb, HT in Hstep. simpl in Hstep.
    destruct (last (insts block)) as [terminal|]; [|done]. simpl in Hstep. simplify_eq.
    exists terminal. split; [done|].
    rewrite list_lookup_insert_eq by (by eapply lookup_lt_Some).
    by rewrite forEach_addLateUse.
  - apply (IH _ _ Hrest); [lia|done|].
    unfold seedBlock in Hstep.
    destruct (blocks code !! blockIndex) as [[block'|]|]; [|by simplify_eq..].
    destruct (liveAtTails !! blockIndex); [|done]. simpl in Hstep.
    destruct (last (insts block')); [|done]. simpl in Hstep. simplify_eq.
    by rewrite list_lookup_insert_ne.
Qed.

Lemma seedFrom_is_Some code blockIndex count liveAtTails :
  blocksTerminated code = true →
  blockIndex + count ≤ length liveAtTails →
  is_Some (seedFrom code blockIndex count liveAtTails).
Proof.
  intros Hterm. revert blockIndex liveAtTails. induction count as [|count IH];
    intros blockIndex liveAtTails Hlen; simpl; [by eexists|].
  assert (is_Some (seedBlock code blockIndex liveAtTails)) as [tails1 Hstep].
  { unfold seedBlock. destruct (blocks code !! blockIndex) as [[block|]|] eqn:Hb;
      [|by eexists..].
    destruct (lookup_lt_is_Some_2 liveAtTails blockIndex) as [T ->]; [lia|]. simpl.
    destruct (blocksTerminated_lookup _ _ _ Hterm Hb) as [terminal ->]. by eexists. }
  rewrite Hstep. simpl. apply IH. rewrite (seedBlock_length _ _ _ _ Hstep). lia.
Qed.

Lemma elem_of_foldl_set (l : list nat) (v : BitVector.t) bit :
  bit ∈ foldl (λ dirty blockIndex, BitVector.set blockIndex dirty) v l ↔ bit ∈ l ∨ bit ∈ v.
Proof.
  revert v. induction l as [|x l IH]; intros v; simpl.
  - rewrite elem_of_nil. tauto.
  - rewrite IH, elem_of_cons. unfold BitVector.set. set_solver.
Qed.

Lemma elem_of_allDirty code bit : bit ∈ allDirty code ↔ bit < length (blocks code).
Proof.
  unfold allDirty. rewrite elem_of_foldl_set, elem_of_seq. unfold BitVector.empty.
  set_solver by lia.
Qed.

Lemma initialState_is_Some code :
  blocksTerminated code = true → is_Some (initialState code).
Proof.
  intros Hterm. unfold initialState.
  destruct (seedFrom_is_Some code 0 (length (blocks code))
              (m_liveAtTail (initialLiveness code)) Hterm) as [tails ->].
  { simpl. by rewrite length_replicate. }
  by eexists.
Qed.

(** C5. On a code whose blocks all have a terminal, the state on entry
    to the fixed-point loop exists, and in it the tail set of every
    block is exactly the set of the indices of the accepted LateUse
    operands of the terminal of the block, and the dirty bit of every
    block index is set. *)
Theorem initial_state_seeded code :
  blocksTerminated code = true →
  ∃ s, initialState code = Some s
    ∧ (∀ blockIndex block, blocks code !! blockIndex = Some (Some block) →
         ∃ terminal, last (insts block) = Some terminal
           ∧ liveAtTail (engine s) blockIndex
               = Some (list_to_set (indicesOf isLateUse terminal)))
    ∧ (∀ blockIndex, blockIndex < length (blocks code) →
         BitVector.get blockIndex (dirtyBlocks s) = true).
Proof.
  intros Hterm. unfold initialState.
  destruct (seedFrom_is_Some code 0 (length (blocks code))
              (m_liveAtTail (initialLiveness code)) Hterm) as [tails Htails].
  { simpl. by rewrite length_replicate. }
  rewrite Htails. simpl. eexists. split; [done|]. simpl. split.
  - intros b block Hb. unfold liveAtTail. simpl.
    assert (b < length (blocks code)) as Hlt by (by eapply lookup_lt_Some).
    destruct (seedFrom_inside _ _ _ _ _ b block ∅ Htails) as (terminal & Hlast & ->);
      [lia|done| |].
    { simpl. by apply lookup_replicate_2. }
    exists terminal. split; [done|]. f_equal. set_solver.
  - intros b Hlt. unfold BitVector.get. apply bool_decide_eq_true.
    by apply elem_of_allDirty.
Qed.

End Seeding.

(** ** One step of the fixed-point loop *)

Section Propagation.
Context {Role Thing : Type} `{!ArgRoles Role} `{!LivenessAdapter Role Thing}.
Variable quickSetResult : bool → bool.

Implicit Types (block : BasicBlock Role Thing) (code : Code Role Thing)
  (s : LoopState) (T : gset N) (dirty : BitVector.t) (newValues : list N).

Lemma totalLive_insert (liveAtTails : list (gset N)) p T T' :
  liveAtTails !! p = Some T →
  totalLive (<[p := T']> liveAtTails) + size T = totalLive liveAtTails + size T'.
Proof.
  unfold totalLive. revert p. induction liveAtTails as [|T0 l IH]; intros p; [done|].
  destruct p as [|p]; csimpl.
  - intros [= ->]. lia.
  - intros Hp. specialize (IH p Hp). lia.
Qed.

Lemma totalLive_bound (liveAtTails : list (gset N)) bound :
  (∀ b T, liveAtTails !! b = Some T → size T ≤ bound) →
  totalLive liveAtTails ≤ length liveAtTails * bound.
Proof.
  unfold totalLive. induction liveAtTails as [|T0 l IH]; intros Hall; [done|].
  csimpl. pose proof (Hall 0 T0 eq_refl).
  assert (sum_list (size <$> l) ≤ length l * bound); [|lia].
  apply IH. intros b T Hb. by apply (Hall (S b)).
Qed.

Lemma elem_of_marked (C : Prop) `{!Decision C} (p q : nat) dirty :
  p ∈ (if decide C then dirty else {[q]} ∪ dirty) ↔ p ∈ dirty ∨ (p = q ∧ ¬ C).
Proof. case_decide; set_solver. Qed.

(** *** The innermost loop *)

Lemma propagateValue_fold p newValues T dirty changed T' dirty' changed' :
  foldl (propagateValue quickSetResult p) (T, dirty, changed) newValues
    = (T', dirty', changed') →
  T' = T ∪ list_to_set newValues
  ∧ dirty' = (if decide (list_to_set newValues ⊆ T) then dirty else {[p]} ∪ dirty)
  ∧ (changed' = true → changed = true ∨ size T < size T')
  ∧ (changed = true → changed' = true)
  ∧ (quickSetResult false = true → changed' = false → dirty' = dirty).
Proof.
  revert T dirty changed.
  induction newValues as [|v newValues IH]; intros T dirty changed.
  - simpl. intros [= <- <- <-]. rewrite decide_True by set_solver.
    split_and!; [set_solver|done|by left|done|done].
  - cbn [foldl]. unfold propagateValue at 2. unfold IndexSet_add.
    rewrite list_to_set_cons.
    case_bool_decide as Hv; simpl.
    + intros Hfold. destruct (IH _ _ _ Hfold) as (HT & Hd & Hc1 & Hc2 & Hc3). clear IH.
      rewrite (decide_False (P := {[v]} ∪ list_to_set newValues ⊆ T)) by set_solver.
      split_and!.
      * rewrite HT. set_solver.
      * rewrite Hd. case_decide; set_solver.
      * intros _. right. apply subset_size. rewrite HT. set_solver.
      * intros ->. apply Hc2. by destruct (quickSetResult _).
      * intros Hq Hfalse. specialize (Hc3 Hq Hfalse).
        assert (BitVector.get p dirty = true) as Hget.
        { destruct (BitVector.get p dirty) eqn:E; [done|].
          rewrite Hq in Hc2. rewrite Hc2 in Hfalse; done. }
        apply bool_decide_eq_true in Hget. rewrite Hc3. set_solver.
    + assert ({[v]} ∪ T = T) as HvT by (clear -Hv; set_solver). rewrite HvT.
      intros Hfold. destruct (IH _ _ _ Hfold) as (HT & Hd & Hc1 & Hc2 & Hc3). clear IH.
      split_and!; [rewrite HT; set_solver| |done..].
      rewrite Hd. destruct (decide (list_to_set newValues ⊆ T)).
      * rewrite decide_True by set_solver. done.
      * rewrite decide_False by set_solver. done.
Qed.

Lemma propagateTo_spec newValues s p s' :
  propagateTo quickSetResult newValues s p = Some s' →
  ∃ T, m_liveAtTail (engine s) !! p = Some T
    ∧ m_liveAtTail (engine s')
        = <[p := T ∪ list_to_set newValues]> (m_liveAtTail (engine s))
    ∧ m_liveAtHead (engine s') = m_liveAtHead (engine s)
    ∧ m_workset (engine s') = m_workset (engine s)
    ∧ dirtyBlocks s'
        = (if decide (list_to_set newValues ⊆ T) then dirtyBlocks s
           else {[p]} ∪ dirtyBlocks s)
    ∧ (changed s' = true → changed s = true ∨ size T < size (T ∪ list_to_set newValues))
    ∧ (changed s = true → changed s' = true)
    ∧ (quickSetResult false = true → changed s' = false → dirtyBlocks s' = dirtyBlocks s).
Proof.
  unfold propagateTo. destruct (m_liveAtTail (engine s) !! p) as [T|]; [|done]. simpl.
  destruct (foldl _ _ _) as [[T' dirty'] changed'] eqn:Hfold.
  apply propagateValue_fold in Hfold as (-> & -> & Hc1 & Hc2 & Hc3).
  intros [= <-]. exists T. simpl. by split_and!.
Qed.

Lemma propagate_spec newValues preds s s' :
  propagate quickSetResult newValues preds s = Some s' →
  m_liveAtHead (engine s') = m_liveAtHead (engine s)
  ∧ m_workset (engine s') = m_workset (engine s)
  ∧ length (m_liveAtTail (engine s')) = length (m_liveAtTail (engine s))
  ∧ (∀ p, m_liveAtTail (engine s') !! p
          = (λ T, if decide (p ∈ preds) then T ∪ list_to_set newValues else T)
              <$> m_liveAtTail (engine s) !! p)
  ∧ (∀ p, p ∈ dirtyBlocks s' ↔
          p ∈ dirtyBlocks s
          ∨ (p ∈ preds ∧ ∃ T, m_liveAtTail (engine s) !! p = Some T
                            ∧ ¬ list_to_set newValues ⊆ T))
  ∧ totalLive (m_liveAtTail (engine s)) ≤ totalLive (m_liveAtTail (engine s'))
  ∧ (changed s' = true →
       changed s = true
       ∨ totalLive (m_liveAtTail (engine s)) < totalLive (m_liveAtTail (engine s')))
  ∧ (changed s = true → changed s' = true)
  ∧ (quickSetResult false = true → changed s' = false → dirtyBlocks s' = dirtyBlocks s).
Proof.
  revert s. induction preds as [|q preds IH]; intros s; cbn [propagate].
  - intros [= <-]. split_and!; try done.
    + intros p. destruct (m_liveAtTail (engine s) !! p); [|done]. cbn [fmap option_fmap option_map].
      by rewrite decide_False by apply not_elem_of_nil.
    + intros p. rewrite elem_of_nil. tauto.
    + by left.
  - destruct (propagateTo quickSetResult newValues s q) as [s1|] eqn:Hstep; [|done].
    simpl. intros Hrest.
    apply propagateTo_spec in Hstep as (Tq & HTq & Htails & Hheads & Hws & Hdirty & Hc1 & Hc2 & Hc3).
    apply IH in Hrest as (Hheads' & Hws' & Hlen' & Htails' & Hdirty' & Hsum' & Hd1 & Hd2 & Hd3).
    assert (totalLive (m_liveAtTail (engine s)) + size (Tq ∪ list_to_set newValues)
            = totalLive (m_liveAtTail (engine s1)) + size Tq) as Hsum.
    { rewrite Htails. symmetry. by apply totalLive_insert. }
    assert (size Tq ≤ size (Tq ∪ list_to_set newValues)) as Hsize
      by (apply subseteq_size; clear; set_solver).
    split_and!.
    + congruence.
    + congruence.
    + by rewrite Hlen', Htails, length_insert.
    + intros p. rewrite Htails', Htails.
      destruct (decide (p = q)) as [->|Hne].
      * rewrite list_lookup_insert_eq by (by eapply lookup_lt_Some).
        rewrite HTq. simpl. f_equal.
        rewrite (decide_True (P := q ∈ q :: preds)) by left.
        destruct (decide (q ∈ preds)); [|done]. clear. set_solver.
      * rewrite list_lookup_insert_ne by done.
        destruct (m_liveAtTail (engine s) !! p); [|done]. simpl. f_equal.
        destruct (decide (p ∈ preds)).
        -- by rewrite decide_True by (by right).
        -- by rewrite decide_False by (rewrite elem_of_cons; tauto).
    + intros p. rewrite Hdirty', Hdirty, elem_of_marked, elem_of_cons, Htails.
      destruct (decide (p = q)) as [->|Hne].
      * rewrite list_lookup_insert_eq by (by eapply lookup_lt_Some). rewrite HTq.
        split.
        -- intros [[Hin|[_ Hnot]]|(Hin & T & HT & Hnot)].
           ++ by left.
           ++ right. split; [by left|]. by exists Tq.
           ++ injection HT as <-. exfalso. apply Hnot. clear. set_solver.
        -- intros [Hin|(_ & T & HT & Hnot)].
           ++ by left; left.
           ++ injection HT as <-. by left; right.
      * rewrite list_lookup_insert_ne by done.
        split.
        -- intros [[Hin|[? _]]|(Hin & Hrest)]; [by left|done|].
           right. split; [by right|done].
        -- intros [Hin|([?|Hin] & Hrest)]; [by left; left|done|by right].
    + lia.
    + intros Hch. destruct (Hd1 Hch) as [Hch1|Hlt]; [|right; lia].
      destruct (Hc1 Hch1) as [?|Hlt]; [by left|right; lia].
    + auto.
    + intros Hq Hfalse. specialize (Hd3 Hq Hfalse).
      assert (changed s1 = false) as Hs1.
      { destruct (changed s1); [|done]. by rewrite Hd2 in Hfalse. }
      rewrite Hd3. by apply Hc3.
Qed.

Lemma propagate_is_Some newValues preds s :
  (∀ p, p ∈ preds → p < length (m_liveAtTail (engine s))) →
  is_Some (propagate quickSetResult newValues preds s).
Proof.
  revert s. induction preds as [|q preds IH]; intros s Hrange; simpl; [by eexists|].
  assert (is_Some (propagateTo quickSetResult newValues s q)) as [s1 Hs1].
  { unfold propagateTo.
    destruct (lookup_lt_is_Some_2 (m_liveAtTail (engine s)) q) as [T ->];
      [apply Hrange; left|].
    simpl. destruct (foldl _ _ _) as [[? ?] ?]. by eexists. }
  rewrite Hs1. simpl. apply IH. intros p Hp.
  apply propagateTo_spec in Hs1 as (T & _ & -> & _).
  rewrite length_insert. apply Hrange. by right.
Qed.

End Propagation.

(** ** Monotonicity of the local scan *)

Section ScanMonotone.
Context {Role Thing : Type} `{!ArgRoles Role} `{!LivenessAdapter Role Thing}.
Import IndexSparseSet IndexSparseSetFacts.

Implicit Types (workset : IndexSparseSet.t) (block : BasicBlock Role Thing).

Lemma executeOn_Some_inst block instIndex workset workset' :
  executeOn block instIndex workset = Some workset' →
  ∃ inst, insts block !! instIndex = Some inst.
Proof.
  unfold executeOn. destruct (insts block !! instIndex) as [inst|]; [|done].
  by exists inst.
Qed.

Lemma executeOn_mono block instIndex workset1 workset2 workset1' workset2' :
  values workset1 ⊆ values workset2 →
  executeOn block instIndex workset1 = Some workset1' →
  executeOn block instIndex workset2 = Some workset2' →
  values workset1' ⊆ values workset2'.
Proof.
  intros Hsub H1 H2 x. destruct (executeOn_Some_inst _ _ _ _ H1) as [inst Hinst].
  rewrite (executeOn_elem _ _ _ _ _ _ Hinst H1), (executeOn_elem _ _ _ _ _ _ Hinst H2).
  intros [[Hx Hd]|Hrest]; [left; split; [by apply Hsub|done]|by right].
Qed.

Lemma countDown_executeOn_mono block n workset1 workset2 workset1' workset2' :
  values workset1 ⊆ values workset2 →
  countDown (executeOn block) n workset1 = Some workset1' →
  countDown (executeOn block) n workset2 = Some workset2' →
  values workset1' ⊆ values workset2'.
Proof.
  revert workset1 workset2. induction n as [|n IH]; intros w1 w2 Hsub; simpl.
  - by intros [= <-] [= <-].
  - destruct (executeOn block n w1) as [u1|] eqn:E1; [|done].
    destruct (executeOn block n w2) as [u2|] eqn:E2; [|done]. simpl.
    apply IH. by eapply executeOn_mono.
Qed.

Lemma liveBeforeFirst_mono block (T1 T2 : gset N) :
  T1 ⊆ T2 → liveBeforeFirst block T1 ⊆ liveBeforeFirst block T2.
Proof.
  intros Hsub.
  destruct (scanOn_liveBeforeFirst block (new 0) T1) as (w1 & Hw1 & <- & _).
  destruct (scanOn_liveBeforeFirst block (new 0) T2) as (w2 & Hw2 & <- & _).
  eapply countDown_executeOn_mono; [|exact Hw1|exact Hw2].
  rewrite !values_fill. intros x. rewrite !elem_of_elements. apply Hsub.
Qed.

(** Whatever holds of the tail set and of every operand index of the
    block holds of what is live before its first instruction. *)
Lemma countDown_executeOn_Forall (P : N → Prop) block n workset workset' :
  (∀ instIndex inst isRole x,
      insts block !! instIndex = Some inst → x ∈ indicesOf isRole inst → P x) →
  (∀ x, x ∈ values workset → P x) →
  countDown (executeOn block) n workset = Some workset' →
  ∀ x, x ∈ values workset' → P x.
Proof.
  intros Hops. revert workset. induction n as [|n IH]; intros workset Hw; simpl.
  - by intros [= <-].
  - destruct (executeOn block n workset) as [w1|] eqn:E; [|done]. simpl.
    apply IH. intros x.
    destruct (executeOn_Some_inst _ _ _ _ E) as [inst Hinst].
    rewrite (executeOn_elem _ _ _ _ _ _ Hinst E).
    intros [[Hx _]|[Hx|Hx]]; [by apply Hw|by eapply Hops|].
    destruct n as [|prev]; simpl in Hx; [by apply elem_of_nil in Hx|].
    destruct (insts block !! prev) as [prevInst|] eqn:Hprev; simpl in Hx;
      [by eapply Hops|by apply elem_of_nil in Hx].
Qed.

Lemma liveBeforeFirst_Forall (P : N → Prop) block (T : gset N) :
  (∀ instIndex inst isRole x,
      insts block !! instIndex = Some inst → x ∈ indicesOf isRole inst → P x) →
  (∀ x, x ∈ T → P x) →
  ∀ x, x ∈ liveBeforeFirst block T → P x.
Proof.
  intros Hops HT.
  destruct (scanOn_liveBeforeFirst block (new 0) T) as (w & Hw & <- & _).
  eapply countDown_executeOn_Forall; [done| |exact Hw].
  intros x. rewrite values_fill, elem_of_elements. apply HT.
Qed.

(** *** Taking out what is known *)

Lemma filter_none {A : Type} (P : A → Prop) `{!∀ x, Decision (P x)} (l : list A) :
  (∀ x, x ∈ l → ¬ P x) → filter P l = [].
Proof.
  induction l as [|x l IH]; intros Hall; [done|].
  rewrite filter_cons, decide_False by (apply Hall; left).
  apply IH. intros y Hy. apply Hall. by right.
Qed.

Lemma foldl_remove_values (known : list N) workset :
  values (foldl (λ w v, (remove v w).2) workset known)
    = filter (λ x, x ∉ known) (values workset).
Proof.
  revert workset. induction known as [|v known IH]; intros workset; simpl.
  - induction (values workset) as [|x l IHl]; [done|].
    rewrite filter_cons, decide_True by apply not_elem_of_nil. by f_equal.
  - rewrite IH, values_remove, list_filter_filter. apply list_filter_iff.
    intros x. rewrite not_elem_of_cons. tauto.
Qed.

Lemma removeKnown_values (known : list N) workset :
  NoDup known → known ⊆ values workset →
  values (removeKnown known workset) = filter (λ x, x ∉ known) (values workset).
Proof.
  intros Hnd Hsub. unfold removeKnown. case_bool_decide as Hsize.
  - simpl. symmetry. apply filter_none.
    assert (known ≡ₚ values workset) as Hperm.
    { apply submseteq_length_Permutation; [by apply NoDup_submseteq|].
      unfold size in Hsize. lia. }
    intros x Hx Hnot. apply Hnot. by rewrite Hperm.
  - apply foldl_remove_values.
Qed.

Lemma removeKnown_maxValue (known : list N) workset :
  maxValue (removeKnown known workset) = maxValue workset.
Proof.
  unfold removeKnown. case_bool_decide as Hsize; [done|]. clear Hsize.
  revert workset. induction known as [|v known IH]; intros workset; [done|].
  simpl. by rewrite IH, maxValue_remove.
Qed.

End ScanMonotone.

(** ** The body of the loop *)

Section LoopBody.
Context {Role Thing : Type} `{!ArgRoles Role} `{!LivenessAdapter Role Thing}.
Variable quickSetResult : bool → bool.

Implicit Types (block : BasicBlock Role Thing) (code : Code Role Thing)
  (s : LoopState) (T : gset N).

Local Abbreviation values := IndexSparseSet.values.
Local Abbreviation maxValue := IndexSparseSet.maxValue.

(** The three ways through [processBlock]: a null entry, a clean block,
    a dirty block with or without a delta. *)
Lemma processBlock_inv code blockIndex s s' :
  processBlock quickSetResult code blockIndex s = Some s' →
  (blocks code !! blockIndex = Some None ∧ s' = s)
  ∨ (∃ block, blocks code !! blockIndex = Some (Some block)
       ∧ (blockIndex ∉ dirtyBlocks s)
       ∧ engine s' = engine s ∧ dirtyBlocks s' = dirtyBlocks s ∧ changed s' = changed s)
  ∨ (∃ block T known workset,
       blocks code !! blockIndex = Some (Some block)
       ∧ blockIndex ∈ dirtyBlocks s
       ∧ m_liveAtTail (engine s) !! blockIndex = Some T
       ∧ m_liveAtHead (engine s) !! blockIndex = Some known
       ∧ values workset = liveBeforeFirst block T
       ∧ maxValue workset = maxValue (m_workset (engine s))
       ∧ ((values (removeKnown known workset) = []
           ∧ s' = {| engine := withWorkset (engine s) (removeKnown known workset);
                     dirtyBlocks := dirtyBlocks s ∖ {[blockIndex]};
                     changed := changed s |})
          ∨ (values (removeKnown known workset) ≠ []
             ∧ propagate quickSetResult (values (removeKnown known workset))
                 (predecessors block)
                 (beforePropagate
                    {| engine := engine s;
                       dirtyBlocks := dirtyBlocks s ∖ {[blockIndex]};
                       changed := changed s |}
                    blockIndex known (removeKnown known workset))
               = Some s'))).
Proof.
  unfold processBlock.
  destruct (blocks code !! blockIndex) as [[block|]|] eqn:Hb; simpl; [| |done].
  2: { intros [= <-]. by left. }
  unfold BitVector.quickClear, BitVector.get.
  case_bool_decide as Hdirty; simpl.
  2: { intros [= <-]. right; left. exists block. simpl. split_and!; try done. set_solver. }
  unfold LocalCalc_new.
  destruct (m_liveAtTail (engine s) !! blockIndex) as [T|] eqn:HT; [|done]. simpl.
  rewrite countDown_execute. simpl.
  destruct (scanOn_liveBeforeFirst block (m_workset (engine s)) T) as (ws & Hws & Hv & Hm).
  unfold scanOn in Hws. rewrite Hws. simpl.
  destruct (m_liveAtHead (engine s) !! blockIndex) as [known|] eqn:Hknown; [|done]. simpl.
  intros Hrest. right; right. exists block, T, known, ws. split_and!; try done.
  unfold IndexSparseSet.isEmpty in Hrest. case_bool_decide as Hempty.
  - left. split; [done|]. by simplify_eq.
  - right. split; [done|]. exact Hrest.
Qed.

(** *** [liveAtHead] stays sound *)

Lemma headsSound_processBlock code blockIndex s s' :
  headsSound code s →
  processBlock quickSetResult code blockIndex s = Some s' →
  headsSound code s'.
Proof.
  intros (Hlt & Hlh & Hsound) Hstep.
  apply processBlock_inv in Hstep
    as [[_ ->]|[(block & _ & _ & He & _ & _)|
                (block & T & known & ws & Hb & Hd & HT & Hk & Hv & Hm & Hcase)]].
  - done.
  - unfold headsSound. by rewrite He.
  - destruct (Hsound _ _ _ _ Hb Hk HT) as [Hnd Hsub].
    rewrite <- Hv in Hsub.
    pose proof (removeKnown_values known ws Hnd Hsub) as Hdelta.
    destruct Hcase as [[_ ->]|[_ Hprop]]; [done|].
    apply propagate_spec in Hprop as (Hheads & _ & Hlen & Htails & _).
    unfold beforePropagate in Hheads, Hlen, Htails. simpl in Hheads, Hlen, Htails.
    unfold headsSound. rewrite Hheads, Hlen, length_insert.
    split_and!; [done..|].
    intros b' block' known' T' Hb' Hk' HT'.
    rewrite Htails in HT'.
    destruct (m_liveAtTail (engine s) !! b') as [T0|] eqn:HT0; [|done].
    simpl in HT'. injection HT' as HT'.
    assert (T0 ⊆ T') as Hgrow by (rewrite <- HT'; case_decide; set_goal).
    clear HT'.
    destruct (decide (b' = blockIndex)) as [->|Hne].
    + rewrite list_lookup_insert_eq in Hk' by (by eapply lookup_lt_Some).
      injection Hk' as <-.
      assert (block' = block) as -> by congruence.
      assert (T0 = T) as -> by congruence.
      split.
      * apply NoDup_app. split_and!; [done| |].
        -- intros x Hx. rewrite Hdelta, list_elem_of_filter. tauto.
        -- rewrite Hdelta. apply NoDup_filter. rewrite Hv. apply NoDup_liveBeforeFirst.
      * intros x. rewrite elem_of_app, Hdelta, list_elem_of_filter.
        intros Hx. apply (liveBeforeFirst_mono block T _ Hgrow). rewrite <- Hv.
        destruct Hx as [Hx|[_ Hx]]; [by apply Hsub|done].
    + rewrite list_lookup_insert_ne in Hk' by done.
      destruct (Hsound _ _ _ _ Hb' Hk' HT0) as [Hnd' Hsub']. split; [done|].
      intros x Hx. by apply (liveBeforeFirst_mono block' T0 _ Hgrow), Hsub'.
Qed.

Lemma headsSound_entry code s : initialState code = Some s → headsSound code s.
Proof.
  unfold initialState.
  destruct (seedFrom code 0 _ _) as [tails|] eqn:Hseed; [|done]. simpl.
  intros [= <-]. unfold headsSound. simpl.
  rewrite (seedFrom_length _ _ _ _ _ Hseed). simpl. rewrite !length_replicate.
  split_and!; [done..|].
  intros b block known T _ Hk _. apply lookup_replicate in Hk as [-> _].
  split; [apply NoDup_nil_2|]. intros x Hx. by apply elem_of_nil in Hx.
Qed.

Lemma headsSound_loopState code s : loopState quickSetResult code s → headsSound code s.
Proof.
  induction 1 as [s Hentry|s b s' _ IH Hstep|s _ IH].
  - by apply headsSound_entry.
  - by eapply headsSound_processBlock.
  - exact IH.
Qed.

End LoopBody.

(** ** Termination of the fixed-point loop *)

Section Termination.
Context {Role Thing : Type} `{!ArgRoles Role} `{!LivenessAdapter Role Thing}.
Variable quickSetResult : bool → bool.

Implicit Types (block : BasicBlock Role Thing) (code : Code Role Thing)
  (s : LoopState) (T : gset N).

Local Abbreviation values := IndexSparseSet.values.

(** The number of indices in [[0, maxIndex(code)]]. *)
Local Abbreviation entities code := (N.to_nat (maxIndex code) + 1).

Lemma size_bounded T (bound : N) :
  (∀ x, x ∈ T → (x ≤ bound)%N) → size T ≤ N.to_nat bound + 1.
Proof.
  intros Hall.
  set (universe := N.of_nat <$> seq 0 (N.to_nat bound + 1)).
  assert (T ⊆ list_to_set universe) as Hsub.
  { intros x Hx. apply elem_of_list_to_set. unfold universe.
    apply list_elem_of_fmap. exists (N.to_nat x). split; [lia|].
    apply elem_of_seq. specialize (Hall x Hx). lia. }
  apply subseteq_size in Hsub. rewrite size_list_to_set in Hsub.
  - unfold universe in Hsub. by rewrite length_fmap, length_seq in Hsub.
  - unfold universe. apply NoDup_fmap_2; [|apply NoDup_seq].
    intros a b Hab. lia.
Qed.

Lemma totalLive_tailsBounded code s :
  tailsBounded code s →
  totalLive (m_liveAtTail (engine s))
    ≤ length (m_liveAtTail (engine s)) * entities code.
Proof.
  intros Hbound. apply totalLive_bound. intros b T HT. apply size_bounded.
  intros x Hx. by eapply Hbound.
Qed.

(** *** Operand indices are in range *)

Lemma elem_of_indicesOf isRole (inst : Inst Role Thing) x :
  x ∈ indicesOf isRole inst →
  ∃ thing role type, (thing, role, type) ∈ inst
    ∧ acceptsType type = true ∧ x = valueToIndex thing.
Proof.
  unfold indicesOf. rewrite list_elem_of_omap.
  intros ([[thing role] type] & Hin & Hsome). exists thing, role, type.
  destruct (isRole role); simpl in Hsome; [|done].
  destruct (acceptsType type); simpl in Hsome; [|done].
  by simplify_eq.
Qed.

Lemma indicesInRange_lookup code blockIndex block instIndex inst isRole x :
  indicesInRange code = true →
  blocks code !! blockIndex = Some (Some block) →
  insts block !! instIndex = Some inst →
  x ∈ indicesOf isRole inst →
  (x ≤ maxIndex code)%N.
Proof.
  intros Hall Hb Hinst Hx.
  pose proof (forallb_lookup _ _ _ _ Hall Hb) as Hblock. simpl in Hblock.
  pose proof (forallb_lookup _ _ _ _ Hblock Hinst) as Hops.
  apply elem_of_indicesOf in Hx as (thing & role & type & Hin & Hacc & ->).
  apply list_elem_of_lookup in Hin as [i Hi].
  pose proof (forallb_lookup _ _ _ _ Hops Hi) as Hop. simpl in Hop.
  rewrite Hacc in Hop. simpl in Hop. by apply bool_decide_eq_true in Hop.
Qed.

Lemma removeKnown_subseteq (known : list N) workset :
  values (removeKnown known workset) ⊆ values workset.
Proof.
  unfold removeKnown. case_bool_decide.
  - simpl. intros x Hx. by apply elem_of_nil in Hx.
  - rewrite foldl_remove_values. intros x. rewrite list_elem_of_filter. tauto.
Qed.

(** *** The tail sets stay in range, and only grow *)

Lemma tailsBounded_processBlock code blockIndex s s' :
  indicesInRange code = true →
  tailsBounded code s →
  processBlock quickSetResult code blockIndex s = Some s' →
  tailsBounded code s'.
Proof.
  intros Hrange Hbound Hstep.
  apply processBlock_inv in Hstep
    as [[_ ->]|[(block & _ & _ & He & _ & _)|
                (block & T & known & ws & Hb & Hd & HT & Hk & Hv & Hm & Hcase)]].
  - done.
  - unfold tailsBounded. by rewrite He.
  - destruct Hcase as [[_ ->]|[_ Hprop]]; [done|].
    apply propagate_spec in Hprop as (_ & _ & _ & Htails & _).
    unfold beforePropagate in Htails. simpl in Htails.
    intros p Tp x HTp Hx. rewrite Htails in HTp.
    destruct (m_liveAtTail (engine s) !! p) as [T0|] eqn:HT0; [|done].
    simpl in HTp. injection HTp as <-.
    assert (x ∈ T0 ∨ x ∈ values (removeKnown known ws)) as [Hx0|Hnew]
      by (clear -Hx; case_decide; set_solver).
    + by apply (Hbound _ _ _ HT0).
    + apply removeKnown_subseteq in Hnew. rewrite Hv in Hnew.
      clear Hx. revert x Hnew. apply liveBeforeFirst_Forall.
      * intros i inst isRole x Hinst Hx. by eapply indicesInRange_lookup.
      * intros x Hx. by apply (Hbound _ _ _ HT).
Qed.

Lemma tailsBounded_entry code s :
  indicesInRange code = true → initialState code = Some s → tailsBounded code s.
Proof.
  intros Hrange. unfold initialState.
  destruct (seedFrom code 0 _ _) as [tails|] eqn:Hseed; [|done]. simpl.
  intros [= <-] b T x HT Hx. simpl in HT.
  assert (b < length (blocks code)) as Hlt.
  { apply lookup_lt_Some in HT. rewrite (seedFrom_length _ _ _ _ _ Hseed) in HT.
    simpl in HT. by rewrite length_replicate in HT. }
  destruct (blocks code !! b) as [[block|]|] eqn:Hb.
  - destruct (seedFrom_inside _ _ _ _ _ b block ∅ Hseed) as (terminal & Hlast & HT');
      [lia|done|simpl; by apply lookup_replicate_2|].
    rewrite HT' in HT. injection HT as <-.
    rewrite last_lookup in Hlast.
    eapply (indicesInRange_lookup code b block _ terminal isLateUse);
      [exact Hrange|exact Hb|exact Hlast|].
    clear -Hx. set_solver.
  - rewrite (seedFrom_outside _ _ _ _ _ b Hseed) in HT by (right; congruence).
    simpl in HT. apply lookup_replicate in HT as [-> _]. clear -Hx. set_solver.
  - by apply lookup_ge_None in Hb; lia.
Qed.

Lemma measure_processBlock code blockIndex s s' :
  processBlock quickSetResult code blockIndex s = Some s' →
  totalLive (m_liveAtTail (engine s)) ≤ totalLive (m_liveAtTail (engine s'))
  ∧ (changed s' = true →
       changed s = true
       ∨ totalLive (m_liveAtTail (engine s)) < totalLive (m_liveAtTail (engine s')))
  ∧ (changed s = true → changed s' = true).
Proof.
  intros Hstep.
  apply processBlock_inv in Hstep
    as [[_ ->]|[(block & _ & _ & He & _ & Hc)|
                (block & T & known & ws & Hb & Hd & HT & Hk & Hv & Hm & Hcase)]].
  - split_and!; [done|by left|done].
  - rewrite He, Hc. split_and!; [done|by left|done].
  - destruct Hcase as [[_ ->]|[_ Hprop]]; [split_and!; [done|by left|done]|].
    by apply propagate_spec in Hprop as (_ & _ & _ & _ & _ & Hsum & Hc1 & Hc2 & _).
Qed.

(** *** The body of the loop does not trap *)

Lemma predecessorsInRange_lookup code blockIndex block p :
  predecessorsInRange code = true →
  blocks code !! blockIndex = Some (Some block) →
  p ∈ predecessors block → p < length (blocks code).
Proof.
  intros Hall Hb Hp.
  pose proof (forallb_lookup _ _ _ _ Hall Hb) as Hpreds. simpl in Hpreds.
  apply list_elem_of_lookup in Hp as [i Hi].
  pose proof (forallb_lookup _ _ _ _ Hpreds Hi) as Hlt.
  by apply bool_decide_eq_true in Hlt.
Qed.

Lemma processBlock_is_Some code blockIndex s :
  predecessorsInRange code = true →
  headsSound code s →
  blockIndex < length (blocks code) →
  is_Some (processBlock quickSetResult code blockIndex s).
Proof.
  intros Hpreds (Hlt & Hlh & _) Hb. unfold processBlock.
  destruct (lookup_lt_is_Some_2 (blocks code) blockIndex Hb) as [[block|] Hblock];
    rewrite Hblock; simpl; [|by eexists].
  unfold BitVector.quickClear. destruct (BitVector.get _ _); simpl; [|by eexists].
  unfold LocalCalc_new.
  destruct (lookup_lt_is_Some_2 (m_liveAtTail (engine s)) blockIndex) as [T ->]; [lia|].
  simpl. rewrite countDown_execute. simpl.
  destruct (scanOn_liveBeforeFirst block (m_workset (engine s)) T) as (ws & Hws & _).
  unfold scanOn in Hws. rewrite Hws. simpl.
  destruct (lookup_lt_is_Some_2 (m_liveAtHead (engine s)) blockIndex) as [known ->];
    [lia|].
  simpl. destruct (IndexSparseSet.isEmpty _); [by eexists|].
  apply propagate_is_Some. simpl. intros p Hp. rewrite Hlt.
  by eapply predecessorsInRange_lookup.
Qed.

(** *** One turn of the loop *)

Lemma countDown_processBlock code n s :
  wellFormed code = true →
  n ≤ length (blocks code) →
  headsSound code s → tailsBounded code s →
  ∃ s', countDown (processBlock quickSetResult code) n s = Some s'
    ∧ headsSound code s' ∧ tailsBounded code s'
    ∧ totalLive (m_liveAtTail (engine s)) ≤ totalLive (m_liveAtTail (engine s'))
    ∧ (changed s' = true →
         changed s = true
         ∨ totalLive (m_liveAtTail (engine s)) < totalLive (m_liveAtTail (engine s')))
    ∧ (loopState quickSetResult code s → loopState quickSetResult code s').
Proof.
  intros Hwf. unfold wellFormed in Hwf.
  apply andb_true_iff in Hwf as [Hwf Hrange]. apply andb_true_iff in Hwf as [Hterm Hpreds].
  revert s. induction n as [|n IH]; intros s Hn Hheads Hbound; simpl.
  - exists s. split_and!; [done..|by left|done].
  - destruct (processBlock_is_Some code n s Hpreds Hheads) as [s1 Hs1]; [lia|].
    rewrite Hs1. simpl.
    pose proof (headsSound_processBlock _ _ _ _ _ Hheads Hs1) as Hheads1.
    pose proof (tailsBounded_processBlock _ _ _ _ Hrange Hbound Hs1) as Hbound1.
    destruct (measure_processBlock _ _ _ _ Hs1) as (Hsum1 & Hc1 & _).
    destruct (IH s1) as (s' & -> & Hheads' & Hbound' & Hsum' & Hc' & Hloop');
      [lia|done|done|].
    exists s'. split_and!; [done..|lia| |].
    + intros Hch. destruct (Hc' Hch) as [Hch1|Hlt]; [|right; lia].
      destruct (Hc1 Hch1) as [?|Hlt]; [by left|right; lia].
    + intros Hloop. apply Hloop'. by eapply loopState_block.
Qed.

Lemma pass_progress code s :
  wellFormed code = true →
  headsSound code s → tailsBounded code s →
  ∃ s', pass quickSetResult code s = Some s'
    ∧ headsSound code s' ∧ tailsBounded code s'
    ∧ (changed s' = true →
         totalLive (m_liveAtTail (engine s)) < totalLive (m_liveAtTail (engine s')))
    ∧ (loopState quickSetResult code s → loopState quickSetResult code s').
Proof.
  intros Hwf Hheads Hbound. unfold pass.
  destruct (countDown_processBlock code (length (blocks code))
              {| engine := engine s; dirtyBlocks := dirtyBlocks s; changed := false |}
              Hwf) as (s' & Hs' & Hheads' & Hbound' & _ & Hc & Hloop); [done..|].
  exists s'. split_and!; [done..| |].
  - intros Hch. by destruct (Hc Hch).
  - intros Hl. apply Hloop. by apply loopState_turn.
Qed.

Lemma fixedPoint_terminates code fuel s :
  wellFormed code = true →
  headsSound code s → tailsBounded code s →
  length (blocks code) * entities code - totalLive (m_liveAtTail (engine s)) < fuel →
  ∃ s', fixedPoint quickSetResult fuel code s = Ok s'
    ∧ headsSound code s' ∧ tailsBounded code s' ∧ changed s' = false
    ∧ (loopState quickSetResult code s → loopState quickSetResult code s').
Proof.
  intros Hwf. revert s. induction fuel as [|fuel IH]; intros s Hheads Hbound Hfuel; [lia|].
  simpl. destruct (pass_progress code s Hwf Hheads Hbound)
    as (s1 & -> & Hheads1 & Hbound1 & Hc & Hloop1).
  destruct (changed s1) eqn:Hch.
  - specialize (Hc eq_refl).
    pose proof (totalLive_tailsBounded code s1 Hbound1) as Hmax.
    destruct Hheads1 as (Hlen1 & Hrest1). rewrite Hlen1 in Hmax.
    destruct (IH s1) as (s' & -> & ? & ? & ? & Hloop'); [by split|done|lia|].
    exists s'. split_and!; [done..|]. auto.
  - exists s1. by split_and!.
Qed.

(** C3. On a well-formed code the [do ... while (changed)] loop ends:
    a turn that sets [changed] has added an index to a tail set, tail
    sets never shrink and hold indices of [[0, maxIndex]] only, so the
    constructor returns an engine as soon as it is given more turns than
    #blocks × #entities, and the tail sets of the engine hold at most
    #blocks × #entities entries together, which bounds the successful
    additions. *)
Theorem constructor_terminates code fuel :
  wellFormed code = true →
  length (blocks code) * entities code < fuel →
  ∃ liveness, AbstractLiveness_new quickSetResult fuel code = Ok liveness
    ∧ totalLive (m_liveAtTail liveness) ≤ length (blocks code) * entities code.
Proof.
  intros Hwf Hfuel. unfold AbstractLiveness_new.
  pose proof Hwf as Hwf'. unfold wellFormed in Hwf'.
  apply andb_true_iff in Hwf' as [Hwf' Hrange].
  apply andb_true_iff in Hwf' as [Hterm Hpreds].
  destruct (initialState_is_Some code Hterm) as [s0 Hs0]. rewrite Hs0.
  destruct (fixedPoint_terminates code fuel s0 Hwf) as (s' & -> & Hheads & Hbound & _);
    [by apply headsSound_entry|by apply tailsBounded_entry|lia|].
  eexists. split; [done|]. simpl.
  pose proof (totalLive_tailsBounded code s' Hbound) as Hmax.
  destruct Hheads as (Hlen & _). by rewrite Hlen in Hmax.
Qed.

End Termination.

(** ** What the body of the loop maintains *)

Section LoopBodyProperties.
Context {Role Thing : Type} `{!ArgRoles Role} `{!LivenessAdapter Role Thing}.
Variable quickSetResult : bool → bool.

Implicit Types (block : BasicBlock Role Thing) (code : Code Role Thing)
  (s : LoopState) (T : gset N).

Local Abbreviation values := IndexSparseSet.values.

(** C9. At every boundary of the body of the fixed-point loop, so at
    the start of each processing of a block, what [liveAtHead] records
    for a block is duplicate-free and is part of what the local scan
    finds live before the first instruction from the current tail set.
    Hence equal sizes leave no delta, and in every case the workset that
    [removeKnown] leaves holds exactly the scanned indices that
    [liveAtHead] lacks: clearing the workset on equal sizes agrees with
    removing the known values one by one. *)
Theorem liveAtHead_sound code s blockIndex block :
  loopState quickSetResult code s →
  blocks code !! blockIndex = Some (Some block) →
  ∃ known live,
    m_liveAtHead (engine s) !! blockIndex = Some known
    ∧ liveAtHeadOf code blockIndex (engine s) = Some live
    ∧ NoDup known
    ∧ known ⊆ live
    ∧ (length live = length known → filter (λ x, x ∉ known) live = [])
    ∧ (∀ workset, values workset = live →
         values (removeKnown known workset) = filter (λ x, x ∉ known) live).
Proof.
  intros Hloop Hb. destruct (headsSound_loopState _ _ _ Hloop) as (Hlt & Hlh & Hsound).
  assert (blockIndex < length (blocks code)) as Hlt' by (by eapply lookup_lt_Some).
  destruct (lookup_lt_is_Some_2 (m_liveAtHead (engine s)) blockIndex) as [known Hk];
    [lia|].
  destruct (lookup_lt_is_Some_2 (m_liveAtTail (engine s)) blockIndex) as [T HT]; [lia|].
  destruct (Hsound _ _ _ _ Hb Hk HT) as [Hnd Hsub].
  exists known, (liveBeforeFirst block T). split_and!; [done| |done|done| |].
  - by apply liveAtHeadOf_spec.
  - intros Hlen. apply filter_none.
    assert (known ≡ₚ liveBeforeFirst block T) as Hperm.
    { apply submseteq_length_Permutation; [by apply NoDup_submseteq|lia]. }
    intros x Hx Hnot. apply Hnot. by rewrite Hperm.
  - intros ws Hws. rewrite <- Hws in *. by apply removeKnown_values.
Qed.

(** C4. On a well-formed code a dirty block can always be processed,
    and then, with [delta] the scanned indices that [liveAtHead] of the
    block lacked, the tail set of each predecessor becomes its union with
    [delta], and afterwards the dirty bit of the predecessor is set
    exactly when a value of [delta] was new to its tail set or the bit
    was already set (the bit of the processed block itself is cleared
    first). *)
Theorem predecessor_propagation code s blockIndex block :
  wellFormed code = true →
  loopState quickSetResult code s →
  blocks code !! blockIndex = Some (Some block) →
  BitVector.get blockIndex (dirtyBlocks s) = true →
  ∃ s' known live,
    processBlock quickSetResult code blockIndex s = Some s'
    ∧ m_liveAtHead (engine s) !! blockIndex = Some known
    ∧ liveAtHeadOf code blockIndex (engine s) = Some live
    ∧ ∀ p, p ∈ predecessors block →
        ∃ T, liveAtTail (engine s) p = Some T
          ∧ liveAtTail (engine s') p
              = Some (T ∪ list_to_set (filter (λ x, x ∉ known) live))
          ∧ (p ∈ dirtyBlocks s' ↔
               (p ∈ dirtyBlocks s ∧ p ≠ blockIndex)
               ∨ ¬ list_to_set (filter (λ x, x ∉ known) live) ⊆ T).
Proof.
  intros Hwf Hloop Hb Hdirty.
  unfold wellFormed in Hwf. apply andb_true_iff in Hwf as [Hwf _].
  apply andb_true_iff in Hwf as [_ Hpreds].
  pose proof (headsSound_loopState _ _ _ Hloop) as Hheads.
  destruct (processBlock_is_Some quickSetResult code blockIndex s Hpreds Hheads)
    as [s' Hstep]; [by eapply lookup_lt_Some|].
  destruct Hheads as (Hlt & Hlh & Hsound).
  apply bool_decide_eq_true in Hdirty.
  pose proof Hstep as Hinv.
  apply processBlock_inv in Hinv
    as [[Hnull _]|[(block' & _ & Hclean & _)|
                   (block' & T & known & ws & Hb' & _ & HT & Hk & Hv & _ & Hcase)]];
    [congruence|done|].
  assert (block' = block) as -> by congruence.
  destruct (Hsound _ _ _ _ Hb Hk HT) as [Hnd Hsub]. rewrite <- Hv in Hsub.
  pose proof (removeKnown_values known ws Hnd Hsub) as Hdelta. rewrite Hv in Hdelta.
  exists s', known, (liveBeforeFirst block T).
  split_and!; [done|done|by apply liveAtHeadOf_spec|].
  intros p Hp. unfold liveAtTail in *. rewrite <- Hdelta.
  destruct (lookup_lt_is_Some_2 (m_liveAtTail (engine s)) p) as [Tp HTp].
  { rewrite Hlt. by eapply predecessorsInRange_lookup. }
  exists Tp. split; [done|].
  destruct Hcase as [[Hnil ->]|[_ Hprop]].
  - simpl. rewrite Hnil. simpl. split; [rewrite HTp; f_equal; set_goal|].
    clear. set_solver.
  - apply propagate_spec in Hprop as (_ & _ & _ & Htails & Hbits & _).
    unfold beforePropagate in Htails, Hbits. simpl in Htails, Hbits.
    rewrite Htails, HTp. simpl.
    rewrite decide_True by done. split; [done|].
    rewrite Hbits. split.
    + intros [Hin|(_ & T' & HT' & Hnot)]; [left; clear -Hin; set_solver|].
      right. congruence.
    + intros [[Hin Hne]|Hnot]; [left; clear -Hin Hne; set_solver|].
      right. split; [done|]. by exists Tp.
Qed.

End LoopBodyProperties.

(** ** The fixed point *)

Section FixedPoint.
Context {Role Thing : Type} `{!ArgRoles Role} `{!LivenessAdapter Role Thing}.
Variable quickSetResult : bool → bool.

Implicit Types (block : BasicBlock Role Thing) (code : Code Role Thing)
  (s : LoopState) (T : gset N).

Local Abbreviation values := IndexSparseSet.values.

Lemma propagated_entry code s : initialState code = Some s → propagated code s.
Proof.
  unfold initialState.
  destruct (seedFrom code 0 _ _) as [tails|] eqn:Hseed; [|done]. simpl.
  intros [= <-]. unfold propagated. simpl.
  assert (∀ b, b < length (blocks code) →
            m_liveAtTail (initialLiveness code) !! b = Some ∅) as Hinit.
  { intros b Hb. simpl. by apply lookup_replicate_2. }
  split_and!.
  - intros b block T x Hb HT Hx.
    assert (b < length (blocks code)) as Hlt by (by eapply lookup_lt_Some).
    destruct (seedFrom_inside _ _ _ _ _ b block ∅ Hseed) as (terminal & Hlast & HT');
      [lia|done|by apply Hinit|].
    unfold lateUsesOfTerminal in Hx. rewrite Hlast in Hx. simpl in Hx.
    rewrite HT' in HT. injection HT as <-. set_solver.
  - intros sb succ known p T x _ Hk _ _ Hx.
    apply lookup_replicate in Hk as [-> _]. by apply elem_of_nil in Hx.
  - intros b block known T x Hb Hclean. exfalso. apply Hclean.
    apply elem_of_allDirty. by eapply lookup_lt_Some.
  - intros b T x HT Hx.
    assert (b < length (blocks code)) as Hlt.
    { apply lookup_lt_Some in HT. rewrite (seedFrom_length _ _ _ _ _ Hseed) in HT.
      simpl in HT. by rewrite length_replicate in HT. }
    destruct (blocks code !! b) as [[block|]|] eqn:Hb.
    + left. exists block. split; [done|].
      destruct (seedFrom_inside _ _ _ _ _ b block ∅ Hseed) as (terminal & Hlast & HT');
        [lia|done|by apply Hinit|].
      unfold lateUsesOfTerminal. rewrite Hlast. simpl.
      rewrite HT' in HT. injection HT as <-. set_solver.
    + rewrite (seedFrom_outside _ _ _ _ _ b Hseed) in HT by (right; congruence).
      rewrite Hinit in HT by done. injection HT as <-. set_solver.
    + apply lookup_ge_None in Hb. lia.
Qed.

Lemma propagated_processBlock code blockIndex s s' :
  headsSound code s → propagated code s →
  processBlock quickSetResult code blockIndex s = Some s' →
  propagated code s'.
Proof.
  intros (Hlt & Hlh & Hsound) (Hseeds & Hedges & Hclean & Hwhy) Hstep.
  apply processBlock_inv in Hstep
    as [[_ ->]|[(block & _ & _ & He & Hd & _)|
                (block & T & known & ws & Hb & Hdirty & HT & Hk & Hv & Hm & Hcase)]].
  - done.
  - unfold propagated. by rewrite He, Hd.
  - destruct (Hsound _ _ _ _ Hb Hk HT) as [Hnd Hsub]. rewrite <- Hv in Hsub.
    pose proof (removeKnown_values known ws Hnd Hsub) as Hdelta.
    assert (∀ x, x ∈ values ws → x ∈ known ∨ x ∈ values (removeKnown known ws))
      as Hsplit.
    { intros x Hx. rewrite Hdelta, list_elem_of_filter.
      destruct (decide (x ∈ known)); tauto. }
    destruct Hcase as [[Hnil ->]|[_ Hprop]].
    + unfold propagated. simpl. split_and!; [done|done| |done].
      intros b' block' known' T' x Hb' Hc' Hk' HT' Hx.
      destruct (decide (b' = blockIndex)) as [->|Hne].
      * assert (block' = block) as -> by congruence.
        assert (T' = T) as -> by congruence.
        assert (known' = known) as -> by congruence.
        rewrite <- Hv in Hx.
        destruct (Hsplit x Hx) as [?|Hnew]; [done|].
        rewrite Hnil in Hnew. by apply elem_of_nil in Hnew.
      * eapply Hclean; [exact Hb'| |exact Hk'|exact HT'|exact Hx].
           clear -Hc' Hne. set_solver.
    + apply propagate_spec in Hprop as (Hheads & _ & Hlen & Htails & Hbits & _).
      unfold beforePropagate in Hheads, Hlen, Htails, Hbits.
      simpl in Hheads, Hlen, Htails, Hbits.
      set (delta := values (removeKnown known ws)) in *.
      assert (∀ p Tp', m_liveAtTail (engine s') !! p = Some Tp' →
                ∃ Tp, m_liveAtTail (engine s) !! p = Some Tp
                  ∧ Tp' = (if decide (p ∈ predecessors block)
                           then Tp ∪ list_to_set delta else Tp)) as Hold.
      { intros p Tp' HTp'. rewrite Htails in HTp'.
        destruct (m_liveAtTail (engine s) !! p) as [Tp|]; [|done].
        exists Tp. split; [done|]. by injection HTp'. }
      assert (blockIndex < length (m_liveAtHead (engine s))) as Hin
        by (by eapply lookup_lt_Some).
      unfold propagated. rewrite Hheads. split_and!.
      * intros b' block' T' x Hb' HT' Hx.
        destruct (Hold _ _ HT') as (T0 & HT0 & ->).
        specialize (Hseeds _ _ _ x Hb' HT0 Hx). clear -Hseeds. case_decide; set_solver.
      * intros sb succ known' p T' x Hsb Hk' Hp HT' Hx.
        destruct (Hold _ _ HT') as (T0 & HT0 & ->).
        destruct (decide (sb = blockIndex)) as [->|Hne].
        -- rewrite list_lookup_insert_eq in Hk' by done.
           injection Hk' as <-.
           assert (succ = block) as -> by congruence.
           rewrite decide_True by done.
           apply elem_of_app in Hx as [Hx|Hx]; [|clear -Hx; set_solver].
           specialize (Hedges _ _ _ _ _ x Hb Hk Hp HT0 Hx). clear -Hedges. set_solver.
        -- rewrite list_lookup_insert_ne in Hk' by done.
           specialize (Hedges _ _ _ _ _ x Hsb Hk' Hp HT0 Hx).
           clear -Hedges. case_decide; set_solver.
      * intros b' block' known' T' x Hb' Hc' Hk' HT' Hx.
        destruct (Hold _ _ HT') as (T0 & HT0 & ->).
        rewrite Hbits in Hc'.
        assert ((if decide (b' ∈ predecessors block)
                 then T0 ∪ list_to_set delta else T0) = T0) as Hsame.
        { case_decide as Hp; [|done].
          destruct (decide (list_to_set delta ⊆ T0)) as [Hsub'|Hnot];
            [clear -Hsub'; set_solver|].
          exfalso. apply Hc'. right. split; [done|]. by exists T0. }
        rewrite Hsame in Hx.
        destruct (decide (b' = blockIndex)) as [->|Hne].
        -- rewrite list_lookup_insert_eq in Hk' by done.
           injection Hk' as <-.
           assert (block' = block) as -> by congruence.
           assert (T0 = T) as -> by congruence.
           rewrite <- Hv in Hx. rewrite elem_of_app. by apply Hsplit.
        -- rewrite list_lookup_insert_ne in Hk' by done.
           eapply Hclean; [exact Hb'| |exact Hk'|exact HT0|exact Hx].
           clear -Hc' Hne. set_solver.
      * intros b' T' x HT' Hx.
        destruct (Hold _ _ HT') as (T0 & HT0 & ->).
        assert (x ∈ T0 ∨ (b' ∈ predecessors block ∧ x ∈ delta)) as [Hx0|[Hp Hnew]]
          by (clear -Hx; case_decide; set_solver).
        -- destruct (Hwhy _ _ _ HT0 Hx0)
             as [?|(sb & succ & known' & Hsb & Hp & Hk' & Hxk)]; [by left|].
           right. exists sb, succ.
           destruct (decide (sb = blockIndex)) as [->|Hne].
           ++ exists (known ++ delta).
              assert (known' = known) as -> by congruence.
              split_and!; [done..| |].
              ** by apply list_lookup_insert_eq.
              ** apply elem_of_app. by left.
           ++ exists known'. by rewrite list_lookup_insert_ne.
        -- right. exists blockIndex, block, (known ++ delta). split_and!; [done..| |].
           ++ by apply list_lookup_insert_eq.
           ++ apply elem_of_app. by right.
Qed.

Lemma propagated_loopState code s : loopState quickSetResult code s → propagated code s.
Proof.
  induction 1 as [s Hentry|s b s' Hloop IH Hstep|s _ IH].
  - by apply propagated_entry.
  - eapply propagated_processBlock; [|done..]. by eapply headsSound_loopState.
  - exact IH.
Qed.

(** *** A turn that leaves [changed] clear, when [quickSet] reports a
    bit that goes from clear to set *)

Hypothesis quickSet_reports : quickSetResult false = true.

Lemma processBlock_settled code blockIndex s s' :
  processBlock quickSetResult code blockIndex s = Some s' →
  changed s' = false →
  changed s = false
  ∧ ∀ p, p ∈ dirtyBlocks s' →
      p ∈ dirtyBlocks s
      ∧ ¬ (p = blockIndex ∧ ∃ block, blocks code !! blockIndex = Some (Some block)).
Proof.
  intros Hstep Hfalse.
  apply processBlock_inv in Hstep
    as [[Hnull ->]|[(block & Hb & Hclean & He & Hd & Hc)|
                    (block & T & known & ws & Hb & Hdirty & HT & Hk & Hv & Hm & Hcase)]].
  - split; [done|]. intros p Hp. split; [done|]. intros (_ & block & Hb). congruence.
  - split; [congruence|]. rewrite Hd. intros p Hp. split; [done|].
    intros [-> _]. done.
  - destruct Hcase as [[_ ->]|[_ Hprop]].
    + simpl in *. split; [done|]. intros p Hp. clear -Hp. set_solver.
    + apply propagate_spec in Hprop as (_ & _ & _ & _ & _ & _ & _ & Hc2 & Hc3).
      unfold beforePropagate in Hc2, Hc3. simpl in Hc2, Hc3.
      specialize (Hc3 quickSet_reports Hfalse). split.
      * destruct (changed s); [|done]. by rewrite Hc2 in Hfalse.
      * rewrite Hc3. intros p Hp. clear -Hp. set_solver.
Qed.

Lemma countDown_settled code n s s' :
  countDown (processBlock quickSetResult code) n s = Some s' →
  changed s' = false →
  changed s = false
  ∧ ∀ p, p ∈ dirtyBlocks s' →
      p ∈ dirtyBlocks s
      ∧ ¬ (p < n ∧ ∃ block, blocks code !! p = Some (Some block)).
Proof.
  revert s. induction n as [|n IH]; intros s; simpl.
  - intros [= <-] Hfalse. split; [done|]. intros p Hp. split; [done|]. lia.
  - destruct (processBlock quickSetResult code n s) as [s1|] eqn:Hstep; [|done].
    simpl. intros Hrest Hfalse.
    destruct (IH _ Hrest Hfalse) as [Hfalse1 Hbits].
    destruct (processBlock_settled _ _ _ _ Hstep Hfalse1) as [Hfalse0 Hbits1].
    split; [done|]. intros p Hp.
    destruct (Hbits p Hp) as [Hp1 Hlow]. destruct (Hbits1 p Hp1) as [Hp0 Hhere].
    split; [done|]. intros [Hlt Hblock].
    destruct (decide (p = n)) as [->|Hne]; [by apply Hhere|].
    apply Hlow. split; [lia|done].
Qed.

Lemma countDown_loopState code n s s' :
  countDown (processBlock quickSetResult code) n s = Some s' →
  loopState quickSetResult code s → loopState quickSetResult code s'.
Proof.
  revert s. induction n as [|n IH]; intros s; simpl; [by intros [= <-]|].
  destruct (processBlock quickSetResult code n s) as [s1|] eqn:Hstep; [|done].
  simpl. intros Hrest Hloop. apply (IH _ Hrest). by eapply loopState_block.
Qed.

Lemma fixedPoint_exit code fuel s s' :
  fixedPoint quickSetResult fuel code s = Ok s' →
  loopState quickSetResult code s →
  loopState quickSetResult code s'
  ∧ changed s' = false
  ∧ ∃ s0, pass quickSetResult code s0 = Some s'.
Proof.
  revert s. induction fuel as [|fuel IH]; intros s; simpl; [done|].
  destruct (pass quickSetResult code s) as [s1|] eqn:Hpass; [|done].
  assert (loopState quickSetResult code s → loopState quickSetResult code s1) as Hloop1.
  { intros Hloop. unfold pass in Hpass.
    apply (countDown_loopState _ _ _ _ Hpass). by apply loopState_turn. }
  destruct (changed s1) eqn:Hch.
  - intros Hrest Hloop. apply (IH _ Hrest). by apply Hloop1.
  - intros [= <-] Hloop. split_and!; [by apply Hloop1|done|by exists s].
Qed.

Lemma initialState_terminal code s blockIndex block :
  initialState code = Some s →
  blocks code !! blockIndex = Some (Some block) →
  ∃ terminal, last (insts block) = Some terminal.
Proof.
  unfold initialState.
  destruct (seedFrom code 0 _ _) as [tails|] eqn:Hseed; [|done]. intros _ Hb.
  assert (blockIndex < length (blocks code)) as Hlt by (by eapply lookup_lt_Some).
  destruct (seedFrom_inside _ _ _ _ _ blockIndex block ∅ Hseed)
    as (terminal & Hlast & _); [lia|done|simpl; by apply lookup_replicate_2|].
  by exists terminal.
Qed.

(** The fixed point, when [quickSet] reports a bit that goes from clear
    to set: in the engine that the constructor returns, the tail set of
    every block is the union of the accepted late uses of its terminal
    and of what a local scan of each successor, from the final tail
    sets, finds live before the first instruction. *)
Lemma fixed_point_when_transition_reported code fuel liveness blockIndex block :
  AbstractLiveness_new quickSetResult fuel code = Ok liveness →
  blocks code !! blockIndex = Some (Some block) →
  ∃ terminal T,
    last (insts block) = Some terminal
    ∧ liveAtTail liveness blockIndex = Some T
    ∧ ∀ x, x ∈ T ↔
        x ∈ indicesOf isLateUse terminal
        ∨ ∃ succIndex succ live,
            blocks code !! succIndex = Some (Some succ)
            ∧ blockIndex ∈ predecessors succ
            ∧ liveAtHeadOf code succIndex liveness = Some live
            ∧ x ∈ live.
Proof.
  unfold AbstractLiveness_new.
  destruct (initialState code) as [s0|] eqn:Hentry; [|done].
  destruct (fixedPoint quickSetResult fuel code s0) as [s'| |] eqn:Hfix; [|done..].
  intros [= <-] Hb. unfold liveAtTail. simpl.
  destruct (initialState_terminal _ _ _ _ Hentry Hb) as [terminal Hlast].
  destruct (fixedPoint_exit _ _ _ _ Hfix (loopState_entry _ _ _ Hentry))
    as (Hloop & Hfalse & s1 & Hpass).
  destruct (headsSound_loopState _ _ _ Hloop) as (Hlt & Hlh & Hsound).
  destruct (propagated_loopState _ _ Hloop) as (Hseeds & Hedges & Hclean & Hwhy).
  assert (∀ b block, blocks code !! b = Some (Some block) → b ∉ dirtyBlocks s')
    as Hsettled.
  { intros b blk Hblk Hin. unfold pass in Hpass.
    destruct (countDown_settled _ _ _ _ Hpass Hfalse) as [_ Hbits].
    destruct (Hbits b Hin) as [_ Hnot]. apply Hnot.
    split; [by eapply lookup_lt_Some|by exists blk]. }
  assert (∀ b blk, blocks code !! b = Some (Some blk) →
            ∃ known Tb, m_liveAtHead (engine s') !! b = Some known
              ∧ m_liveAtTail (engine s') !! b = Some Tb) as Hentries.
  { intros b blk Hblk. apply lookup_lt_Some in Hblk.
    destruct (lookup_lt_is_Some_2 (m_liveAtHead (engine s')) b) as [known ->]; [lia|].
    destruct (lookup_lt_is_Some_2 (m_liveAtTail (engine s')) b) as [Tb ->]; [lia|].
    by exists known, Tb. }
  destruct (Hentries _ _ Hb) as (known & T & Hk & HT).
  exists terminal, T. split_and!; [done..|].
  assert (lateUsesOfTerminal block = indicesOf isLateUse terminal) as Hlate
    by (unfold lateUsesOfTerminal; by rewrite Hlast).
  intros x. split.
  - intros Hx.
    destruct (Hwhy _ _ _ HT Hx) as [(blk & Hblk & Hseed)|(sb & succ & ks & Hsb & Hp & Hks & Hxk)].
    + left. assert (blk = block) as -> by congruence. by rewrite <- Hlate.
    + right. destruct (Hentries _ _ Hsb) as (ks' & Ts & Hks' & HTs).
      exists sb, succ, (liveBeforeFirst succ Ts). split_and!; [done..| |].
      * by apply liveAtHeadOf_spec.
      * destruct (Hsound _ _ _ _ Hsb Hks HTs) as [_ Hsub]. by apply Hsub.
  - intros [Hx|(sb & succ & live & Hsb & Hp & Hlive & Hx)].
    + eapply Hseeds; [exact Hb|exact HT|]. by rewrite Hlate.
    + destruct (Hentries _ _ Hsb) as (ks & Ts & Hks & HTs).
      rewrite (liveAtHeadOf_spec code sb succ _ Ts Hsb) in Hlive by done.
      injection Hlive as <-.
      eapply Hedges; [exact Hsb|exact Hks|exact Hp|exact HT|].
      eapply Hclean; [exact Hsb|by eapply Hsettled|exact Hks|exact HTs|exact Hx].
Qed.

(** On a well-formed code the constructor reaches that fixed point. *)
Lemma fixed_point_reached_when_transition_reported code fuel :
  wellFormed code = true →
  length (blocks code) * (N.to_nat (maxIndex code) + 1) < fuel →
  ∃ liveness,
    AbstractLiveness_new quickSetResult fuel code = Ok liveness
    ∧ ∀ blockIndex block,
        blocks code !! blockIndex = Some (Some block) →
        ∃ terminal T,
          last (insts block) = Some terminal
          ∧ liveAtTail liveness blockIndex = Some T
          ∧ ∀ x, x ∈ T ↔
              x ∈ indicesOf isLateUse terminal
              ∨ ∃ succIndex succ live,
                  blocks code !! succIndex = Some (Some succ)
                  ∧ blockIndex ∈ predecessors succ
                  ∧ liveAtHeadOf code succIndex liveness = Some live
                  ∧ x ∈ live.
Proof.
  intros Hwf Hfuel.
  assert (∃ liveness, AbstractLiveness_new quickSetResult fuel code = Ok liveness)
    as [liveness Hnew].
  { unfold AbstractLiveness_new.
    pose proof Hwf as Hwf'. unfold wellFormed in Hwf'.
    apply andb_true_iff in Hwf' as [Hwf' Hrange].
    apply andb_true_iff in Hwf' as [Hterm _].
    destruct (initialState_is_Some code Hterm) as [s0 Hs0]. rewrite Hs0.
    destruct (fixedPoint_terminates quickSetResult code fuel s0 Hwf) as (s' & -> & _);
      [by apply headsSound_entry|by apply tailsBounded_entry|lia|].
    by eexists. }
  exists liveness. split; [done|]. intros blockIndex block.
  by apply (fixed_point_when_transition_reported code fuel).
Qed.

End FixedPoint.

(** ** The adapters *)

Section Adapters.
Context {Role : Type} `{!ArgRoles Role}.

Implicit Types (code : Code Role StackSlot).

Local Abbreviation maxValue := IndexSparseSet.maxValue.

Lemma StackSlotLivenessAdapter_maxIndex_eq (w : Z) (numSlots : nat) :
  (unsignedBits ≤ w)%Z →
  Z.of_N (StackSlotLivenessAdapter_maxIndex w numSlots)
    = ((Z.of_nat numSlots - 1) `mod` 2 ^ unsignedBits)%Z.
Proof.
  intros Hw. unfold StackSlotLivenessAdapter_maxIndex, wrap, unsignedBits in *.
  rewrite Z2N.id by (apply Z.mod_pos_bound; lia).
  apply Z.mod_mod_divide. exists (2 ^ (w - 32))%Z.
  rewrite <- Z.pow_add_r by lia. f_equal. lia.
Qed.

Lemma maxValue_loopState quickSetResult code s :
  loopState quickSetResult code s → maxValue (m_workset (engine s)) = maxIndex code.
Proof.
  induction 1 as [s Hentry|s b s' _ IH Hstep|s _ IH]; [| |done].
  - unfold initialState in Hentry.
    destruct (seedFrom code 0 _ _); [|done]. by injection Hentry as <-.
  - apply processBlock_inv in Hstep
      as [[_ ->]|[(block & _ & _ & He & _ & _)|
                  (block & T & known & ws & _ & _ & _ & _ & _ & Hm & Hcase)]].
    + done.
    + by rewrite He.
    + destruct Hcase as [[_ ->]|[_ Hprop]].
      * simpl. by rewrite removeKnown_maxValue, Hm.
      * apply propagate_spec in Hprop as (_ & -> & _).
        unfold beforePropagate. simpl. by rewrite removeKnown_maxValue, Hm.
Qed.

(** C10. [StackSlotLivenessAdapter::maxIndex] is [size() - 1] reduced
    to an [unsigned]. With at least one slot (a [Vector] holds fewer
    than 2^32 entries) it is the largest index at which [stackSlots()]
    has a slot. With no slot the subtraction wraps, whatever the width
    of [size_t], and the result is 2^32 - 1. In both cases that value is
    the argument from which the workset is constructed, and it stays
    the [maxValue] of the workset of the engine. *)
Theorem stackSlot_maxIndex_wraps code :
  (Z.of_nat (length (stackSlots code)) < 2 ^ unsignedBits)%Z →
  (0 < length (stackSlots code) →
     maxIndex code = N.of_nat (length (stackSlots code) - 1)
     ∧ is_Some (stackSlots code !! N.to_nat (maxIndex code))
     ∧ stackSlots code !! S (N.to_nat (maxIndex code)) = None)
  ∧ (length (stackSlots code) = 0 →
     Z.of_N (maxIndex code) = (2 ^ unsignedBits - 1)%Z
     ∧ ∀ w, (unsignedBits ≤ w)%Z →
         Z.of_N (StackSlotLivenessAdapter_maxIndex w 0) = wrap unsignedBits (-1))
  ∧ m_workset (initialLiveness code) = IndexSparseSet.new (maxIndex code)
  ∧ (∀ quickSetResult fuel liveness,
       AbstractLiveness_new quickSetResult fuel code = Ok liveness →
       maxValue (m_workset liveness) = maxIndex code).
Proof.
  intros Hsize.
  assert (Z.of_N (maxIndex code)
          = ((Z.of_nat (length (stackSlots code)) - 1) `mod` 2 ^ unsignedBits)%Z) as Hmax.
  { simpl. apply StackSlotLivenessAdapter_maxIndex_eq. unfold unsignedBits, sizeBits. lia. }
  split_and!.
  - intros Hpos. rewrite Z.mod_small in Hmax by lia.
    assert (maxIndex code = N.of_nat (length (stackSlots code) - 1)) as Heq by lia.
    split_and!; [done| |].
    + apply lookup_lt_is_Some. lia.
    + apply lookup_ge_None. lia.
  - intros Hzero. rewrite Hzero in Hmax. split; [done|].
    intros w Hw. by rewrite StackSlotLivenessAdapter_maxIndex_eq.
  - done.
  - intros q fuel liveness. unfold AbstractLiveness_new.
    destruct (initialState code) as [s0|] eqn:Hentry; [|done].
    destruct (fixedPoint q fuel code s0) as [s'| |] eqn:Hfix; [|done..].
    intros [= <-]. simpl.
    destruct (fixedPoint_exit _ _ _ _ _ Hfix (loopState_entry _ _ _ Hentry))
      as (Hloop & _).
    by apply (maxValue_loopState q).
Qed.

(** *** The numbering of the things *)

Lemma slotsIndexed_lookup code i slot :
  slotsIndexed code = true → stackSlots code !! i = Some slot → index slot = N.of_nat i.
Proof.
  unfold slotsIndexed. intros Heq%bool_decide_eq_true Hslot.
  assert ((index <$> stackSlots code) !! i = Some (index slot)) as Hi
    by (by rewrite list_lookup_fmap, Hslot).
  rewrite Heq, list_lookup_fmap in Hi.
  destruct (seq 0 (length (stackSlots code)) !! i) as [j|] eqn:Hj; [|done].
  apply lookup_seq in Hj as [-> _]. simpl in Hi. by injection Hi as <-.
Qed.


End Adapters.

(** ** The constructor on the loop of three blocks *)

(** With a [quickSet] that returns the old value of the bit, the first
    turn of the loop over [loopCode] processes block 2 (nothing live),
    then block 1, whose early use of slot 0 goes to the tail set of its
    predecessor, block 2. The bit of block 2 was cleared earlier in the
    turn, so [quickSet] returns false, [changed] stays false and the loop
    ends with block 2 dirty. *)
Example loopCode_first_turn :
  initialState loopCode = Some loopEntry
  ∧ ∃ s1, pass returnsOldValue loopCode loopEntry = Some s1
      ∧ changed s1 = false
      ∧ BitVector.get 2 (dirtyBlocks s1) = true
      ∧ m_liveAtTail (engine s1) = [∅; ∅; {[0%N]}].
Proof.
  split; [vm_compute; reflexivity|].
  eexists. split_and!; [vm_compute; reflexivity..].
Qed.

(** C1. The fixed point is missed when [quickSet] returns the old value
    of the bit. On [loopCode] the constructor returns, whatever the
    number of turns it is allowed; block 2 is a successor of block 0 and
    a local scan of block 2 from the final tail sets finds slot 0 live
    before its first instruction; yet the tail set of block 0 is empty. *)
Theorem fixed_point_missed_when_old_value_returned :
  ∀ fuel, ∃ liveness successor,
    StackSlotLiveness_new returnsOldValue (S fuel) loopCode = Ok liveness
    ∧ blocks loopCode !! 2 = Some (Some successor)
    ∧ 0 ∈ predecessors successor
    ∧ liveAtHeadOf loopCode 2 liveness = Some [0%N]
    ∧ liveAtTail liveness 0 = Some ∅.
Proof.
  intros fuel. eexists _, _. split_and!.
  - vm_compute. reflexivity.
  - reflexivity.
  - simpl. apply elem_of_cons. by left.
  - vm_compute. reflexivity.
  - vm_compute. reflexivity.
Qed.

(** The same code with a [quickSet] that returns whether the bit went
    from clear to set: slot 0 is live at the tail of the three blocks. *)
Example loopCode_when_transition_returned :
  ∃ liveness, StackSlotLiveness_new returnsTransition 4 loopCode = Ok liveness
    ∧ m_liveAtTail liveness = [{[0%N]}; {[0%N]}; {[0%N]}].
Proof.
  eexists. split; vm_compute; reflexivity.
Qed.

(** On [cycleCode] both conventions give the same tail sets: every
    insertion of the first turn goes to a block that is still dirty. *)
Example cycleCode_converges :
  ∃ liveness,
    StackSlotLiveness_new returnsOldValue 4 cycleCode = Ok liveness
    ∧ StackSlotLiveness_new returnsTransition 4 cycleCode = Ok liveness
    ∧ m_liveAtTail liveness = [{[0%N]}; {[0%N]}; {[0%N]}].
Proof.
  eexists. split_and!; vm_compute; reflexivity.
Qed.

(** ** The adapters on concrete codes *)



Lemma stackSlot_maxIndex_wraps_witness :
  (Z.of_nat (length (stackSlots noSlotsCode)) < 2 ^ unsignedBits)%Z
  ∧ Z.of_N (maxIndex noSlotsCode) = (2 ^ unsignedBits - 1)%Z
  ∧ m_workset (initialLiveness noSlotsCode) = IndexSparseSet.new (maxIndex noSlotsCode).
Proof.
  assert (Z.of_nat (length (stackSlots noSlotsCode)) < 2 ^ unsignedBits)%Z as Hsize
    by reflexivity.
  destruct (stackSlot_maxIndex_wraps noSlotsCode Hsize) as (_ & Hzero & Hworkset & _).
  split_and!; [exact Hsize|by apply Hzero|exact Hworkset].
Defined.

(** ** The theorems on concrete codes *)

Lemma execute_step_semantics_witness :
  insts sampleBlock !! 0 = Some [(slot 0, Def, GP); (slot 0, LateUse, GP)]
  ∧ ∃ after', execute sampleBlock 1 sampleLiveness = Some after'
      ∧ 0%N ∈ IndexSparseSet.values (m_workset after').
Proof.
  split; [reflexivity|].
  destruct (execute_step_semantics sampleBlock 0 _ sampleLiveness eq_refl)
    as (_ & _ & _ & Hnext).
  destruct (Hnext sampleLiveness) as (after' & Hafter & Hlate); [simpl; lia|].
  exists after'. split; [exact Hafter|].
  apply Hlate; simpl; apply elem_of_cons; by left.
Defined.

Lemma localScan_idempotent_witness :
  ∃ scanned, localScan sampleCode 0 sampleLiveness = Some scanned
    ∧ localScan sampleCode 0 scanned = Some scanned
    ∧ liveAtHeadOf sampleCode 0 scanned = liveAtHeadOf sampleCode 0 sampleLiveness.
Proof.
  destruct (localScan_idempotent sampleCode sampleCode 0 sampleBlock sampleBlock
              sampleLiveness sampleLiveness {[0%N]} eq_refl eq_refl eq_refl eq_refl eq_refl)
    as (live & scanned & Hlive & _ & Hscan & Hagain & Hsame).
  exists scanned. split_and!; [exact Hscan|exact Hsame|by rewrite Hagain, Hlive].
Defined.

Lemma liveAtTail_stable_witness :
  ∃ liveness', LocalCalc_new sampleLiveness 0 = Some liveness'
    ∧ m_liveAtTail liveness' = m_liveAtTail sampleLiveness.
Proof.
  eexists. split; [reflexivity|].
  by apply (proj1 (liveAtTail_stable sampleLiveness _) 0).
Defined.

Lemma initial_state_seeded_witness :
  blocksTerminated cycleCode = true
  ∧ ∃ s, initialState cycleCode = Some s
      ∧ liveAtTail (engine s) 2 = Some {[0%N]}
      ∧ liveAtTail (engine s) 1 = Some ∅
      ∧ BitVector.get 2 (dirtyBlocks s) = true.
Proof.
  assert (blocksTerminated cycleCode = true) as Hterm by reflexivity.
  split; [exact Hterm|].
  destruct (initial_state_seeded cycleCode Hterm) as (s & Hs & Hseeds & Hdirty).
  exists s. split; [exact Hs|].
  destruct (Hseeds 2 {| insts := [[(slot 0, LateUse, GP)]]; predecessors := [1] |} eq_refl)
    as (terminal2 & Hlast2 & Htail2).
  destruct (Hseeds 1 {| insts := [[]]; predecessors := [0; 2] |} eq_refl)
    as (terminal1 & Hlast1 & Htail1).
  injection Hlast2 as <-. injection Hlast1 as <-.
  split_and!.
  - rewrite Htail2. vm_compute. reflexivity.
  - rewrite Htail1. reflexivity.
  - apply Hdirty. simpl. lia.
Defined.

Lemma constructor_terminates_witness :
  wellFormed loopCode = true
  ∧ ∃ liveness, StackSlotLiveness_new returnsOldValue 4 loopCode = Ok liveness
      ∧ totalLive (m_liveAtTail liveness) ≤ 3.
Proof.
  split; [reflexivity|].
  destruct (constructor_terminates returnsOldValue loopCode 4) as (liveness & Hnew & Hbound);
    [reflexivity|simpl; lia|].
  exists liveness. split; [exact Hnew|exact Hbound].
Defined.

Lemma liveAtHead_sound_witness :
  initialState loopCode = Some loopEntry
  ∧ pass returnsOldValue loopCode loopEntry = Some loopAfterTurn
  ∧ ∃ known live,
      m_liveAtHead (engine loopAfterTurn) !! 1 = Some known
      ∧ liveAtHeadOf loopCode 1 (engine loopAfterTurn) = Some live
      ∧ known = [0%N]
      ∧ NoDup known
      ∧ known ⊆ live
      ∧ filter (λ x, x ∉ known) live = [].
Proof.
  assert (initialState loopCode = Some loopEntry) as Hentry by (vm_compute; reflexivity).
  assert (pass returnsOldValue loopCode loopEntry = Some loopAfterTurn) as Hpass
    by (vm_compute; reflexivity).
  assert (loopState returnsOldValue loopCode loopAfterTurn) as Hloop.
  { apply (countDown_loopState returnsOldValue loopCode _ _ _ Hpass).
    apply loopState_turn. by apply loopState_entry. }
  split; [exact Hentry|]. split; [exact Hpass|].
  destruct (liveAtHead_sound returnsOldValue loopCode loopAfterTurn 1 _ Hloop eq_refl)
    as (known & live & Hk & Hl & Hnd & Hsub & Hsize & _).
  exists known, live.
  assert (known = [0%N]) as Hknown by (by injection Hk as <-).
  assert (live = [0%N]) as Hlive.
  { pose proof Hl as Hl'. vm_compute in Hl'. by injection Hl' as <-. }
  split_and!; [exact Hk|exact Hl|exact Hknown|exact Hnd|exact Hsub|].
  apply Hsize. by rewrite Hknown, Hlive.
Defined.

Lemma predecessor_propagation_witness :
  wellFormed loopCode = true
  ∧ initialState loopCode = Some loopEntry
  ∧ ∃ s1 known live T,
      processBlock returnsOldValue loopCode 1 loopEntry = Some s1
      ∧ m_liveAtHead (engine loopEntry) !! 1 = Some known
      ∧ liveAtHeadOf loopCode 1 (engine loopEntry) = Some live
      ∧ liveAtTail (engine loopEntry) 2 = Some T
      ∧ liveAtTail (engine s1) 2
          = Some (T ∪ list_to_set (filter (λ x, x ∉ known) live)).
Proof.
  assert (initialState loopCode = Some loopEntry) as Hentry by (vm_compute; reflexivity).
  assert (wellFormed loopCode = true) as Hwf by reflexivity.
  split; [exact Hwf|]. split; [exact Hentry|].
  destruct (predecessor_propagation returnsOldValue loopCode loopEntry 1 _ Hwf
              (loopState_entry _ _ _ Hentry) eq_refl eq_refl)
    as (s1 & known & live & Hstep & Hk & Hl & Hpreds).
  destruct (Hpreds 2) as (T & HT & HT' & _); [simpl; apply elem_of_cons; by left|].
  exists s1, known, live, T. by split_and!.
Defined.

(** * Further properties of the liveness engine *)

(** ** The shape of a local scan *)

Section ScanShape.
Context {Role Thing : Type} `{!ArgRoles Role} `{!LivenessAdapter Role Thing}.
Import IndexSparseSet IndexSparseSetFacts.

(** Two scans of the same instructions, from worksets that differ by
    the indices of [K]: they differ by the indices of [K] that none of
    the instructions defines. *)
Lemma countDown_executeOn_split block n (K : N → Prop) w0 w1 w0' w1' :
  countDown (executeOn block) n w0 = Some w0' →
  countDown (executeOn block) n w1 = Some w1' →
  (∀ x, x ∈ values w1 ↔ x ∈ values w0 ∨ K x) →
  ∀ x, x ∈ values w1' ↔
    x ∈ values w0'
    ∨ (K x ∧ ∀ i inst, i < n → insts block !! i = Some inst → x ∉ indicesOf isDef inst).
Proof.
  revert K w0 w1. induction n as [|n IH]; intros K w0 w1; simpl.
  - intros [= <-] [= <-] HK x. rewrite HK. split; [|tauto].
    intros [?|?]; [by left|right]. split; [done|]. intros; lia.
  - destruct (executeOn block n w0) as [v0|] eqn:H0; [|done].
    destruct (executeOn block n w1) as [v1|] eqn:H1; [|done]. simpl.
    intros Hr0 Hr1 HK x.
    destruct (executeOn_Some_inst _ _ _ _ H0) as [inst Hinst].
    rewrite (IH (λ x, K x ∧ x ∉ indicesOf isDef inst) v0 v1 Hr0 Hr1).
    + split.
      * intros [?|[[HKx Hd] Hrest]]; [by left|right]. split; [done|].
        intros i inst' Hi Hi'.
        destruct (decide (i = n)) as [->|]; [congruence|]. apply (Hrest i); [lia|done].
      * intros [?|[HKx Hrest]]; [by left|right].
        split; [split; [done|by apply (Hrest n); [lia|]]|].
        intros i inst' Hi. apply Hrest. lia.
    + intros y. rewrite (executeOn_elem _ _ _ _ _ y Hinst H1).
      rewrite (executeOn_elem _ _ _ _ _ y Hinst H0). rewrite HK. tauto.
Qed.

Lemma liveBeforeFirst_split block (T : gset N) x :
  x ∈ liveBeforeFirst block T ↔
    x ∈ liveBeforeFirst block ∅
    ∨ (x ∈ T ∧ ∀ inst, inst ∈ insts block → x ∉ indicesOf isDef inst).
Proof.
  destruct (scanOn_liveBeforeFirst block (new 0) T) as (w1 & H1 & <- & _).
  destruct (scanOn_liveBeforeFirst block (new 0) ∅) as (w0 & H0 & <- & _).
  unfold scanOn in *.
  rewrite (countDown_executeOn_split _ _ (λ x, x ∈ T) _ _ _ _ H0 H1).
  - split; (intros [?|[HT Hd]]; [by left|right]); (split; [done|]).
    + intros inst Hin.
      apply list_elem_of_lookup in Hin as [i Hi]. apply (Hd i); [|done]. by eapply lookup_lt_Some.
    + intros i inst _ Hi. apply Hd. by eapply list_elem_of_lookup_2.
  - intros y. rewrite !values_fill, elements_empty. set_goal.
Qed.

(** The last turn of [for (i = n; i--;)] is the one for index 0. *)
Lemma countDown_last {S : Type} (body : nat → S → option S) n s :
  countDown body (Datatypes.S n) s = countDown (λ i, body (Datatypes.S i)) n s ≫= body 0.
Proof.
  revert s. induction n as [|n IH]; intros s.
  - simpl. by destruct (body 0 s).
  - change (countDown body (Datatypes.S (Datatypes.S n)) s)
      with (body (Datatypes.S n) s ≫= countDown body (Datatypes.S n)).
    simpl. destruct (body (Datatypes.S n) s) as [s1|]; [|done]. simpl. apply IH.
Qed.

(** X1. A local scan is a transfer function of the classical form: what
    it finds live before the first instruction of a block, from the tail
    set [T], is what it finds from the empty tail set together with the
    indices of [T] that no instruction of the block defines. So the scan
    of a block never depends on more of the tail set than the indices
    the block leaves alone. *)
Theorem scan_transfer_function code blockIndex block liveness bare (T : gset N) :
  blocks code !! blockIndex = Some (Some block) →
  m_liveAtTail liveness !! blockIndex = Some T →
  m_liveAtTail bare !! blockIndex = Some ∅ →
  ∃ live generated,
    liveAtHeadOf code blockIndex liveness = Some live
    ∧ liveAtHeadOf code blockIndex bare = Some generated
    ∧ ∀ x, x ∈ live ↔
        x ∈ generated
        ∨ (x ∈ T ∧ ∀ inst, inst ∈ insts block → x ∉ indicesOf isDef inst).
Proof.
  intros Hb HT Hbare. exists (liveBeforeFirst block T), (liveBeforeFirst block ∅).
  split_and!; [by apply liveAtHeadOf_spec..|]. apply liveBeforeFirst_split.
Qed.

(** X2. The first instruction of a block has the last word on what is
    live before it: every index it uses early is live there, whatever
    the tail set, and an index it defines without using it early is
    not, even when the tail set or a later instruction asks for it. *)
Theorem first_instruction_decides code blockIndex block first liveness (T : gset N) :
  blocks code !! blockIndex = Some (Some block) →
  insts block !! 0 = Some first →
  m_liveAtTail liveness !! blockIndex = Some T →
  ∃ live,
    liveAtHeadOf code blockIndex liveness = Some live
    ∧ (∀ x, x ∈ indicesOf isEarlyUse first → x ∈ live)
    ∧ (∀ x, x ∈ indicesOf isDef first → x ∉ indicesOf isEarlyUse first → x ∉ live).
Proof.
  intros Hb Hfirst HT. exists (liveBeforeFirst block T).
  split; [by apply liveAtHeadOf_spec|].
  destruct (scanOn_liveBeforeFirst block (new 0) T) as (w & Hscan & <- & _).
  unfold scanOn in Hscan.
  destruct (length (insts block)) as [|n] eqn:Hlen.
  { apply lookup_lt_Some in Hfirst. lia. }
  rewrite countDown_last in Hscan.
  destruct (countDown _ n _) as [w1|]; [|done]. simpl in Hscan.
  pose proof (λ x, executeOn_elem _ _ _ _ _ x Hfirst Hscan) as Helem. simpl in Helem.
  split; intros x; rewrite Helem; clear; set_solver.
Qed.

(** X3. The indices that a local scan finds do not depend on the
    order in which the hash set [liveAtTail] is iterated when the
    workset is filled: for every order of the indices of the tail set
    the scan of the block ends, and its workset holds, without
    duplicates, the same indices as for the order of [elements]. *)
Theorem scan_ignores_iteration_order block workset (T : gset N) order :
  order ≡ₚ elements T →
  ∃ scanned,
    scanOn block (fillFrom order workset) = Some scanned
    ∧ values scanned ≡ₚ liveBeforeFirst block T.
Proof.
  intros Horder.
  assert (values (fillFrom order workset) = order) as Hfill.
  { unfold fillFrom. rewrite foldl_add_fresh; [done| |].
    - rewrite Horder. apply NoDup_elements.
    - intros x _. apply not_elem_of_nil. }
  destruct (countDown_executeOn_is_Some block (length (insts block))
              (fillFrom order workset)) as [scanned Hscan]; [done|].
  destruct (scanOn_liveBeforeFirst block (new 0) T) as (reference & Href & <- & _).
  exists scanned. split; [exact Hscan|]. unfold scanOn in Href.
  apply NoDup_Permutation.
  - eapply countDown_executeOn_NoDup; [exact Hscan|]. rewrite Hfill, Horder.
    apply NoDup_elements.
  - eapply countDown_executeOn_NoDup; [exact Href|]. rewrite values_fill.
    apply NoDup_elements.
  - intros x. split.
    + apply (countDown_executeOn_mono _ _ _ _ _ _) with (3 := Href) (2 := Hscan).
      rewrite Hfill, values_fill. intros y. by rewrite Horder.
    + apply (countDown_executeOn_mono _ _ _ _ _ _) with (2 := Href) (3 := Hscan).
      rewrite Hfill, values_fill. intros y. by rewrite Horder.
Qed.

End ScanShape.

(** ** Operands of the other domains *)

Section Isolation.
Context {Role Thing : Type} `{!ArgRoles Role} `{!LivenessAdapter Role Thing}.
Variable quickSetResult : bool → bool.

Local Abbreviation own :=
  (filter (λ operand : Thing * Role * ArgType, acceptsType operand.2 = true)).

Lemma forEach_own {S : Type} (functor : Thing → Role → ArgType → S → S)
    (inst : Inst Role Thing) (s : S) :
  (∀ thing role type s, acceptsType type = false → functor thing role type s = s) →
  forEach functor (own inst) s = forEach functor inst s.
Proof.
  intros Hskip. unfold forEach. revert s.
  induction inst as [|[[thing role] type] inst IH]; intros s; [done|].
  rewrite filter_cons. simpl. destruct (acceptsType type) eqn:Htype.
  - rewrite decide_True by done. simpl. apply IH.
  - rewrite decide_False by done. rewrite Hskip by done. apply IH.
Qed.

Lemma removeDef_skip thing role type (workset : IndexSparseSet.t) :
  acceptsType type = false → removeDef thing role type workset = workset.
Proof. intros Htype. unfold removeDef. by rewrite Htype, andb_false_r. Qed.

Lemma addUse_skip isUse thing role type (workset : IndexSparseSet.t) :
  acceptsType type = false → addUse isUse thing role type workset = workset.
Proof. intros Htype. unfold addUse. by rewrite Htype, andb_false_r. Qed.

Lemma addLateUse_skip thing role type (set : gset N) :
  acceptsType type = false → addLateUse thing role type set = set.
Proof. intros Htype. unfold addLateUse. by rewrite Htype, andb_false_r. Qed.

Lemma executeOn_ownOperands block instIndex workset :
  executeOn (ownOperands block) instIndex workset = executeOn block instIndex workset.
Proof.
  unfold executeOn, ownOperands. simpl. rewrite !list_lookup_fmap.
  destruct (insts block !! instIndex) as [inst|]; [|done]. simpl.
  rewrite !forEach_own by (intros; by apply removeDef_skip || by apply addUse_skip).
  case_bool_decide; [|done].
  destruct (insts block !! (instIndex - 1)) as [prev|]; [|done]. simpl.
  by rewrite forEach_own by (intros; by apply addUse_skip).
Qed.

Lemma countDown_ext {S : Type} (body1 body2 : nat → S → option S) n s :
  (∀ i s, body1 i s = body2 i s) → countDown body1 n s = countDown body2 n s.
Proof.
  intros Hext. revert s. induction n as [|n IH]; intros s; [done|]. simpl.
  rewrite Hext. destruct (body2 n s); [|done]. simpl. apply IH.
Qed.

Lemma execute_ownOperands block instIndex liveness :
  execute (ownOperands block) instIndex liveness = execute block instIndex liveness.
Proof. unfold execute. by rewrite executeOn_ownOperands. Qed.

Lemma lookup_ownCode code blockIndex :
  blocks (ownCode code) !! blockIndex = fmap ownOperands <$> blocks code !! blockIndex.
Proof. unfold ownCode. simpl. by rewrite list_lookup_fmap. Qed.

Lemma processBlock_ownCode code blockIndex s :
  processBlock quickSetResult (ownCode code) blockIndex s
    = processBlock quickSetResult code blockIndex s.
Proof.
  unfold processBlock. rewrite lookup_ownCode.
  destruct (blocks code !! blockIndex) as [[block|]|]; [|done..]. simpl.
  destruct (negb _); [done|].
  destruct (LocalCalc_new (engine s) blockIndex) as [calc|]; [|done]. simpl.
  rewrite length_fmap.
  rewrite (countDown_ext (execute (ownOperands block)) (execute block))
    by apply execute_ownOperands.
  done.
Qed.

Lemma seedBlock_ownCode code blockIndex liveAtTails :
  seedBlock (ownCode code) blockIndex liveAtTails = seedBlock code blockIndex liveAtTails.
Proof.
  unfold seedBlock. rewrite lookup_ownCode.
  destruct (blocks code !! blockIndex) as [[block|]|]; [|done..]. simpl.
  destruct (liveAtTails !! blockIndex) as [T|]; [|done]. simpl.
  rewrite fmap_last. destruct (last (insts block)) as [terminal|]; [|done]. simpl.
  by rewrite forEach_own by (intros; by apply addLateUse_skip).
Qed.

Lemma seedFrom_ownCode code blockIndex count liveAtTails :
  seedFrom (ownCode code) blockIndex count liveAtTails
    = seedFrom code blockIndex count liveAtTails.
Proof.
  revert blockIndex liveAtTails. induction count as [|count IH]; intros b tails; [done|].
  simpl. rewrite seedBlock_ownCode. destruct (seedBlock code b tails); [|done]. simpl.
  apply IH.
Qed.

Lemma initialState_ownCode code :
  maxIndex (ownCode code) = maxIndex code →
  initialState (ownCode code) = initialState code.
Proof.
  intros Hmax. unfold initialState, initialLiveness, allDirty. simpl.
  rewrite !length_fmap, seedFrom_ownCode, Hmax. done.
Qed.

Lemma fixedPoint_ownCode code fuel s :
  fixedPoint quickSetResult fuel (ownCode code) s = fixedPoint quickSetResult fuel code s.
Proof.
  revert s. induction fuel as [|fuel IH]; intros s; [done|]. simpl.
  unfold pass. simpl. rewrite length_fmap.
  rewrite (countDown_ext (processBlock quickSetResult (ownCode code))
             (processBlock quickSetResult code)) by apply processBlock_ownCode.
  destruct (countDown _ _ _) as [s1|]; [|done].
  destruct (changed s1); [apply IH|done].
Qed.

(** X4. The domains do not see each other: an engine gives the same
    result, and a local scan the same workset, when every operand whose
    type its adapter does not accept is taken out of the code. The
    premiss holds for both adapters of AirLiveness.h, whose [maxIndex]
    does not look at the blocks. *)
Theorem other_domains_ignored code fuel :
  maxIndex (ownCode code) = maxIndex code →
  AbstractLiveness_new quickSetResult fuel (ownCode code)
    = AbstractLiveness_new quickSetResult fuel code
  ∧ ∀ blockIndex liveness,
      localScan (ownCode code) blockIndex liveness = localScan code blockIndex liveness.
Proof.
  intros Hmax. split.
  - unfold AbstractLiveness_new. rewrite initialState_ownCode by done.
    destruct (initialState code); [|done]. by rewrite fixedPoint_ownCode.
  - intros b l. unfold localScan. rewrite lookup_ownCode.
    destruct (blocks code !! b) as [[block|]|]; [|done..]. simpl.
    destruct (LocalCalc_new l b); [|done]. simpl. rewrite length_fmap.
    apply countDown_ext, execute_ownOperands.
Qed.

End Isolation.

(** ** What the loop keeps, whatever [quickSet] returns *)

Section Exit.
Context {Role Thing : Type} `{!ArgRoles Role} `{!LivenessAdapter Role Thing}.
Variable quickSetResult : bool → bool.

Local Abbreviation values := IndexSparseSet.values.

Lemma entries_loopState code s blockIndex :
  loopState quickSetResult code s → blockIndex < length (blocks code) →
  ∃ known T, m_liveAtHead (engine s) !! blockIndex = Some known
    ∧ m_liveAtTail (engine s) !! blockIndex = Some T.
Proof.
  intros Hloop Hlt. destruct (headsSound_loopState _ _ _ Hloop) as (Hlt' & Hlh & _).
  destruct (lookup_lt_is_Some_2 (m_liveAtHead (engine s)) blockIndex) as [known ->]; [lia|].
  destruct (lookup_lt_is_Some_2 (m_liveAtTail (engine s)) blockIndex) as [T ->]; [lia|].
  by exists known, T.
Qed.

Lemma processBlock_grows code blockIndex s s' :
  processBlock quickSetResult code blockIndex s = Some s' →
  (∀ b T, m_liveAtTail (engine s) !! b = Some T →
     ∃ T', m_liveAtTail (engine s') !! b = Some T' ∧ T ⊆ T')
  ∧ (∀ b known, m_liveAtHead (engine s) !! b = Some known →
       ∃ known', m_liveAtHead (engine s') !! b = Some known' ∧ known `prefix_of` known').
Proof.
  intros Hstep.
  apply processBlock_inv in Hstep
    as [[Hnull ->]|[(block & Hb & Hclean & He & Hd & Hc)|
                    (block & T & known & ws & Hb & Hdirty & HT & Hk & Hv & Hm & Hcase)]].
  - split; intros b X HX; by exists X.
  - rewrite He. split; intros b X HX; by exists X.
  - destruct Hcase as [[_ ->]|[_ Hprop]].
    + simpl. split; intros b X HX; by exists X.
    + apply propagate_spec in Hprop as (Hh & _ & _ & Ht & _).
      unfold beforePropagate in Hh, Ht. simpl in Hh, Ht. split.
      * intros b X HX. rewrite Ht, HX. simpl.
        destruct (decide (b ∈ predecessors block)); eexists; (split; [done|]); set_goal.
      * intros b X HX. rewrite Hh.
        destruct (decide (b = blockIndex)) as [->|Hne].
        -- rewrite list_lookup_insert_eq by (by eapply lookup_lt_Some).
           assert (X = known) as -> by congruence.
           eexists. split; [done|]. by apply prefix_app_r.
        -- rewrite list_lookup_insert_ne by done. by exists X.
Qed.

Lemma countDown_grows code n s s' :
  countDown (processBlock quickSetResult code) n s = Some s' →
  (∀ b T, m_liveAtTail (engine s) !! b = Some T →
     ∃ T', m_liveAtTail (engine s') !! b = Some T' ∧ T ⊆ T')
  ∧ (∀ b known, m_liveAtHead (engine s) !! b = Some known →
       ∃ known', m_liveAtHead (engine s') !! b = Some known' ∧ known `prefix_of` known').
Proof.
  revert s. induction n as [|n IH]; intros s; simpl.
  - intros [= <-]. split; intros b X HX; by exists X.
  - destruct (processBlock quickSetResult code n s) as [s1|] eqn:Hstep; [|done]. simpl.
    intros Hrest. destruct (processBlock_grows _ _ _ _ Hstep) as [Ht1 Hh1].
    destruct (IH _ Hrest) as [Ht2 Hh2]. split.
    + intros b T HT. destruct (Ht1 _ _ HT) as (T1 & HT1 & Hsub1).
      destruct (Ht2 _ _ HT1) as (T2 & HT2 & Hsub2). exists T2. split; [done|].
      clear -Hsub1 Hsub2. set_solver.
    + intros b X HX. destruct (Hh1 _ _ HX) as (X1 & HX1 & Hsub1).
      destruct (Hh2 _ _ HX1) as (X2 & HX2 & Hsub2). exists X2. split; [done|].
      by etrans.
Qed.

Lemma processBlock_lengths code blockIndex s s' :
  processBlock quickSetResult code blockIndex s = Some s' →
  length (m_liveAtTail (engine s')) = length (m_liveAtTail (engine s))
  ∧ length (m_liveAtHead (engine s')) = length (m_liveAtHead (engine s)).
Proof.
  intros Hstep.
  apply processBlock_inv in Hstep
    as [[Hnull ->]|[(block & Hb & Hclean & He & Hd & Hc)|
                    (block & T & known & ws & Hb & Hdirty & HT & Hk & Hv & Hm & Hcase)]].
  - done.
  - by rewrite He.
  - destruct Hcase as [[_ ->]|[_ Hprop]]; [done|].
    apply propagate_spec in Hprop as (Hh & _ & Hlen & _).
    unfold beforePropagate in Hh, Hlen. simpl in Hh, Hlen.
    split; [exact Hlen|]. rewrite Hh. apply length_insert.
Qed.

Lemma countDown_lengths code n s s' :
  countDown (processBlock quickSetResult code) n s = Some s' →
  length (m_liveAtTail (engine s')) = length (m_liveAtTail (engine s))
  ∧ length (m_liveAtHead (engine s')) = length (m_liveAtHead (engine s)).
Proof.
  revert s. induction n as [|n IH]; intros s; simpl; [by intros [= <-]|].
  destruct (processBlock quickSetResult code n s) as [s1|] eqn:Hstep; [|done]. simpl.
  intros Hrest. destruct (processBlock_lengths _ _ _ _ Hstep) as [Ht1 Hh1].
  destruct (IH _ Hrest) as [Ht2 Hh2]. split; congruence.
Qed.

(** X5. A turn of the fixed-point loop only adds: every tail set keeps
    the indices it has, and what [liveAtHead] records for a block is
    only ever extended at its end. Nothing is taken back from either
    map, and both maps keep their number of entries, so that no entry
    appears or goes. *)
Theorem turn_only_adds code s s' :
  pass quickSetResult code s = Some s' →
  length (m_liveAtTail (engine s')) = length (m_liveAtTail (engine s))
  ∧ length (m_liveAtHead (engine s')) = length (m_liveAtHead (engine s))
  ∧ (∀ blockIndex T, liveAtTail (engine s) blockIndex = Some T →
       ∃ T', liveAtTail (engine s') blockIndex = Some T' ∧ T ⊆ T')
  ∧ (∀ blockIndex known, m_liveAtHead (engine s) !! blockIndex = Some known →
       ∃ known', m_liveAtHead (engine s') !! blockIndex = Some known'
         ∧ known `prefix_of` known')
  ∧ (∀ blockIndex, liveAtTail (engine s) blockIndex = None →
       liveAtTail (engine s') blockIndex = None)
  ∧ (∀ blockIndex, m_liveAtHead (engine s) !! blockIndex = None →
       m_liveAtHead (engine s') !! blockIndex = None).
Proof.
  unfold pass, liveAtTail. intros Hpass.
  destruct (countDown_lengths _ _ _ _ Hpass) as [Ht Hh]. simpl in Ht, Hh.
  destruct (countDown_grows _ _ _ _ Hpass) as [Htails Hheads]. simpl in Htails, Hheads.
  split_and!; [exact Ht|exact Hh|exact Htails|exact Hheads| |].
  - intros b Hnone. apply lookup_ge_None. apply lookup_ge_None in Hnone. lia.
  - intros b Hnone. apply lookup_ge_None. apply lookup_ge_None in Hnone. lia.
Qed.

(** X6. Whatever [quickSet] returns, the engine that the constructor
    returns reports nothing without a reason: the tail set of a block
    holds the accepted late uses of its terminal, and every index in it
    is one of those or is live before the first instruction of a
    successor, as a local scan of the successor finds from the final
    tail sets. *)
Theorem tail_entries_justified code fuel liveness blockIndex block :
  AbstractLiveness_new quickSetResult fuel code = Ok liveness →
  blocks code !! blockIndex = Some (Some block) →
  ∃ terminal T,
    last (insts block) = Some terminal
    ∧ liveAtTail liveness blockIndex = Some T
    ∧ (∀ x, x ∈ indicesOf isLateUse terminal → x ∈ T)
    ∧ (∀ x, x ∈ T →
         x ∈ indicesOf isLateUse terminal
         ∨ ∃ succIndex succ live,
             blocks code !! succIndex = Some (Some succ)
             ∧ blockIndex ∈ predecessors succ
             ∧ liveAtHeadOf code succIndex liveness = Some live
             ∧ x ∈ live).
Proof.
  unfold AbstractLiveness_new.
  destruct (initialState code) as [s0|] eqn:Hentry; [|done].
  destruct (fixedPoint quickSetResult fuel code s0) as [s'| |] eqn:Hfix; [|done..].
  intros [= <-] Hb. unfold liveAtTail. simpl.
  destruct (initialState_terminal _ _ _ _ Hentry Hb) as [terminal Hlast].
  destruct (fixedPoint_exit _ _ _ _ _ Hfix (loopState_entry _ _ _ Hentry))
    as (Hloop & _ & _).
  destruct (headsSound_loopState _ _ _ Hloop) as (_ & _ & Hsound).
  destruct (propagated_loopState _ _ _ Hloop) as (Hseeds & _ & _ & Hwhy).
  destruct (entries_loopState code s' blockIndex Hloop) as (known & T & Hk & HT);
    [by eapply lookup_lt_Some|].
  exists terminal, T. split_and!; [done..| |].
  - intros x Hx. eapply Hseeds; [exact Hb|exact HT|].
    unfold lateUsesOfTerminal. by rewrite Hlast.
  - intros x Hx.
    destruct (Hwhy _ _ _ HT Hx) as [(blk & Hblk & Hseed)|(sb & succ & ks & Hsb & Hp & Hks & Hxk)].
    + left. assert (blk = block) as -> by congruence.
      unfold lateUsesOfTerminal in Hseed. by rewrite Hlast in Hseed.
    + right. destruct (entries_loopState code s' sb Hloop) as (ks' & Ts & Hks' & HTs);
        [by eapply lookup_lt_Some|].
      exists sb, succ, (liveBeforeFirst succ Ts). split_and!; [done..| |].
      * by apply liveAtHeadOf_spec.
      * destruct (Hsound _ _ _ _ Hsb Hks HTs) as [_ Hsub]. by apply Hsub.
Qed.

(** *** A block without instructions *)

Lemma seedFrom_empty_block code blockIndex count liveAtTails j block :
  blockIndex ≤ j < blockIndex + count →
  blocks code !! j = Some (Some block) →
  insts block = [] →
  seedFrom code blockIndex count liveAtTails = None.
Proof.
  revert blockIndex liveAtTails. induction count as [|count IH]; intros b tails Hj Hb Hempty;
    [lia|].
  simpl. destruct (seedBlock code b tails) as [tails'|] eqn:Hseed; [|done]. simpl.
  destruct (decide (j = b)) as [->|Hne].
  - unfold seedBlock in Hseed. rewrite Hb, Hempty in Hseed.
    by destruct (tails !! b).
  - apply IH; [lia|done..].
Qed.

(** X7. A block without instructions stops the constructor: it reads
    [block->last()] of the empty block while it seeds the tail sets,
    before the loop is entered, whatever [quickSet] returns. *)
Theorem empty_block_traps code fuel blockIndex block :
  blocks code !! blockIndex = Some (Some block) →
  insts block = [] →
  initialState code = None
  ∧ AbstractLiveness_new quickSetResult fuel code = Trap.
Proof.
  intros Hb Hempty.
  assert (initialState code = None) as Hnone.
  { unfold initialState.
    rewrite (seedFrom_empty_block code 0 _ _ blockIndex block); [done| |done..].
    apply lookup_lt_Some in Hb. lia. }
  split; [exact Hnone|]. unfold AbstractLiveness_new. by rewrite Hnone.
Qed.

(** *** The result lies below every solution *)

Lemma below_entry code solution s :
  solves code solution → initialState code = Some s → below s solution.
Proof.
  intros [Hseeds _]. unfold initialState.
  destruct (seedFrom code 0 _ _) as [tails|] eqn:Hseed; [|done].
  intros [= <-] b T HT. simpl in HT.
  assert (b < length (blocks code)) as Hlt.
  { apply lookup_lt_Some in HT. apply seedFrom_length in Hseed.
    simpl in Hseed. rewrite length_replicate in Hseed. lia. }
  destruct (blocks code !! b) as [[block|]|] eqn:Hb.
  - destruct (seedFrom_inside _ _ _ _ _ b block ∅ Hseed)
      as (terminal & Hlast & HT'); [lia|done|simpl; by apply lookup_replicate_2|].
    assert (T = ∅ ∪ list_to_set (indicesOf isLateUse terminal)) as -> by congruence.
    intros x Hx. apply (Hseeds b block x Hb). unfold lateUsesOfTerminal. rewrite Hlast.
    simpl. clear -Hx. set_solver.
  - rewrite (seedFrom_outside _ _ _ _ _ b Hseed) in HT by (right; congruence).
    simpl in HT. apply lookup_replicate in HT as [-> _]. set_goal.
  - apply lookup_ge_None in Hb. lia.
Qed.

Lemma below_processBlock code solution blockIndex s s' :
  solves code solution → below s solution →
  processBlock quickSetResult code blockIndex s = Some s' → below s' solution.
Proof.
  intros [_ Hedges] Hbelow Hstep.
  apply processBlock_inv in Hstep
    as [[Hnull ->]|[(block & Hb & Hclean & He & Hd & Hc)|
                    (block & T & known & ws & Hb & Hdirty & HT & Hk & Hv & Hm & Hcase)]].
  - done.
  - unfold below. by rewrite He.
  - destruct Hcase as [[_ ->]|[_ Hprop]]; [done|].
    apply propagate_spec in Hprop as (_ & _ & _ & Ht & _).
    unfold beforePropagate in Ht. simpl in Ht.
    intros p Tp. rewrite Ht.
    destruct (m_liveAtTail (engine s) !! p) as [Tp0|] eqn:HTp0; [|done]. simpl.
    intros [= <-]. pose proof (Hbelow p Tp0 HTp0) as Hsub.
    destruct (decide (p ∈ predecessors block)) as [Hp|]; [|done].
    intros x Hx. apply elem_of_union in Hx as [Hx|Hx]; [by apply Hsub|].
    apply elem_of_list_to_set in Hx. apply removeKnown_subseteq in Hx. rewrite Hv in Hx.
    apply (Hedges blockIndex block p x Hb Hp).
    by apply (liveBeforeFirst_mono block T (solution blockIndex) (Hbelow _ _ HT)).
Qed.

Lemma below_loopState code solution s :
  solves code solution → loopState quickSetResult code s → below s solution.
Proof.
  intros Hsolves. induction 1 as [s Hentry|s b s' Hloop IH Hstep|s _ IH].
  - by eapply below_entry.
  - by eapply below_processBlock.
  - exact IH.
Qed.

(** X8. Whatever [quickSet] returns, the engine that the constructor
    returns lies below every solution of the liveness constraints: if an
    assignment of sets to the blocks holds the late uses of every
    terminal and, along every edge, what is live before the first
    instruction of the successor, then it holds every tail set of the
    engine. The engine never reports an index that some solution does
    without. *)
Theorem result_below_every_solution code fuel liveness solution blockIndex T :
  AbstractLiveness_new quickSetResult fuel code = Ok liveness →
  solves code solution →
  liveAtTail liveness blockIndex = Some T →
  T ⊆ solution blockIndex.
Proof.
  unfold AbstractLiveness_new.
  destruct (initialState code) as [s0|] eqn:Hentry; [|done].
  destruct (fixedPoint quickSetResult fuel code s0) as [s'| |] eqn:Hfix; [|done..].
  intros [= <-] Hsolves. unfold liveAtTail. simpl. intros HT.
  destruct (fixedPoint_exit _ _ _ _ _ Hfix (loopState_entry _ _ _ Hentry)) as (Hloop & _).
  by apply (below_loopState code solution s' Hsolves Hloop).
Qed.

End Exit.

(** ** Codes whose edges all go forward *)

Section Forward.
Context {Role Thing : Type} `{!ArgRoles Role} `{!LivenessAdapter Role Thing}.
Variable quickSetResult : bool → bool.

Local Abbreviation values := IndexSparseSet.values.

Lemma forwardEdges_lookup (code : Code Role Thing) blockIndex block p :
  forwardEdges code = true →
  blocks code !! blockIndex = Some (Some block) →
  p ∈ predecessors block → p < blockIndex.
Proof.
  unfold forwardEdges. intros Hall Hb Hp.
  eapply (forallb_lookup id _ blockIndex) in Hall;
    [|by rewrite list_lookup_imap, Hb]. simpl in Hall.
  rewrite forallb_forall in Hall. apply list_elem_of_In, Hall in Hp.
  by apply bool_decide_eq_true in Hp.
Qed.

(** The bits that the processing of a block leaves set: those that were
    set, but its own, and those of its predecessors. *)
Lemma processBlock_dirty code blockIndex s s' p :
  processBlock quickSetResult code blockIndex s = Some s' →
  p ∈ dirtyBlocks s' →
  (p ∈ dirtyBlocks s
   ∧ ¬ (p = blockIndex ∧ ∃ block, blocks code !! blockIndex = Some (Some block)))
  ∨ ∃ block, blocks code !! blockIndex = Some (Some block) ∧ p ∈ predecessors block.
Proof.
  intros Hstep Hp.
  apply processBlock_inv in Hstep
    as [[Hnull ->]|[(block & Hb & Hclean & He & Hd & Hc)|
                    (block & T & known & ws & Hb & Hdirty & HT & Hk & Hv & Hm & Hcase)]].
  - left. split; [done|]. intros (_ & block & Hb). congruence.
  - left. rewrite Hd in Hp. split; [done|]. intros [-> _]. done.
  - destruct Hcase as [[_ ->]|[_ Hprop]].
    + simpl in Hp. left. clear -Hp. set_solver.
    + apply propagate_spec in Hprop as (_ & _ & _ & _ & Hbits & _).
      apply Hbits in Hp as [Hp|[Hp _]].
      * unfold beforePropagate in Hp. simpl in Hp. left. clear -Hp. set_solver.
      * right. by exists block.
Qed.

(** With forward edges a block that has been processed stays clean for
    the rest of the turn. *)
Lemma countDown_forward_clean code n s s' :
  forwardEdges code = true →
  countDown (processBlock quickSetResult code) n s = Some s' →
  (∀ b block, blocks code !! b = Some (Some block) → b < n → b ∉ dirtyBlocks s')
  ∧ (∀ p, n ≤ p → p ∈ dirtyBlocks s' → p ∈ dirtyBlocks s).
Proof.
  intros Hfwd. revert s. induction n as [|n IH]; intros s; simpl.
  - intros [= <-]. split; [intros; lia|done].
  - destruct (processBlock quickSetResult code n s) as [s1|] eqn:Hstep; [|done]. simpl.
    intros Hrest. destruct (IH _ Hrest) as [Hlow Hhigh].
    assert (∀ p, n ≤ p → p ∈ dirtyBlocks s1 →
              p ∈ dirtyBlocks s
              ∧ ¬ (p = n ∧ ∃ block, blocks code !! n = Some (Some block))) as Hstep1.
    { intros p Hle Hp.
      destruct (processBlock_dirty _ _ _ _ _ Hstep Hp) as [?|(block & Hb & Hpred)]; [done|].
      pose proof (forwardEdges_lookup _ _ _ _ Hfwd Hb Hpred). lia. }
    split.
    + intros b block Hb Hlt Hin.
      destruct (decide (b = n)) as [->|Hne]; [|by apply (Hlow b block); [|lia|]].
      apply Hhigh in Hin; [|lia]. apply Hstep1 in Hin as [_ Hnot]; [|lia].
      apply Hnot. split; [done|by exists block].
    + intros p Hle Hp. apply Hhigh in Hp; [|lia]. apply Hstep1 in Hp as [Hp _]; [done|lia].
Qed.

(** A turn over blocks that are all clean changes nothing. *)
Lemma countDown_clean code n s s' :
  (∀ b block, blocks code !! b = Some (Some block) → b < n → b ∉ dirtyBlocks s) →
  countDown (processBlock quickSetResult code) n s = Some s' →
  engine s' = engine s ∧ dirtyBlocks s' = dirtyBlocks s ∧ changed s' = changed s.
Proof.
  revert s. induction n as [|n IH]; intros s Hclean; simpl.
  - by intros [= <-].
  - destruct (processBlock quickSetResult code n s) as [s1|] eqn:Hstep; [|done]. simpl.
    intros Hrest.
    assert (engine s1 = engine s ∧ dirtyBlocks s1 = dirtyBlocks s ∧ changed s1 = changed s)
      as (He & Hd & Hc).
    { apply processBlock_inv in Hstep
        as [[Hnull ->]|[(block & Hb & Hcl & He & Hd & Hc)|
                        (block & T & known & ws & Hb & Hdirty & _)]]; [done..|].
      destruct (Hclean n block Hb); [lia|done]. }
    destruct (IH s1) as (He' & Hd' & Hc'); [|done|].
    + intros b block Hb Hlt. rewrite Hd. apply (Hclean b block Hb). lia.
    + split_and!; congruence.
Qed.

(** A state of the loop in which every block is clean is a fixed point. *)
Lemma fixed_point_of_clean_exit code s blockIndex block :
  loopState quickSetResult code s →
  (∀ b blk, blocks code !! b = Some (Some blk) → b ∉ dirtyBlocks s) →
  blocks code !! blockIndex = Some (Some block) →
  ∃ T, m_liveAtTail (engine s) !! blockIndex = Some T
    ∧ ∀ x, x ∈ T ↔
        x ∈ lateUsesOfTerminal block
        ∨ ∃ succIndex succ Ts,
            blocks code !! succIndex = Some (Some succ)
            ∧ blockIndex ∈ predecessors succ
            ∧ m_liveAtTail (engine s) !! succIndex = Some Ts
            ∧ x ∈ liveBeforeFirst succ Ts.
Proof.
  intros Hloop Hsettled Hb.
  destruct (headsSound_loopState _ _ _ Hloop) as (_ & _ & Hsound).
  destruct (propagated_loopState _ _ _ Hloop) as (Hseeds & Hedges & Hclean & Hwhy).
  destruct (entries_loopState _ code s blockIndex Hloop) as (known & T & Hk & HT);
    [by eapply lookup_lt_Some|].
  exists T. split; [done|]. intros x. split.
  - intros Hx.
    destruct (Hwhy _ _ _ HT Hx) as [(blk & Hblk & Hseed)|(sb & succ & ks & Hsb & Hp & Hks & Hxk)].
    + left. by assert (blk = block) as <- by congruence.
    + right. destruct (entries_loopState _ code s sb Hloop) as (ks' & Ts & Hks' & HTs);
        [by eapply lookup_lt_Some|].
      exists sb, succ, Ts. split_and!; [done..|].
      destruct (Hsound _ _ _ _ Hsb Hks HTs) as [_ Hsub]. by apply Hsub.
  - intros [Hx|(sb & succ & Ts & Hsb & Hp & HTs & Hx)].
    + eapply Hseeds; [exact Hb|exact HT|done].
    + destruct (entries_loopState _ code s sb Hloop) as (ks & Ts' & Hks & HTs');
        [by eapply lookup_lt_Some|].
      assert (Ts' = Ts) as -> by congruence.
      eapply Hedges; [exact Hsb|exact Hks|exact Hp|exact HT|].
      eapply Hclean; [exact Hsb|by eapply Hsettled|exact Hks|exact HTs|exact Hx].
Qed.

(** A state of the loop in which every block is clean is a solution. *)
Lemma clean_exit_solves code s :
  predecessorsInRange code = true →
  loopState quickSetResult code s →
  (∀ b blk, blocks code !! b = Some (Some blk) → b ∉ dirtyBlocks s) →
  solves code (λ b, default ∅ (m_liveAtTail (engine s) !! b)).
Proof.
  intros Hpreds Hloop Hsettled.
  destruct (propagated_loopState _ _ _ Hloop) as (Hseeds & Hedges & Hclean & _).
  split.
  - intros b block x Hb Hx.
    destruct (entries_loopState _ code s b Hloop) as (known & T & Hk & HT);
      [by eapply lookup_lt_Some|].
    rewrite HT. simpl. by eapply Hseeds.
  - intros sb succ p x Hsb Hp.
    destruct (entries_loopState _ code s sb Hloop) as (ks & Ts & Hks & HTs);
      [by eapply lookup_lt_Some|].
    destruct (entries_loopState _ code s p Hloop) as (kp & Tp & Hkp & HTp);
      [by eapply predecessorsInRange_lookup|].
    rewrite HTs, HTp. simpl. intros Hx.
    eapply Hedges; [exact Hsb|exact Hks|exact Hp|exact HTp|].
    eapply Hclean; [exact Hsb|by eapply Hsettled|exact Hks|exact HTs|exact Hx].
Qed.

(** The loop leaves through a state of the loop that ends a turn. *)
Lemma AbstractLiveness_new_exit code fuel liveness :
  AbstractLiveness_new quickSetResult fuel code = Ok liveness →
  ∃ s0 s, pass quickSetResult code s0 = Some s
    ∧ loopState quickSetResult code s
    ∧ m_liveAtTail liveness = m_liveAtTail (engine s).
Proof.
  unfold AbstractLiveness_new.
  destruct (initialState code) as [s0|] eqn:Hentry; [|done].
  destruct (fixedPoint quickSetResult fuel code s0) as [s'| |] eqn:Hfix; [|done..].
  intros [= <-].
  destruct (fixedPoint_exit _ _ _ _ _ Hfix (loopState_entry _ _ _ Hentry))
    as (Hloop & _ & s1 & Hpass).
  by exists s1, s'.
Qed.

Lemma forward_exit_clean code s0 s :
  forwardEdges code = true →
  pass quickSetResult code s0 = Some s →
  ∀ b blk, blocks code !! b = Some (Some blk) → b ∉ dirtyBlocks s.
Proof.
  intros Hfwd Hpass b blk Hb. unfold pass in Hpass.
  destruct (countDown_forward_clean _ _ _ _ Hfwd Hpass) as [Hlow _].
  apply (Hlow b blk Hb). by eapply lookup_lt_Some.
Qed.

(** X9. On a well-formed code whose edges all go forward in the layout
    (every predecessor of a block has a smaller index), the constructor
    returns after at most two turns of its loop, whatever [quickSet]
    returns, and the engine is the fixed point: the tail set of every
    block is the union of the accepted late uses of its terminal and of
    what a local scan of each successor finds live before the first
    instruction. *)
Theorem fixed_point_on_forward_layout code fuel :
  wellFormed code = true →
  forwardEdges code = true →
  ∃ liveness,
    AbstractLiveness_new quickSetResult (2 + fuel) code = Ok liveness
    ∧ ∀ blockIndex block,
        blocks code !! blockIndex = Some (Some block) →
        ∃ terminal T,
          last (insts block) = Some terminal
          ∧ liveAtTail liveness blockIndex = Some T
          ∧ ∀ x, x ∈ T ↔
              x ∈ indicesOf isLateUse terminal
              ∨ ∃ succIndex succ live,
                  blocks code !! succIndex = Some (Some succ)
                  ∧ blockIndex ∈ predecessors succ
                  ∧ liveAtHeadOf code succIndex liveness = Some live
                  ∧ x ∈ live.
Proof.
  intros Hwf Hfwd.
  pose proof Hwf as Hwf'. unfold wellFormed in Hwf'.
  apply andb_true_iff in Hwf' as [Hwf' Hrange].
  apply andb_true_iff in Hwf' as [Hterm _].
  destruct (initialState_is_Some code Hterm) as [s0 Hs0].
  pose proof (loopState_entry quickSetResult _ _ Hs0) as Hloop0.
  destruct (pass_progress quickSetResult code s0 Hwf) as (s1 & Hpass1 & Hh1 & Ht1 & _ & Hl1);
    [by apply headsSound_entry|by apply tailsBounded_entry|].
  specialize (Hl1 Hloop0).
  assert (∀ b blk, blocks code !! b = Some (Some blk) → b ∉ dirtyBlocks s1) as Hclean1.
  { intros b blk Hb. unfold pass in Hpass1.
    destruct (countDown_forward_clean _ _ _ _ Hfwd Hpass1) as [Hlow _].
    apply (Hlow b blk Hb). by eapply lookup_lt_Some. }
  assert (∃ s', fixedPoint quickSetResult (2 + fuel) code s0 = Ok s'
            ∧ loopState quickSetResult code s'
            ∧ ∀ b blk, blocks code !! b = Some (Some blk) → b ∉ dirtyBlocks s')
    as (s' & Hfix & Hloop & Hclean).
  { cbn [fixedPoint Nat.add]. rewrite Hpass1. destruct (changed s1) eqn:Hch.
    - destruct (pass_progress quickSetResult code s1 Hwf Hh1 Ht1)
        as (s2 & Hpass2 & _ & _ & _ & Hl2).
      specialize (Hl2 Hl1). pose proof Hpass2 as Hpass2'. unfold pass in Hpass2'.
      apply countDown_clean in Hpass2' as (He & Hd & Hc); [|intros b blk Hb _; by eapply Hclean1].
      simpl in He, Hd, Hc.
      destruct fuel; cbn [fixedPoint]; rewrite Hpass2, Hc; (eexists; split; [done|]);
        (split; [done|]); rewrite Hd; exact Hclean1.
    - by exists s1. }
  eexists. split.
  - unfold AbstractLiveness_new. rewrite Hs0, Hfix. done.
  - intros blockIndex block Hb. unfold liveAtTail. simpl.
    destruct (initialState_terminal _ _ _ _ Hs0 Hb) as [terminal Hlast].
    destruct (fixed_point_of_clean_exit code s' blockIndex block Hloop Hclean Hb)
      as (T & HT & Heq).
    exists terminal, T. split_and!; [done..|].
    assert (lateUsesOfTerminal block = indicesOf isLateUse terminal) as Hlate
      by (unfold lateUsesOfTerminal; by rewrite Hlast).
    intros x. rewrite Heq, Hlate. split.
    + intros [?|(sb & succ & Ts & Hsb & Hp & HTs & Hx)]; [by left|right].
      exists sb, succ, (liveBeforeFirst succ Ts). split_and!; [done..| |done].
      by apply liveAtHeadOf_spec.
    + intros [?|(sb & succ & live & Hsb & Hp & Hlive & Hx)]; [by left|right].
      destruct (entries_loopState _ code s' sb Hloop) as (ks & Ts & Hks & HTs);
        [by eapply lookup_lt_Some|].
      rewrite (liveAtHeadOf_spec code sb succ _ Ts Hsb) in Hlive by done.
      injection Hlive as <-. by exists sb, succ, Ts.
Qed.

End Forward.

(** ** The result on forward layouts is the least solution *)

Section ForwardLeast.
Context {Role Thing : Type} `{!ArgRoles Role} `{!LivenessAdapter Role Thing}.

(** X10. On a well-formed code whose edges all go forward, the tail
    sets of the engine that the constructor returns are a solution of
    the liveness constraints, hence, lying below every solution, the
    least one; and they are the same whatever [quickSet] returns and
    however long the loop is allowed to run. *)
Theorem forward_layout_result_is_least quickSetResult code fuel liveness :
  wellFormed code = true →
  forwardEdges code = true →
  AbstractLiveness_new quickSetResult fuel code = Ok liveness →
  solves code (λ blockIndex, default ∅ (liveAtTail liveness blockIndex))
  ∧ ∀ quickSetResult' fuel' liveness',
      AbstractLiveness_new quickSetResult' fuel' code = Ok liveness' →
      m_liveAtTail liveness' = m_liveAtTail liveness.
Proof.
  intros Hwf Hfwd Hnew.
  pose proof Hwf as Hwf'. unfold wellFormed in Hwf'.
  apply andb_true_iff in Hwf' as [Hwf' _].
  apply andb_true_iff in Hwf' as [_ Hpreds].
  assert (∀ q f l, AbstractLiveness_new q f code = Ok l →
            solves code (λ b, default ∅ (m_liveAtTail l !! b))
            ∧ length (m_liveAtTail l) = length (blocks code)
            ∧ ∀ solution, solves code solution →
                ∀ b T, m_liveAtTail l !! b = Some T → T ⊆ solution b) as Hall.
  { intros q f l Hl. apply AbstractLiveness_new_exit in Hl as (s0 & s & Hpass & Hloop & ->).
    split_and!.
    - apply (clean_exit_solves q); [done..|]. by eapply forward_exit_clean.
    - by destruct (headsSound_loopState _ _ _ Hloop) as (? & _).
    - intros solution Hsolves. by apply (below_loopState q code solution s). }
  destruct (Hall _ _ _ Hnew) as (Hsolves & Hlen & Hbelow). split; [exact Hsolves|].
  intros q' fuel' liveness' Hnew'.
  destruct (Hall _ _ _ Hnew') as (Hsolves' & Hlen' & Hbelow').
  apply list_eq. intros b.
  destruct (m_liveAtTail liveness' !! b) as [T'|] eqn:HT';
    destruct (m_liveAtTail liveness !! b) as [T|] eqn:HT.
  - f_equal. apply set_eq. intros x. split; intros Hx.
    + pose proof (Hbelow' _ Hsolves b T' HT' x Hx) as Hin. simpl in Hin.
      by rewrite HT in Hin.
    + pose proof (Hbelow _ Hsolves' b T HT x Hx) as Hin. simpl in Hin.
      by rewrite HT' in Hin.
  - apply lookup_lt_Some in HT'. apply lookup_ge_None in HT. lia.
  - apply lookup_lt_Some in HT. apply lookup_ge_None in HT'. lia.
  - done.
Qed.

End ForwardLeast.

(** ** The result when [quickSet] reports a bit that goes from clear to set *)

Section TransitionLeast.
Context {Role Thing : Type} `{!ArgRoles Role} `{!LivenessAdapter Role Thing}.

(** X11. When [quickSet] returns true for a bit that goes from clear to
    set, the tail sets of the engine that the constructor returns are
    the least solution of the liveness constraints, on every code whose
    predecessors are block indices: they are a solution, and every
    solution holds them. *)
Theorem least_solution_when_transition_reported quickSetResult code fuel liveness :
  quickSetResult false = true →
  predecessorsInRange code = true →
  AbstractLiveness_new quickSetResult fuel code = Ok liveness →
  solves code (λ blockIndex, default ∅ (liveAtTail liveness blockIndex))
  ∧ ∀ solution, solves code solution →
      ∀ blockIndex T, liveAtTail liveness blockIndex = Some T → T ⊆ solution blockIndex.
Proof.
  intros Hreports Hpreds Hnew. unfold AbstractLiveness_new in Hnew.
  destruct (initialState code) as [s0|] eqn:Hentry; [|done].
  destruct (fixedPoint quickSetResult fuel code s0) as [s'| |] eqn:Hfix; [|done..].
  injection Hnew as <-. unfold liveAtTail. simpl.
  destruct (fixedPoint_exit _ _ _ _ _ Hfix (loopState_entry _ _ _ Hentry))
    as (Hloop & Hfalse & s1 & Hpass).
  split.
  - apply (clean_exit_solves quickSetResult); [done..|].
    intros b blk Hblk Hin. unfold pass in Hpass.
    destruct (countDown_settled _ Hreports _ _ _ _ Hpass Hfalse) as [_ Hbits].
    destruct (Hbits b Hin) as [_ Hnot]. apply Hnot.
    split; [by eapply lookup_lt_Some|by exists blk].
  - intros solution Hsolves. by apply (below_loopState quickSetResult code solution s').
Qed.

End TransitionLeast.

(** ** The live things of a [LocalCalc] *)

Section Bounded.
Context {Role Thing : Type} `{!ArgRoles Role} `{!LivenessAdapter Role Thing}.

Local Abbreviation values := IndexSparseSet.values.

(** Calls of [execute] keep the workset free of duplicates and inside
    any set of indices that holds the operands of the block. *)
Lemma executeEach_workset (P : N → Prop) block instIndices calc calc' :
  (∀ instIndex inst isRole x,
      insts block !! instIndex = Some inst → x ∈ indicesOf isRole inst → P x) →
  executeEach block instIndices calc = Some calc' →
  NoDup (values (m_workset calc)) →
  (∀ x, x ∈ values (m_workset calc) → P x) →
  NoDup (values (m_workset calc'))
  ∧ ∀ x, x ∈ values (m_workset calc') → P x.
Proof.
  intros Hoperands. unfold executeEach. revert calc.
  induction instIndices as [|i rest IH]; intros calc; simpl.
  - by intros [= <-].
  - destruct (execute block i calc) as [calc1|] eqn:Hexec.
    + intros Hrest Hnd Hbound. apply (IH calc1 Hrest).
      * rewrite execute_eq in Hexec.
        destruct (executeOn block i (m_workset calc)) as [w|] eqn:Hw; [|done].
        injection Hexec as <-. simpl. by eapply executeOn_NoDup.
      * rewrite execute_eq in Hexec.
        destruct (executeOn block i (m_workset calc)) as [w|] eqn:Hw; [|done].
        injection Hexec as <-. simpl.
        destruct (executeOn_Some_inst _ _ _ _ Hw) as [inst Hinst].
        intros x. rewrite (executeOn_elem _ _ _ _ _ x Hinst Hw).
        intros [[Hx _]|[Hx|Hx]]; [by apply Hbound|by eapply Hoperands|].
        destruct i as [|prev]; simpl in Hx; [by apply elem_of_nil in Hx|].
        destruct (insts block !! prev) as [pinst|] eqn:Hprev; simpl in Hx;
          [by eapply Hoperands|by apply elem_of_nil in Hx].
    + intros Hrest. exfalso. clear -Hrest. induction rest; simpl in *; [done|auto].
Qed.

End Bounded.

Section StackSlotLive.
Context {Role : Type} `{!ArgRoles Role}.
Variable quickSetResult : bool → bool.

Local Abbreviation values := IndexSparseSet.values.

(** The indices at which the code has a slot. *)
Local Abbreviation slotIndices code :=
  (list_to_set (N.of_nat <$> seq 0 (length (stackSlots code))) : gset N).

Lemma elem_of_slotIndices (code : Code Role StackSlot) x :
  x ∈ slotIndices code ↔ N.to_nat x < length (stackSlots code).
Proof.
  rewrite elem_of_list_to_set, list_elem_of_fmap. split.
  - intros (i & -> & Hi). apply elem_of_seq in Hi. lia.
  - intros Hlt. exists (N.to_nat x). split; [lia|]. apply elem_of_seq. lia.
Qed.

Lemma operand_is_slot (code : Code Role StackSlot) blockIndex block instIndex inst isRole x :
  slotsIndexed code = true →
  operandsAreSlots code = true →
  blocks code !! blockIndex = Some (Some block) →
  insts block !! instIndex = Some inst →
  x ∈ indicesOf isRole inst →
  x ∈ slotIndices code.
Proof.
  intros Hindexed Hall Hb Hinst Hx. unfold operandsAreSlots in Hall.
  apply (forallb_lookup _ _ _ _ Hall) in Hb.
  apply (forallb_lookup _ _ _ _ Hb) in Hinst.
  apply elem_of_indicesOf in Hx as (thing & role & type & Hin & _ & ->).
  rewrite forallb_forall in Hinst. apply list_elem_of_In, Hinst in Hin.
  apply bool_decide_eq_true in Hin. simpl in Hin.
  apply list_elem_of_lookup in Hin as [i Hi].
  apply elem_of_slotIndices. simpl.
  rewrite (slotsIndexed_lookup _ _ _ Hindexed Hi).
  apply lookup_lt_Some in Hi. lia.
Qed.

Lemma slotIndices_solves (code : Code Role StackSlot) :
  slotsIndexed code = true →
  operandsAreSlots code = true →
  solves code (λ _, slotIndices code).
Proof.
  intros Hindexed Hall. split.
  - intros b block x Hb Hx. unfold lateUsesOfTerminal in Hx.
    destruct (last (insts block)) as [terminal|] eqn:Hlast;
      [|by apply elem_of_nil in Hx].
    simpl in Hx. rewrite last_lookup in Hlast.
    by eapply operand_is_slot.
  - intros sb succ p x Hsb _.
    apply (liveBeforeFirst_Forall (λ x, x ∈ slotIndices code)); [|done].
    intros i inst isRole y Hinst Hy. by eapply operand_is_slot.
Qed.

(** X12. [live()] of a [LocalCalc] over the stack slots: on a code whose
    slots are numbered by their position and whose operands are slots of
    the code, a [LocalCalc] made from the engine that the constructor
    returns, after any calls of [execute], iterates over stack slots of
    the code without ever reading [stackSlots()] out of bounds; they are
    pairwise different, and their indices are the contents of the
    workset, in its order. *)
Theorem live_yields_the_workset (code : Code Role StackSlot) fuel liveness
    blockIndex block instIndices calc calc' :
  slotsIndexed code = true →
  operandsAreSlots code = true →
  AbstractLiveness_new quickSetResult fuel code = Ok liveness →
  blocks code !! blockIndex = Some (Some block) →
  LocalCalc_new liveness blockIndex = Some calc →
  executeEach block instIndices calc = Some calc' →
  ∃ things, live code calc' = Some things
    ∧ valueToIndex (Role:=Role) <$> things = values (m_workset calc')
    ∧ NoDup things
    ∧ things ⊆ stackSlots code.
Proof.
  intros Hindexed Hoperands Hnew Hb Hcalc Hexec.
  assert (∀ T x, m_liveAtTail liveness !! blockIndex = Some T → x ∈ T →
            x ∈ slotIndices code) as Htail.
  { unfold AbstractLiveness_new in Hnew.
    destruct (initialState code) as [s0|] eqn:Hentry; [|done].
    destruct (fixedPoint quickSetResult fuel code s0) as [s'| |] eqn:Hfix; [|done..].
    injection Hnew as <-. simpl. intros T x HT Hx.
    destruct (fixedPoint_exit _ _ _ _ _ Hfix (loopState_entry _ _ _ Hentry)) as (Hloop & _).
    by apply (below_loopState quickSetResult code _ s'
                (slotIndices_solves code Hindexed Hoperands) Hloop blockIndex T HT). }
  unfold LocalCalc_new in Hcalc.
  destruct (m_liveAtTail liveness !! blockIndex) as [T|] eqn:HT; [|done].
  injection Hcalc as <-.
  assert (NoDup (values (m_workset calc'))
          ∧ ∀ x, x ∈ values (m_workset calc') → x ∈ slotIndices code) as [Hnd Hbound].
  { eapply (executeEach_workset (λ x, x ∈ slotIndices code)); [|exact Hexec| |].
    - intros i inst isRole x Hinst Hx. by eapply operand_is_slot.
    - simpl. rewrite values_fill. apply NoDup_elements.
    - simpl. intros x. rewrite values_fill, elem_of_elements. by apply Htail. }
  assert (∃ things, Forall2 (λ x slot, indexToValue code x = Some slot)
                      (values (m_workset calc')) things) as [things Hall].
  { revert Hbound. generalize (values (m_workset calc')). intros l Hl.
    induction l as [|x l IH]; [by exists []|].
    assert (N.to_nat x < length (stackSlots code)) as Hlt.
    { apply elem_of_slotIndices, Hl. by left. }
    destruct (lookup_lt_is_Some_2 _ _ Hlt) as [slot Hslot].
    destruct IH as [things Hthings]; [intros y Hy; apply Hl; by right|].
    exists (slot :: things). by constructor. }
  exists things.
  assert (valueToIndex (Role:=Role) <$> things = values (m_workset calc')) as Hround.
  { clear -Hall Hindexed. induction Hall as [|x slot l k Hx _ IH]; [done|].
    rewrite fmap_cons, IH. f_equal. simpl in Hx. simpl.
    rewrite (slotsIndexed_lookup _ _ _ Hindexed Hx). lia. }
  split_and!.
  - unfold live. by apply mapM_Some_2.
  - exact Hround.
  - apply (NoDup_fmap_1 (valueToIndex (Role:=Role))). by rewrite Hround.
  - intros slot Hslot. clear -Hall Hslot.
    induction Hall as [|x s l k Hx _ IH]; [by apply elem_of_nil in Hslot|].
    apply elem_of_cons in Hslot as [->|Hslot]; [|by apply IH].
    simpl in Hx. by eapply list_elem_of_lookup_2.
Qed.

End StackSlotLive.

(** * Properties of the compositing run loop *)

Section RunLoopFacts.
Import CompositingRunLoop.

Lemma calls_app cs1 cs2 s :
  calls (cs1 ++ cs2) s =
    let (s1, e1) := calls cs1 s in let (s2, e2) := calls cs2 s1 in (s2, e1 ++ e2).
Proof.
  revert s. induction cs1 as [|c cs1 IH]; intros s; simpl.
  - by destruct (calls cs2 s).
  - destruct (call c s) as [s1 e1]. rewrite IH.
    destruct (calls cs1 s1) as [s2 e2]. destruct (calls cs2 s2) as [s3 e3].
    by rewrite app_assoc.
Qed.

Lemma calls_schedule_again k s :
  s ≠ Completed →
  calls (replicate k ScheduleUpdate) s = (if k is 0 then s else PendingAfterCompletion, []).
Proof.
  revert s. induction k as [|k IH]; intros s Hs; [done|].
  cbn [replicate calls call]. destruct s; [done|..]; simpl; rewrite IH by done; by destruct k.
Qed.

(** X13. Requests for an update coalesce. On a new run loop any number
    of calls of [scheduleUpdate] in a row starts the update timer once;
    the [updateCompleted] that follows ends the update when there was
    one request and starts the timer once more when there were several.
    While an update is under way, calls of [scheduleUpdate] start
    nothing, and the [updateCompleted] that follows starts the timer
    exactly once. *)
Theorem scheduled_updates_coalesce k :
  calls (replicate (S k) ScheduleUpdate) new
    = (if k is 0 then InProgress else PendingAfterCompletion, [UpdateTimerStarted])
  ∧ calls (replicate (S k) ScheduleUpdate ++ [UpdateCompleted]) new
    = (if k is 0 then Completed else InProgress,
       if k is 0 then [UpdateTimerStarted] else [UpdateTimerStarted; UpdateTimerStarted])
  ∧ ∀ s, s ≠ Completed →
      calls (replicate (S k) ScheduleUpdate ++ [UpdateCompleted]) s
        = (InProgress, [UpdateTimerStarted]).
Proof.
  assert (calls (replicate (S k) ScheduleUpdate) new
          = (if k is 0 then InProgress else PendingAfterCompletion, [UpdateTimerStarted]))
    as Hfirst.
  { cbn [replicate calls call]. simpl. rewrite calls_schedule_again by done. by destruct k. }
  split_and!.
  - exact Hfirst.
  - rewrite calls_app, Hfirst. by destruct k.
  - intros s Hs. rewrite calls_app, calls_schedule_again by done. by destruct s.
Qed.

(** X14. At most one update is under way. After any calls of
    [scheduleUpdate] and [updateCompleted] on a new run loop, made one
    after the other, the update timer has been started once for every
    call of [updateCompleted] that did not run into
    [ASSERT_NOT_REACHED], and once more exactly when the state is not
    [Completed]. *)
Theorem updates_balance cs :
  StopUpdates ∉ cs →
  length (filter (λ e, e = UpdateTimerStarted) (calls cs new).2)
    + length (filter (λ e, e = AssertNotReached) (calls cs new).2)
  = length (filter (λ c, c = UpdateCompleted) cs)
    + (if decide ((calls cs new).1 = Completed) then 0 else 1).
Proof.
  assert (∀ s, StopUpdates ∉ cs →
    length (filter (λ e, e = UpdateTimerStarted) (calls cs s).2)
      + length (filter (λ e, e = AssertNotReached) (calls cs s).2)
      + (if decide (s = Completed) then 0 else 1)
    = length (filter (λ c, c = UpdateCompleted) cs)
      + (if decide ((calls cs s).1 = Completed) then 0 else 1)) as Hgen.
  { induction cs as [|c cs IH]; intros s Hno; [simpl; lia|].
    apply not_elem_of_cons in Hno as [Hc Hno].
    cbn [calls]. destruct (call c s) as [s1 e1] eqn:Hcall.
    specialize (IH s1 Hno). destruct (calls cs s1) as [s2 e2]. simpl in IH |- *.
    rewrite !filter_app, !length_app, filter_cons.
    destruct c; [|done|]; destruct s; simpl in Hcall; injection Hcall as <- <-;
      simpl in *; lia. }
  intros Hno. specialize (Hgen new Hno). simpl in Hgen. lia.
Qed.

(** X15. [scheduleUpdate] is not atomic. Made one after the other, in
    either order and from any state, a call of [scheduleUpdate] and a
    call of [updateCompleted] start the update timer. When the whole of
    [updateCompleted] runs on another thread between the two exchanges
    of [scheduleUpdate], the state ends as [Completed] with no timer
    started exactly when it was [InProgress]: the request is lost. *)
Theorem scheduleUpdate_is_not_atomic :
  (∀ s, UpdateTimerStarted ∈ (calls [ScheduleUpdate; UpdateCompleted] s).2)
  ∧ (∀ s, UpdateTimerStarted ∈ (calls [UpdateCompleted; ScheduleUpdate] s).2)
  ∧ (∀ s, scheduleUpdate_around updateCompleted s = (Completed, []) ↔ s = InProgress).
Proof.
  split_and!; intros []; vm_compute; try set_solver; split; congruence.
Qed.

End RunLoopFacts.

(** * Properties of frame completion *)

Section CompositorFacts.
Variable handle : bool * bool → bool * bool.

Lemma compositorCall_flags call c :
  (m_coordinateUpdateCompletionWithClient c = true → m_clientRendersNextFrame c = true) →
  m_coordinateUpdateCompletionWithClient (compositorCall handle call c) = true →
  m_clientRendersNextFrame (compositorCall handle call c) = true.
Proof.
  intros Hc. destruct call; simpl; try done.
  unfold displayRefreshCallback.
  destruct (isScheduled c && isPreviousFrameDone c); [destruct (handle _)|];
    destruct (m_compositor c); simpl; try done;
    destruct c as [[] [] ? ? ?]; simpl in *; try done; by auto.
Qed.

Lemma compositorAfter_flags calls scheduled previousFrameDone :
  m_coordinateUpdateCompletionWithClient
    (compositorAfter handle calls scheduled previousFrameDone) = true →
  m_clientRendersNextFrame (compositorAfter handle calls scheduled previousFrameDone) = true.
Proof.
  unfold compositorAfter.
  induction calls as [|call calls IH] using rev_ind; [done|].
  rewrite foldl_app. simpl. by apply compositorCall_flags.
Qed.

(** X16. The completion of an update always has a path. After any calls
    on a new compositor and its monitor, made one after the other (scene
    updates, [requestRefreshCallback], [invalidate],
    [displayRefreshCallback], [frameComplete]), [frameComplete] either
    calls [updateCompleted] itself, or it leaves that to the client and
    then starts the display refresh timer; unless the monitor has been
    invalidated, the [displayRefreshCallback] that the timer runs renders
    the next frame, calls [updateCompleted], and clears both flags, so
    that a second callback does not call it again. *)
Theorem update_completion_has_a_path calls scheduled previousFrameDone reportFPS :
  let c := compositorAfter handle calls scheduled previousFrameDone in
  let (c', effects) := frameComplete reportFPS c in
  (UpdateCompletedCalled ∈ effects ∧ m_coordinateUpdateCompletionWithClient c = false)
  ∨ ((UpdateCompletedCalled ∉ effects)
     ∧ DisplayRefreshTimerStarted ∈ effects
     ∧ (m_compositor c' = true →
        let (c'', effects') := displayRefreshCallback handle c' in
        UpdateCompletedCalled ∈ effects'
        ∧ NextFrameRendered ∈ effects'
        ∧ m_clientRendersNextFrame c'' = false
        ∧ m_coordinateUpdateCompletionWithClient c'' = false
        ∧ UpdateCompletedCalled ∉ (displayRefreshCallback handle c'').2)).
Proof.
  pose proof (compositorAfter_flags calls scheduled previousFrameDone) as Hinv. simpl.
  destruct (compositorAfter handle calls scheduled previousFrameDone)
    as [renders coordinate sched done' comp].
  simpl in Hinv. unfold frameComplete. simpl. destruct coordinate; simpl.
  - right. rewrite Hinv by done. simpl. split_and!.
    + destruct reportFPS; set_solver.
    + destruct reportFPS; set_solver.
    + intros ->. unfold displayRefreshCallback. simpl.
      destruct (sched && done'); [destruct (handle _) as [s1 d1]|]; simpl.
      * split_and!; [set_solver|set_solver|done|done|].
        destruct (s1 && d1); [destruct (handle _)|]; simpl; set_solver.
      * split_and!; [set_solver|set_solver|done|done|].
        destruct (sched && done'); [destruct (handle _)|]; simpl; set_solver.
  - left. split; [|done]. destruct reportFPS, (renders || _); set_solver.
Qed.

End CompositorFacts.

(** * Properties of the work queue *)

Section WorkQueueName.

Lemma g_strrstr_None haystack needle :
  g_strrstr haystack needle = None ↔ needle ∉ haystack.
Proof.
  induction haystack as [|c rest IH]; simpl; [split; [set_solver|done]|].
  destruct (g_strrstr rest needle) as [found|].
  - split; [done|]. intros Hnot. apply not_elem_of_cons in Hnot as [_ Hnot].
    by apply IH in Hnot.
  - destruct (decide (c = needle)) as [->|Hne].
    + split; [done|]. intros Hnot. exfalso. apply Hnot. by left.
    + split; [|done]. intros _. apply not_elem_of_cons. split; [done|]. by apply IH.
Qed.

Lemma g_strrstr_Some haystack needle found :
  g_strrstr haystack needle = Some found →
  ∃ before after, haystack = before ++ needle :: after ∧ found = needle :: after
    ∧ needle ∉ after.
Proof.
  revert found. induction haystack as [|c rest IH]; intros found; simpl; [done|].
  destruct (g_strrstr rest needle) as [found'|] eqn:Hrest.
  - intros [= <-]. destruct (IH _ eq_refl) as (before & after & -> & -> & Hnot).
    by exists (c :: before), after.
  - destruct (decide (c = needle)) as [->|Hne]; [|done]. intros [= <-].
    exists [], rest. split_and!; [done..|]. by apply g_strrstr_None.
Qed.

Lemma g_strrstr_last before after needle :
  needle ∉ after → g_strrstr (before ++ needle :: after) needle = Some (needle :: after).
Proof.
  intros Hnot. induction before as [|c before IH]; simpl.
  - apply g_strrstr_None in Hnot as ->. by rewrite decide_True.
  - by rewrite IH.
Qed.

(** X17. The name that [platformInitialize] gives to the thread of a
    work queue is at most 31 characters long, is an end of the name of
    the queue, and has no dot in it. It is what comes after the last dot
    of the name of the queue, or the whole name when there is no dot,
    cut down to its last 31 characters. *)
Theorem thread_name_is_last_component name :
  length (platformInitialize_threadName name) ≤ kVisualStudioThreadNameLimit
  ∧ platformInitialize_threadName name `suffix_of` name
  ∧ ("."%char ∉ platformInitialize_threadName name)
  ∧ (∀ before after, name = before ++ "."%char :: after → "."%char ∉ after →
       platformInitialize_threadName name
         = drop (length after - kVisualStudioThreadNameLimit) after)
  ∧ ("."%char ∉ name →
       platformInitialize_threadName name
         = drop (length name - kVisualStudioThreadNameLimit) name).
Proof.
  assert (∀ l : list ascii,
            let cut := if decide (kVisualStudioThreadNameLimit < length l)
                       then drop (length l - kVisualStudioThreadNameLimit) l else l in
            length cut ≤ kVisualStudioThreadNameLimit
            ∧ cut `suffix_of` l
            ∧ cut = drop (length l - kVisualStudioThreadNameLimit) l) as Hcut.
  { intros l. unfold kVisualStudioThreadNameLimit. simpl. case_decide.
    - split_and!; [rewrite length_drop; lia|apply suffix_drop|done].
    - split_and!; [lia|done|]. by replace (length l - 31) with 0 by lia. }
  unfold platformInitialize_threadName.
  destruct (g_strrstr name ".") as [found|] eqn:Hfound.
  - pose proof Hfound as Hsome.
    apply g_strrstr_Some in Hsome as (before & after & Hname & -> & Hnot).
    cbn [drop]. destruct (Hcut after) as (Hlen & Hsuf & Heq). simpl in Hlen, Hsuf, Heq.
    split_and!.
    + done.
    + etrans; [exact Hsuf|]. rewrite Hname. apply suffix_app_r, suffix_cons_r. done.
    + intros Hin. apply Hnot. destruct Hsuf as [k ->]. apply elem_of_app. by right.
    + intros before' after' Hname' Hnot'.
      rewrite Hname', (g_strrstr_last _ _ _ Hnot') in Hfound.
      injection Hfound as <-. exact Heq.
    + intros Hnone. apply g_strrstr_None in Hnone. congruence.
  - destruct (Hcut name) as (Hlen & Hsuf & Heq). simpl in Hlen, Hsuf, Heq.
    apply g_strrstr_None in Hfound. split_and!.
    + done.
    + done.
    + intros Hin. apply Hfound. destruct Hsuf as [k ->]. apply elem_of_app. by right.
    + intros before after -> _. exfalso. apply Hfound, elem_of_app. right. by left.
    + done.
Qed.

End WorkQueueName.

(** * Instances of the further properties *)

Lemma scan_transfer_function_witness :
  ∃ live generated,
    liveAtHeadOf sampleCode 0 sampleLiveness = Some live
    ∧ liveAtHeadOf sampleCode 0 (initialLiveness sampleCode) = Some generated
    ∧ ∀ x, x ∈ live ↔
        x ∈ generated
        ∨ (x ∈ ({[0%N]} : gset N)
           ∧ ∀ inst, inst ∈ insts sampleBlock → x ∉ indicesOf isDef inst).
Proof.
  apply (scan_transfer_function sampleCode 0 sampleBlock sampleLiveness
           (initialLiveness sampleCode) {[0%N]}); reflexivity.
Defined.

Lemma first_instruction_decides_witness :
  insts sampleBlock !! 0 = Some [(slot 0, Def, GP); (slot 0, LateUse, GP)]
  ∧ ∃ live, liveAtHeadOf sampleCode 0 sampleLiveness = Some live ∧ 0%N ∉ live.
Proof.
  split; [reflexivity|].
  destruct (first_instruction_decides sampleCode 0 sampleBlock
              [(slot 0, Def, GP); (slot 0, LateUse, GP)] sampleLiveness {[0%N]})
    as (live & Hlive & _ & Hkill); [reflexivity..|].
  exists live. split; [exact Hlive|]. apply Hkill.
  - simpl. apply list_elem_of_here.
  - simpl. apply not_elem_of_nil.
Defined.

Lemma other_domains_ignored_witness :
  GPLiveness_new returnsTransition 3 (@ownCode Role N GPAdapter mixedCode)
    = GPLiveness_new returnsTransition 3 mixedCode.
Proof.
  apply (@other_domains_ignored Role N Role_ArgRoles GPAdapter returnsTransition mixedCode 3).
  reflexivity.
Defined.

Lemma turn_only_adds_witness :
  ∃ s', pass returnsOldValue loopCode loopAfterTurn = Some s'
    ∧ length (m_liveAtTail (engine s')) = 3
    ∧ (∃ T', liveAtTail (engine s') 2 = Some T' ∧ ({[0%N]} : gset N) ⊆ T')
    ∧ (∃ known', m_liveAtHead (engine s') !! 1 = Some known' ∧ [0%N] `prefix_of` known')
    ∧ liveAtTail (engine s') 3 = None.
Proof.
  destruct (pass returnsOldValue loopCode loopAfterTurn) as [s'|] eqn:Hpass;
    [|by vm_compute in Hpass].
  exists s'. split; [reflexivity|].
  destruct (turn_only_adds returnsOldValue loopCode loopAfterTurn s' Hpass)
    as (Hlen & _ & Htails & Hheads & Hnone & _).
  split_and!.
  - exact Hlen.
  - apply (Htails 2 {[0%N]}). reflexivity.
  - apply (Hheads 1 [0%N]). reflexivity.
  - apply (Hnone 3). reflexivity.
Defined.

Lemma tail_entries_justified_witness :
  StackSlotLiveness_new returnsOldValue 2 straightCode = Ok straightLiveness
  ∧ ∃ terminal T,
      last (insts straightBlock) = Some terminal
      ∧ liveAtTail straightLiveness 1 = Some T
      ∧ ∀ x, x ∈ indicesOf isLateUse terminal → x ∈ T.
Proof.
  assert (StackSlotLiveness_new returnsOldValue 2 straightCode = Ok straightLiveness)
    as Hnew by (vm_compute; reflexivity).
  split; [exact Hnew|].
  destruct (tail_entries_justified returnsOldValue straightCode 2 straightLiveness 1
              straightBlock Hnew eq_refl) as (terminal & T & Hlast & HT & Hseeds & _).
  by exists terminal, T.
Defined.

Lemma result_below_every_solution_witness :
  solves straightCode (λ _, {[0%N; 1%N]})
  ∧ StackSlotLiveness_new returnsOldValue 2 straightCode = Ok straightLiveness
  ∧ liveAtTail straightLiveness 0 = Some {[0%N; 1%N]}
  ∧ ({[0%N; 1%N]} : gset N) ⊆ {[0%N; 1%N]}.
Proof.
  assert (solves straightCode (λ _, {[0%N; 1%N]})) as Hsolves.
  { split.
    - intros [|[|b]] block x Hb Hx; [| |done]; injection Hb as <-.
      + by apply elem_of_nil in Hx.
      + simpl in Hx. apply list_elem_of_singleton in Hx as ->. set_solver.
    - intros [|[|b]] succ p x Hb Hp Hx; [| |done]; injection Hb as <-.
      + by apply elem_of_nil in Hp.
      + vm_compute in Hx. set_solver. }
  assert (StackSlotLiveness_new returnsOldValue 2 straightCode = Ok straightLiveness)
    as Hnew by (vm_compute; reflexivity).
  assert (liveAtTail straightLiveness 0 = Some {[0%N; 1%N]}) as HT by reflexivity.
  split_and!; [exact Hsolves|exact Hnew|exact HT|].
  exact (result_below_every_solution returnsOldValue straightCode 2 straightLiveness _ 0 _
           Hnew Hsolves HT).
Defined.

Lemma fixed_point_on_forward_layout_witness :
  wellFormed straightCode = true
  ∧ forwardEdges straightCode = true
  ∧ ∃ liveness, StackSlotLiveness_new returnsOldValue 2 straightCode = Ok liveness.
Proof.
  split; [reflexivity|]. split; [reflexivity|].
  destruct (fixed_point_on_forward_layout returnsOldValue straightCode 0)
    as (liveness & Hnew & _); [reflexivity..|].
  by exists liveness.
Defined.

Lemma live_yields_the_workset_witness :
  slotsIndexed straightCode = true
  ∧ operandsAreSlots straightCode = true
  ∧ StackSlotLiveness_new returnsOldValue 2 straightCode = Ok straightLiveness
  ∧ LocalCalc_new straightLiveness 1 = Some straightLiveness
  ∧ ∃ calc' things,
      executeEach straightBlock [1; 0] straightLiveness = Some calc'
      ∧ live straightCode calc' = Some things
      ∧ index <$> things = IndexSparseSet.values (m_workset calc')
      ∧ IndexSparseSet.values (m_workset calc') = [1%N; 0%N].
Proof.
  assert (slotsIndexed straightCode = true) as Hindexed by reflexivity.
  assert (operandsAreSlots straightCode = true) as Hoperands by reflexivity.
  assert (StackSlotLiveness_new returnsOldValue 2 straightCode = Ok straightLiveness)
    as Hnew by (vm_compute; reflexivity).
  assert (LocalCalc_new straightLiveness 1 = Some straightLiveness)
    as Hcalc by (vm_compute; reflexivity).
  assert (executeEach straightBlock [1; 0] straightLiveness
            = Some (withWorkset straightLiveness (IndexSparseSet.Make 1 [1%N; 0%N])))
    as Hexec by (vm_compute; reflexivity).
  split; [exact Hindexed|]. split; [exact Hoperands|].
  split; [exact Hnew|]. split; [exact Hcalc|].
  destruct (live_yields_the_workset returnsOldValue straightCode 2 straightLiveness 1
              straightBlock [1; 0] straightLiveness
              (withWorkset straightLiveness (IndexSparseSet.Make 1 [1%N; 0%N]))
              Hindexed Hoperands Hnew eq_refl Hcalc Hexec)
    as (things & Hlive & Hround & _).
  eexists _, things. by split_and!.
Defined.

Lemma scheduled_updates_coalesce_witness :
  InProgress ≠ Completed
  ∧ CompositingRunLoop.calls
      (replicate 3 CompositingRunLoop.ScheduleUpdate ++ [CompositingRunLoop.UpdateCompleted])
      InProgress
    = (InProgress, [UpdateTimerStarted]).
Proof.
  assert (InProgress ≠ Completed) as Hne by discriminate.
  split; [exact Hne|].
  exact (proj2 (proj2 (scheduled_updates_coalesce 2)) InProgress Hne).
Defined.

Lemma updates_balance_witness :
  let cs := [CompositingRunLoop.ScheduleUpdate; CompositingRunLoop.ScheduleUpdate;
             CompositingRunLoop.UpdateCompleted; CompositingRunLoop.UpdateCompleted;
             CompositingRunLoop.UpdateCompleted] in
  (CompositingRunLoop.StopUpdates ∉ cs)
  ∧ length (filter (λ e, e = UpdateTimerStarted)
              (CompositingRunLoop.calls cs CompositingRunLoop.new).2)
    + length (filter (λ e, e = AssertNotReached)
                (CompositingRunLoop.calls cs CompositingRunLoop.new).2)
    = 3.
Proof.
  intros cs.
  assert (CompositingRunLoop.StopUpdates ∉ cs) as Hno.
  { unfold cs. rewrite !not_elem_of_cons. split_and!; [discriminate..|].
    apply not_elem_of_nil. }
  split; [exact Hno|]. rewrite (updates_balance cs Hno). reflexivity.
Defined.

Lemma update_completion_has_a_path_witness :
  let c := compositorAfter id [SceneUpdate [false; true]] false false in
  m_compositor c = true
  ∧ (UpdateCompletedCalled ∉ (frameComplete false c).2)
  ∧ UpdateCompletedCalled ∈ (displayRefreshCallback id (frameComplete false c).1).2.
Proof.
  intros c.
  pose proof (update_completion_has_a_path id [SceneUpdate [false; true]] false false false)
    as Hpath.
  fold c in Hpath. simpl in Hpath.
  destruct Hpath as [[_ Hfalse]|(Hnot & _ & Hcallback)]; [discriminate Hfalse|].
  split; [reflexivity|]. split; [exact Hnot|]. by apply Hcallback.
Defined.

Lemma thread_name_is_last_component_witness :
  ("."%char ∉ drop 17 processLauncherName)
  ∧ platformInitialize_threadName processLauncherName = drop 17 processLauncherName.
Proof.
  assert ("."%char ∉ drop 17 processLauncherName) as Hnot.
  { simpl. rewrite !not_elem_of_cons. split_and!; [discriminate..|]. apply not_elem_of_nil. }
  split; [exact Hnot|].
  destruct (thread_name_is_last_component processLauncherName) as (_ & _ & _ & Hlast & _).
  rewrite (Hlast (take 16 processLauncherName) (drop 17 processLauncherName) eq_refl Hnot).
  reflexivity.
Defined.

Lemma forward_layout_result_is_least_witness :
  wellFormed straightCode = true
  ∧ forwardEdges straightCode = true
  ∧ StackSlotLiveness_new returnsOldValue 2 straightCode = Ok straightLiveness
  ∧ ∀ liveness', StackSlotLiveness_new returnsTransition 5 straightCode = Ok liveness' →
      m_liveAtTail liveness' = m_liveAtTail straightLiveness.
Proof.
  assert (StackSlotLiveness_new returnsOldValue 2 straightCode = Ok straightLiveness)
    as Hnew by (vm_compute; reflexivity).
  assert (wellFormed straightCode = true) as Hwf by reflexivity.
  assert (forwardEdges straightCode = true) as Hfwd by reflexivity.
  split; [exact Hwf|]. split; [exact Hfwd|]. split; [exact Hnew|].
  destruct (forward_layout_result_is_least returnsOldValue straightCode 2 straightLiveness
              Hwf Hfwd Hnew) as [_ Hsame].
  intros liveness'. apply (Hsame returnsTransition 5).
Defined.

Lemma least_solution_when_transition_reported_witness :
  returnsTransition false = true
  ∧ predecessorsInRange loopCode = true
  ∧ ∃ liveness,
      StackSlotLiveness_new returnsTransition 4 loopCode = Ok liveness
      ∧ solves loopCode (λ blockIndex, default ∅ (liveAtTail liveness blockIndex)).
Proof.
  assert (predecessorsInRange loopCode = true) as Hpreds by reflexivity.
  split; [reflexivity|]. split; [exact Hpreds|].
  destruct (StackSlotLiveness_new returnsTransition 4 loopCode) as [liveness| |] eqn:Hnew;
    [|by vm_compute in Hnew..].
  exists liveness. split; [reflexivity|].
  exact (proj1 (least_solution_when_transition_reported returnsTransition loopCode 4 liveness
                  eq_refl Hpreds Hnew)).
Defined.

Lemma scan_ignores_iteration_order_witness :
  [1%N; 0%N] ≡ₚ elements ({[0%N; 1%N]} : gset N)
  ∧ ∃ scanned,
      scanOn straightBlock (fillFrom [1%N; 0%N] (IndexSparseSet.new 1)) = Some scanned
      ∧ IndexSparseSet.values scanned ≡ₚ liveBeforeFirst straightBlock {[0%N; 1%N]}.
Proof.
  assert ([1%N; 0%N] ≡ₚ elements ({[0%N; 1%N]} : gset N)) as Horder.
  { apply NoDup_Permutation.
    - apply NoDup_cons. split; [|apply NoDup_singleton].
      rewrite list_elem_of_singleton. discriminate.
    - apply NoDup_elements.
    - intros x. rewrite elem_of_elements. set_solver. }
  split; [exact Horder|].
  exact (scan_ignores_iteration_order straightBlock (IndexSparseSet.new 1) _ _ Horder).
Defined.

Lemma empty_block_traps_witness :
  StackSlotLiveness_new returnsOldValue 3 emptyBlockCode = Trap.
Proof.
  apply (proj2 (empty_block_traps returnsOldValue emptyBlockCode 3 0
                  {| insts := []; predecessors := [] |} eq_refl eq_refl)).
Defined.
